(** * ryOS desktop: terminal interpreter, vim mode, chat merge, email editor

    A shallow embedding of the parts of the TypeScript sources that the
    specification speaks about, and the properties proved of them.

    - [JS]        strings as lists of UTF-16 code units, the array and string
                  primitives the sources rely on (split, join, splice, sort,
                  trim, substring).
    - [TextEdit]  [applyTextEditChanges] of chats/utils/textEditUtils.ts.
    - [Chat]      the room-message state of the chat hook (useChatCore).
    - [Email]     [handleSave] of email/components/EmailDataEditor.tsx.
    - [Helpers]   [truncateFilename] of chats/utils/helpers.ts.
    - [Mail]      the mailbox handlers of email/components/EmailAppComponent.tsx.
    - [Terminal]  [parseCommand], [processCommand] and the vim key handler of
                  terminal/components/TerminalAppComponent.tsx. *)

From stdpp Require Import base list numbers option strings sorting.
From Stdlib Require Import ZArith QArith Lia.
From Stdlib Require Ascii String.

Local Open Scope Z_scope.

(** ** JavaScript strings and arrays *)

Module JS.

(** A JavaScript string is a sequence of 16-bit code units. *)
Abbreviation jschar := N.
Abbreviation jsstring := (list N).

(** String literals of the sources, written as ASCII strings. *)
Definition js (s : string) : jsstring := Ascii.N_of_ascii <$> String.list_ascii_of_string s.

Definition jseqb (a b : jsstring) : bool := bool_decide (a = b).

Infix "=j" := jseqb (at level 70, no associativity).

(** Truthiness of a string: only the empty string is falsy. *)
Definition truthy (s : jsstring) : bool :=
  match s with [] => false | _ => true end.

(** [s.split(sep)] for a separator of one code unit. *)
Fixpoint split (sep : N) (s : jsstring) : list jsstring :=
  match s with
  | [] => [[]]
  | c :: s' =>
      if N.eqb c sep then [] :: split sep s'
      else match split sep s' with
           | [] => [[c]]
           | w :: ws => (c :: w) :: ws
           end
  end.

(** [a.join(sep)]. *)
Fixpoint join (sep : jsstring) (a : list jsstring) : jsstring :=
  match a with
  | [] => []
  | x :: xs =>
      match xs with
      | [] => x
      | _ :: _ => x ++ sep ++ join sep xs
      end
  end.

Definition nl : N := 10%N.
Definition slash : N := 47%N.

(** [a.splice(start, deleteCount, ...items)], the array left in [a].  The
    start index counts from the end when negative and is clamped to the
    array; the delete count is clamped to what is left after the start. *)
Definition splice {A} (a : list A) (start deleteCount : Z) (items : list A)
  : list A :=
  let len := Z.of_nat (length a) in
  let s := if start <? 0 then Z.max (len + start) 0 else Z.min start len in
  let d := Z.min (Z.max deleteCount 0) (len - s) in
  take (Z.to_nat s) a ++ items ++ drop (Z.to_nat (s + d)) a.

(** [a.sort(cmp)] for a consistent comparator.  The language requires the
    sort to be stable, so its result is the one of a stable insertion sort:
    an element moves behind a later one only when [cmp] is positive. *)
Fixpoint sort_insert {A} (cmp : A → A → Z) (x : A) (a : list A) : list A :=
  match a with
  | [] => [x]
  | y :: a' => if cmp x y <=? 0 then x :: a else y :: sort_insert cmp x a'
  end.

Definition sort {A} (cmp : A → A → Z) (a : list A) : list A :=
  foldr (sort_insert cmp) [] a.

(** [a.slice(0, -1)]. *)
Definition slice_init {A} (a : list A) : list A := take (length a - 1)%nat a.

(** [s.substring(i, j)] and [s.substring(i)] for in-range naturals. *)
Definition substring (s : jsstring) (i j : nat) : jsstring :=
  take (Nat.max i j - Nat.min i j)%nat (drop (Nat.min i j) s).
Definition substring_from (s : jsstring) (i : nat) : jsstring := drop i s.

(** White space and line terminators: the class [\s] of regular expressions
    and the characters [trim] strips. *)
Definition is_space (c : N) : bool :=
  ((9 <=? c) && (c <=? 13) || (c =? 32) || (c =? 160) || (c =? 5760)
   || (8192 <=? c) && (c <=? 8202) || (c =? 8232) || (c =? 8233)
   || (c =? 8239) || (c =? 8287) || (c =? 12288) || (c =? 65279))%N.

Fixpoint trim_start (s : jsstring) : jsstring :=
  match s with
  | c :: s' => if is_space c then trim_start s' else s
  | [] => []
  end.

Definition trim (s : jsstring) : jsstring :=
  reverse (trim_start (reverse (trim_start s))).

(** [s.startsWith(p)] and [s.endsWith(p)]. *)
Fixpoint starts_with (p s : jsstring) : bool :=
  match p, s with
  | [], _ => true
  | c :: p', d :: s' => (c =? d)%N && starts_with p' s'
  | _ :: _, [] => false
  end.

Definition ends_with (p s : jsstring) : bool :=
  starts_with (reverse p) (reverse s).

(** [a[i] = v]: behind the end the array grows, and the holes left read as
    empty strings when the array is joined. *)
Definition array_set (a : list jsstring) (i : nat) (v : jsstring)
  : list jsstring :=
  if (i <? length a)%nat then <[i:=v]> a
  else a ++ replicate (i - length a) [] ++ [v].

(** *** Facts *)

Lemma split_nonempty sep s : split sep s ≠ [].
Proof.
  destruct s as [|c s]; simpl; [done|].
  destruct (N.eqb c sep); [done|]. by destruct (split sep s).
Qed.

Lemma split_length_pos sep s : (1 <= length (split sep s))%nat.
Proof.
  pose proof (split_nonempty sep s). destruct (split sep s); simpl; [done|lia].
Qed.

Lemma join_cons sep x y ys : join sep (x :: y :: ys) = x ++ sep ++ join sep (y :: ys).
Proof. reflexivity. Qed.

(** Joining the pieces of a split gives the string back. *)
Lemma join_split sep s : join [sep] (split sep s) = s.
Proof.
  induction s as [|c s IH]; [done|].
  pose proof (split_nonempty sep s) as Hne.
  cbn [split]. destruct (N.eqb c sep) eqn:E.
  - apply N.eqb_eq in E. subst c.
    destruct (split sep s) as [|w ws]; [done|].
    rewrite join_cons, IH. done.
  - destruct (split sep s) as [|w ws]; [done|].
    destruct ws as [|w' ws].
    + simpl in *. by rewrite IH.
    + rewrite join_cons in *. simpl. by rewrite <- IH.
Qed.

(** No piece of a split holds the separator. *)
Lemma split_no_sep sep s : Forall (λ w, sep ∉ w) (split sep s).
Proof.
  induction s as [|c s IH]; simpl.
  - repeat constructor. by intros ?%elem_of_nil.
  - destruct (N.eqb c sep) eqn:E.
    + constructor; [by intros ?%elem_of_nil | done].
    + apply N.eqb_neq in E.
      pose proof (split_nonempty sep s) as Hne.
      destruct (split sep s) as [|w ws]; [done|].
      inversion IH as [|? ? Hw Hws]; subst.
      constructor; [|done].
      intros [Hc|Hc]%elem_of_cons; [by subst|by apply Hw].
Qed.

(** A string without the separator is a single piece. *)
Lemma split_none sep s : sep ∉ s → split sep s = [s].
Proof.
  induction s as [|c s IH]; intros Hn; simpl; [done|].
  destruct (N.eqb c sep) eqn:E.
  - apply N.eqb_eq in E. subst. exfalso. apply Hn. by left.
  - rewrite IH; [done|]. intros ?. apply Hn. by right.
Qed.

Lemma split_app_sep sep w s :
  sep ∉ w → split sep (w ++ sep :: s) = w :: split sep s.
Proof.
  induction w as [|c w IH]; intros Hn; simpl.
  - by rewrite N.eqb_refl.
  - destruct (N.eqb c sep) eqn:E.
    + apply N.eqb_eq in E. subst. exfalso. apply Hn. by left.
    + rewrite IH; [done|]. intros ?. apply Hn. by right.
Qed.

(** Splitting a join of separator-free pieces gives the pieces back. *)
Lemma split_join sep ws :
  ws ≠ [] → Forall (λ w, sep ∉ w) ws → split sep (join [sep] ws) = ws.
Proof.
  induction ws as [|w ws IH]; intros Hne Hall; [done|].
  inversion Hall as [|? ? Hw Hws]; subst.
  destruct ws as [|w' ws].
  - simpl. by apply split_none.
  - rewrite join_cons. simpl app.
    rewrite split_app_sep by done. f_equal. by apply IH.
Qed.

Lemma splice_length_zero {A} (a : list A) (start : Z) (items : list A) :
  length (splice a start 0 items) = (length a + length items)%nat.
Proof.
  unfold splice. rewrite !length_app, length_take, length_drop.
  destruct (start <? 0) eqn:E; lia.
Qed.

(** Splicing at or behind the end of the array removes nothing. *)
Lemma splice_beyond {A} (a : list A) (start d : Z) :
  Z.of_nat (length a) <= start → splice a start d [] = a.
Proof.
  intros H. unfold splice.
  destruct (start <? 0) eqn:E; [lia|].
  replace (Z.min start (Z.of_nat (length a))) with (Z.of_nat (length a)) by lia.
  replace (Z.min (Z.max d 0) (Z.of_nat (length a) - Z.of_nat (length a)))
    with 0 by lia.
  rewrite Z.add_0_r, Nat2Z.id, take_ge, drop_ge by lia. by rewrite app_nil_r.
Qed.

(** Removing one element at an index of the array. *)
Lemma splice_delete_one {A} (a : list A) (i : nat) :
  (i < length a)%nat → splice a (Z.of_nat i) 1 [] = delete i a.
Proof.
  intros H. unfold splice.
  destruct (Z.of_nat i <? 0) eqn:E; [lia|].
  replace (Z.min (Z.of_nat i) (Z.of_nat (length a))) with (Z.of_nat i) by lia.
  replace (Z.min (Z.max 1 0) (Z.of_nat (length a) - Z.of_nat i)) with 1 by lia.
  rewrite Nat2Z.id. replace (Z.to_nat (Z.of_nat i + 1)) with (S i) by lia.
  simpl. by rewrite delete_take_drop.
Qed.

(** Splitting at a separator splits the two sides. *)
Lemma split_app_sep_any sep w s :
  split sep (w ++ sep :: s) = split sep w ++ split sep s.
Proof.
  induction w as [|c w IH]; simpl.
  - by rewrite N.eqb_refl.
  - destruct (N.eqb c sep); [by rewrite IH|].
    rewrite IH. pose proof (split_nonempty sep w).
    by destruct (split sep w).
Qed.

(** Joining and splitting again loses no line. *)
Lemma length_split_join sep (ls : list jsstring) :
  (length ls <= length (split sep (join [sep] ls)))%nat.
Proof.
  induction ls as [|x ls IH]; [simpl; lia|].
  destruct ls as [|y ls].
  - simpl. pose proof (split_length_pos sep x). lia.
  - rewrite join_cons. simpl app. 
    rewrite split_app_sep_any, length_app.
    pose proof (split_length_pos sep x). simpl length in *. lia.
Qed.

Lemma length_array_set a i v :
  length (array_set a i v) = Nat.max (length a) (i + 1).
Proof.
  unfold array_set. destruct (i <? length a)%nat eqn:E.
  - apply Nat.ltb_lt in E. rewrite length_insert. lia.
  - apply Nat.ltb_ge in E. rewrite !length_app, length_replicate. simpl. lia.
Qed.

Lemma length_splice_one {A} (a : list A) (i : nat) :
  (i < length a)%nat → length (splice a (Z.of_nat i) 1 []) = (length a - 1)%nat.
Proof.
  intros H. rewrite splice_delete_one by done.
  rewrite length_delete; [done|]. by apply lookup_lt_is_Some_2.
Qed.

(** *** Stable sorting *)

Section Sorting.
Context {A : Type} (key : A → Z).

Definition by_key (x y : A) : Z := key x - key y.
Definition key_le (x y : A) : Prop := key x <= key y.

Lemma sort_insert_perm x a : sort_insert by_key x a ≡ₚ x :: a.
Proof.
  induction a as [|y a IH]; simpl; [done|].
  destruct (by_key x y <=? 0); [done|].
  rewrite IH. apply Permutation_swap.
Qed.

Lemma sort_perm a : sort by_key a ≡ₚ a.
Proof.
  induction a as [|x a IH]; simpl; [done|].
  fold (sort by_key a). by rewrite sort_insert_perm, IH.
Qed.

Lemma sort_insert_sorted x a :
  StronglySorted key_le a → StronglySorted key_le (sort_insert by_key x a).
Proof.
  induction 1 as [|y a Hs IH Hall]; simpl.
  - repeat constructor.
  - destruct (by_key x y <=? 0) eqn:E.
    + apply Z.leb_le in E. unfold by_key in E.
      constructor; [by constructor|].
      constructor; [unfold key_le; lia|].
      eapply Forall_impl; [exact Hall|]. unfold key_le. intros; lia.
    + apply Z.leb_gt in E. unfold by_key in E.
      constructor; [done|].
      rewrite sort_insert_perm. constructor; [unfold key_le; lia|done].
Qed.

(** The result of a sort is in nondecreasing order of the key. *)
Lemma sort_sorted a : StronglySorted key_le (sort by_key a).
Proof.
  induction a as [|x a IH]; simpl; [constructor|].
  by apply sort_insert_sorted.
Qed.

Lemma sort_insert_below x a :
  Forall (λ y, key x <= key y) a → sort_insert by_key x a = x :: a.
Proof.
  destruct 1 as [|y a Hy _]; simpl; [done|].
  unfold by_key. destruct (key x - key y <=? 0) eqn:E; [done|].
  apply Z.leb_gt in E. lia.
Qed.

(** Sorting a sorted array changes nothing. *)
Lemma sort_id a : StronglySorted key_le a → sort by_key a = a.
Proof.
  induction 1 as [|x a Hs IH Hall]; simpl; [done|].
  fold (sort by_key a). rewrite IH. by apply sort_insert_below.
Qed.

(** A stable sort commutes with the selection of the elements whose key
    reaches a bound. *)
Lemma sort_insert_filter (b : Z) x a :
  StronglySorted key_le a → b <= key x →
  filter (λ y, b <= key y) (sort_insert by_key x a)
  = sort_insert by_key x (filter (λ y, b <= key y) a).
Proof.
  intros Hs Hx. induction Hs as [|y a Hs IH Hall]; simpl.
  - by rewrite filter_cons_True.
  - destruct (by_key x y <=? 0) eqn:E.
    + rewrite filter_cons_True by done.
      symmetry. apply sort_insert_below.
      apply Z.leb_le in E. unfold by_key in E.
      apply Forall_forall. intros z Hz.
      apply list_elem_of_filter in Hz as [_ Hz].
      apply elem_of_cons in Hz as [->|Hz]; [lia|].
      rewrite Forall_forall in Hall. specialize (Hall z Hz).
      unfold key_le in Hall. lia.
    + rewrite !(filter_cons _ y). destruct (decide (b <= key y)).
      * simpl. rewrite E. by rewrite IH.
      * apply IH.
Qed.

Lemma sort_filter (b : Z) a :
  filter (λ y, b <= key y) (sort by_key a)
  = sort by_key (filter (λ y, b <= key y) a).
Proof.
  induction a as [|x a IH]; simpl; [done|].
  fold (sort by_key a). rewrite (filter_cons _ x).
  destruct (decide (b <= key x)) as [Hx|Hx].
  - simpl. fold (sort by_key (filter (λ y, b <= key y) a)).
    rewrite <- IH. apply sort_insert_filter; [apply sort_sorted|done].
  - rewrite <- IH. clear IH.
    pose proof (sort_sorted a) as Hs.
    induction Hs as [|y s Hs IH Hall]; simpl.
    + by rewrite filter_cons_False.
    + destruct (by_key x y <=? 0) eqn:E.
      * by rewrite (filter_cons_False _ x).
      * rewrite !(filter_cons _ y). by rewrite IH.
Qed.

(** In a sorted array the elements below a bound come first. *)
Lemma sorted_split_bound (b : Z) a :
  StronglySorted key_le a →
  a = filter (λ y, ¬ b <= key y) a ++ filter (λ y, b <= key y) a.
Proof.
  induction 1 as [|x a Hs IH Hall]; [done|].
  rewrite !(filter_cons _ x).
  destruct (decide (b <= key x)) as [Hx|Hx].
  - rewrite decide_False by tauto.
    assert (Hnone : filter (λ y, ¬ b <= key y) a = []).
    { clear IH Hs. induction Hall as [|y a Hy _ IHa]; [done|].
      rewrite filter_cons_False; [done|]. unfold key_le in Hy. intros Hn. lia. }
    rewrite Hnone in *. simpl in *. by rewrite <- IH.
  - rewrite decide_True by done. simpl. by rewrite <- IH.
Qed.

End Sorting.

(** *** Numbers that may be NaN, and sorting by them *)

(** A number as the sources use it for a time: an integer number of
    milliseconds, or [NaN], the time value of a date that does not parse. *)
Inductive jsnumber := Num (z : Z) | NaN.

#[global] Instance jsnumber_eq_dec : EqDecision jsnumber.
Proof. solve_decision. Defined.

(** [a - b]: [NaN] when either is. *)
Definition minus (a b : jsnumber) : jsnumber :=
  match a, b with
  | Num x, Num y => Num (x - y)
  | _, _ => NaN
  end.

Definition is_number (a : jsnumber) : bool :=
  match a with Num _ => true | NaN => false end.

(** [a <= b], which is false when either is [NaN]. *)
Definition num_le (a b : jsnumber) : Prop :=
  match a, b with
  | Num x, Num y => x <= y
  | _, _ => False
  end.

Section SortNumber.
Context {A : Type} `{EqDecision A}.

(** What the implementation makes of an array that it is asked to sort with
    a comparator that is not consistent on it. *)
Variable engine : list A → list A.

(** The comparator gives a number for every two elements of the array. *)
Definition answers (cmp : A → A → jsnumber) (a : list A) : bool :=
  forallb (λ x, forallb (λ y, is_number (cmp x y)) a) a.

(** [a.sort(cmp)] for a comparator whose result may be [NaN].  The sources
    sort by the difference of a time of the elements; such a comparator is
    consistent on an array for which no result is [NaN], and the array is
    then sorted as by [sort].  With a [NaN] among the results the language
    leaves the order to the implementation: the result is the rearrangement
    of the array that [engine] gives. *)
Definition sort_number (cmp : A → A → jsnumber) (a : list A) : list A :=
  if answers cmp a
  then sort (λ x y, match cmp x y with Num z => z | NaN => 0 end) a
  else if bool_decide (engine a ≡ₚ a) then engine a else a.

Lemma sort_insert_permutes (cmp : A → A → Z) x a :
  sort_insert cmp x a ≡ₚ x :: a.
Proof.
  induction a as [|y a IH]; simpl; [done|].
  destruct (cmp x y <=? 0); [done|].
  rewrite IH. apply Permutation_swap.
Qed.

Lemma sort_permutes (cmp : A → A → Z) a : sort cmp a ≡ₚ a.
Proof.
  induction a as [|x a IH]; simpl; [done|].
  fold (sort cmp a). by rewrite sort_insert_permutes, IH.
Qed.

Lemma sort_number_perm cmp a : sort_number cmp a ≡ₚ a.
Proof.
  unfold sort_number. destruct (answers cmp a); [apply sort_permutes|].
  destruct (bool_decide (engine a ≡ₚ a)) eqn:E; [|done].
  by apply bool_decide_eq_true in E.
Qed.

Lemma sort_insert_agree (c1 c2 : A → A → Z) x a :
  (∀ y, y ∈ a → c1 x y = c2 x y) →
  sort_insert c1 x a = sort_insert c2 x a.
Proof.
  induction a as [|y a IH]; intros Heq; [done|].
  cbn [sort_insert]. rewrite (Heq y) by (by left).
  destruct (c2 x y <=? 0); [done|].
  f_equal. apply IH. intros z Hz. apply Heq. by right.
Qed.

Lemma sort_agree (c1 c2 : A → A → Z) a :
  (∀ x y, x ∈ a → y ∈ a → c1 x y = c2 x y) → sort c1 a = sort c2 a.
Proof.
  induction a as [|x a IH]; intros Heq; [done|].
  cbn [sort foldr]. fold (sort c1 a) (sort c2 a).
  rewrite IH by (intros y z Hy Hz; apply Heq; by right).
  apply sort_insert_agree. intros y Hy. rewrite sort_permutes in Hy.
  apply Heq; [by left|by right].
Qed.

(** Where the comparator gives numbers, [sort_number] is [sort]. *)
Lemma sort_number_numbers cmp (g : A → A → Z) a :
  (∀ x y, x ∈ a → y ∈ a → cmp x y = Num (g x y)) →
  sort_number cmp a = sort g a.
Proof.
  intros Hg. unfold sort_number.
  assert (Hans : answers cmp a = true).
  { unfold answers. apply forallb_forall. intros x Hx%list_elem_of_In.
    apply forallb_forall. intros y Hy%list_elem_of_In. by rewrite Hg. }
  rewrite Hans. apply sort_agree. intros x y Hx Hy. by rewrite Hg.
Qed.

(** The number, where there is one. *)
Definition value (a : jsnumber) : Z :=
  match a with Num z => z | NaN => 0 end.

Lemma sorted_by_value (key : A → jsnumber) (a : list A) :
  Forall (λ x, key x ≠ NaN) a →
  StronglySorted (key_le (λ x, value (key x))) a →
  StronglySorted (λ x y, num_le (key x) (key y)) a.
Proof.
  intros Hn Hs. induction Hs as [|x a Hs IH Hall]; [constructor|].
  apply Forall_cons in Hn as [Hx Hn]. constructor; [by apply IH|].
  rewrite Forall_forall in Hall, Hn. apply Forall_forall. intros y Hy.
  specialize (Hall y Hy). specialize (Hn y Hy).
  unfold key_le, value in Hall. by destruct (key x), (key y).
Qed.

(** Sorting by the difference of a key that is a number throughout puts
    the array in nondecreasing order of the key. *)
Lemma sort_number_ascending (key : A → jsnumber) (a : list A) :
  Forall (λ x, key x ≠ NaN) a →
  StronglySorted (λ x y, num_le (key x) (key y))
    (sort_number (λ x y, minus (key x) (key y)) a).
Proof.
  intros Hn.
  rewrite (sort_number_numbers _ (by_key (λ x, value (key x)))).
  - apply sorted_by_value; [|apply sort_sorted].
    by rewrite sort_permutes.
  - intros x y Hx Hy. rewrite Forall_forall in Hn.
    pose proof (Hn x Hx). pose proof (Hn y Hy).
    unfold by_key, value. by destruct (key x), (key y).
Qed.

(** With the difference taken the other way round the order is
    nonincreasing. *)
Lemma sort_number_descending (key : A → jsnumber) (a : list A) :
  Forall (λ x, key x ≠ NaN) a →
  StronglySorted (λ x y, num_le (key y) (key x))
    (sort_number (λ x y, minus (key y) (key x)) a).
Proof.
  intros Hn.
  rewrite (sort_number_numbers _ (by_key (λ x, - value (key x)))).
  - assert (Hs : StronglySorted (key_le (λ x, - value (key x)))
                   (sort (by_key (λ x, - value (key x))) a))
      by apply sort_sorted.
    assert (Hn' : Forall (λ x, key x ≠ NaN)
                    (sort (by_key (λ x, - value (key x))) a))
      by (by rewrite sort_permutes).
    induction Hs as [|x l Hs IH Hall]; [constructor|].
    apply Forall_cons in Hn' as [Hx Hn']. constructor; [by apply IH|].
    rewrite Forall_forall in Hall, Hn'. apply Forall_forall. intros y Hy.
    specialize (Hall y Hy). specialize (Hn' y Hy).
    unfold key_le, value in Hall. destruct (key x), (key y); try done.
    cbn. lia.
  - intros x y Hx Hy. rewrite Forall_forall in Hn.
    pose proof (Hn x Hx). pose proof (Hn y Hy).
    unfold by_key, value. destruct (key x), (key y); try done.
    cbn. f_equal. lia.
Qed.

End SortNumber.

End JS.

(** ** Applying edits to a TextEdit document (chats/utils/textEditUtils.ts) *)

Module TextEdit.
Import JS.

(** [TextEditOperation] of markupUtils.ts.  Line numbers and counts are the
    integers [parseInt] yields; [count] and [content] are optional.  The
    edits of a call are objects of their own (the parser builds one for each
    tag), so that writing the line of one entry leaves the others alone. *)
Inductive EditType := TInsert | TReplace | TDelete.

Record TextEditOperation := mkEdit {
  type : EditType;
  line : Z;
  count : option Z;
  content : option jsstring
}.

Definition set_line (e : TextEditOperation) (l : Z) : TextEditOperation :=
  mkEdit (type e) l (count e) (content e).

(** [edit.count || 1]: a missing count and the count 0 both give 1. *)
Definition count_or_1 (e : TextEditOperation) : Z :=
  match count e with
  | Some c => if c =? 0 then 1 else c
  | None => 1
  end.

Definition is_insert (e : TextEditOperation) : bool :=
  match type e with TInsert => true | _ => false end.

(** The validation at the head of the loop body: [true] when the edit is
    skipped by [continue]. *)
Definition invalid_line (lines : list jsstring) (edit : TextEditOperation) : bool :=
  let lineIndex := line edit - 1 in
  let len := Z.of_nat (length lines) in
  match type edit with
  | TInsert => (lineIndex <? 0) || (len <? lineIndex)
  | TReplace | TDelete => (lineIndex <? 0) || (len <=? lineIndex)
  end.

(** The [switch] of the loop body: the array after the edit, and
    [lineCountChange]. *)
Definition apply_edit (lines : list jsstring) (edit : TextEditOperation)
  : list jsstring * Z :=
  let lineIndex := line edit - 1 in
  let len := Z.of_nat (length lines) in
  match type edit with
  | TInsert =>
      match content edit with
      | Some c =>
          let newLines := split nl c in
          let lineIndex := if len <? lineIndex then len else lineIndex in
          (splice lines lineIndex 0 newLines, Z.of_nat (length newLines))
      | None => (lines, 0)
      end
  | TReplace =>
      match content edit with
      | Some c =>
          let cnt := Z.min (count_or_1 edit) (len - lineIndex) in
          let newLines := split nl c in
          let lineIndex :=
            if len <=? lineIndex then Z.max 0 (len - 1) else lineIndex in
          (splice lines lineIndex cnt newLines,
           Z.of_nat (length newLines) - cnt)
      | None => (lines, 0)
      end
  | TDelete =>
      let cnt := Z.min (count_or_1 edit) (len - lineIndex) in
      (splice lines lineIndex cnt [], - cnt)
  end.

(** The inner loop: the line number of a later edit [ej] after [edit]
    changed the number of lines by [lineCountChange]; [len] is the number of
    lines after the edit. *)
Definition adjust_edit (edit : TextEditOperation) (lineCountChange : Z)
    (len : Z) (ej : TextEditOperation) : TextEditOperation :=
  let adjustmentThreshold :=
    match type edit with
    | TReplace | TDelete => line edit + count_or_1 edit - 1
    | TInsert => line edit
    end in
  if adjustmentThreshold <? line ej then
    let l := line ej + lineCountChange in
    if l <=? 0 then set_line ej 1
    else if negb (is_insert ej) && (len <? l) then set_line ej (Z.max 1 len)
    else set_line ej l
  else ej.

(** The adjustment of the edits that follow, when the line count changed. *)
Definition adjust_rest (edit : TextEditOperation) (lineCountChange : Z)
    (lines' : list jsstring) (rest : list TextEditOperation)
  : list TextEditOperation :=
  if lineCountChange =? 0 then rest
  else adjust_edit edit lineCountChange (Z.of_nat (length lines')) <$> rest.

(** The outer loop over the sorted copy of the edits, [n] iterations of it:
    the loop runs once for each entry of [editsCopy]. *)
Fixpoint process_edits_loop (n : nat) (lines : list jsstring)
    (editsCopy : list TextEditOperation) : list jsstring :=
  match n, editsCopy with
  | S n', edit :: rest =>
      if invalid_line lines edit then process_edits_loop n' lines rest
      else
        let '(lines', lineCountChange) := apply_edit lines edit in
        process_edits_loop n' lines' (adjust_rest edit lineCountChange lines' rest)
  | _, _ => lines
  end.

Definition process_edits (lines : list jsstring)
    (editsCopy : list TextEditOperation) : list jsstring :=
  process_edits_loop (length editsCopy) lines editsCopy.

Definition applyTextEditChanges (content : jsstring)
    (edits : list TextEditOperation) : jsstring :=
  match edits with
  | [] => content
  | _ :: _ =>
      let lines := split nl content in
      let editsCopy := sort (by_key line) edits in
      join [nl] (process_edits lines editsCopy)
  end.

(** The specification's description of an edit that is out of range for a
    document of [lines]. *)
Definition out_of_range (lines : list jsstring) (edit : TextEditOperation) : Prop :=
  match type edit with
  | TInsert => line edit < 1 ∨ Z.of_nat (length lines) + 1 < line edit
  | TReplace | TDelete => line edit < 1 ∨ Z.of_nat (length lines) < line edit
  end.

Lemma invalid_line_spec lines edit :
  invalid_line lines edit = true ↔ out_of_range lines edit.
Proof.
  unfold invalid_line, out_of_range.
  destruct (type edit); rewrite orb_true_iff, ?Z.ltb_lt, ?Z.leb_le; lia.
Qed.

Lemma adjust_rest_length edit change lines' rest :
  length (adjust_rest edit change lines' rest) = length rest.
Proof. unfold adjust_rest. destruct (change =? 0); by rewrite ?length_fmap. Qed.

(** The loop body, as the equations of [process_edits]. *)
Lemma process_edits_nil lines : process_edits lines [] = lines.
Proof. reflexivity. Qed.

Lemma process_edits_cons lines edit rest :
  process_edits lines (edit :: rest)
  = if invalid_line lines edit then process_edits lines rest
    else process_edits (apply_edit lines edit).1
           (adjust_rest edit (apply_edit lines edit).2
              (apply_edit lines edit).1 rest).
Proof.
  unfold process_edits. cbn [length process_edits_loop].
  destruct (invalid_line lines edit); [done|].
  destruct (apply_edit lines edit) as [lines' change]. simpl.
  by rewrite adjust_rest_length.
Qed.

Lemma process_edits_skip lines edit rest :
  out_of_range lines edit →
  process_edits lines (edit :: rest) = process_edits lines rest.
Proof. intros H%invalid_line_spec. by rewrite process_edits_cons, H. Qed.

Lemma below_one_out_of_range lines edit : line edit < 1 → out_of_range lines edit.
Proof. unfold out_of_range. destruct (type edit); auto. Qed.

Lemma process_edits_skip_all lines skipped rest :
  Forall (λ e, line e < 1) skipped →
  process_edits lines (skipped ++ rest) = process_edits lines rest.
Proof.
  induction 1 as [|e skipped He _ IH]; [done|].
  simpl app. rewrite process_edits_skip; [done|].
  by apply below_one_out_of_range.
Qed.

(** Edits whose line number is below 1 take no part in the result. *)
Lemma process_sorted_filter lines edits :
  process_edits lines (sort (by_key line) edits)
  = process_edits lines (sort (by_key line) (filter (λ e, 1 <= line e) edits)).
Proof.
  rewrite <- sort_filter.
  rewrite (sorted_split_bound line 1 (sort (by_key line) edits)) at 1
    by apply sort_sorted.
  apply process_edits_skip_all.
  apply Forall_forall. intros e [He _]%list_elem_of_filter. lia.
Qed.

Lemma applyTextEditChanges_filter content edits :
  applyTextEditChanges content edits
  = join [nl] (process_edits (split nl content)
      (sort (by_key line) (filter (λ e, 1 <= line e) edits))).
Proof.
  destruct edits as [|e edits].
  - rewrite filter_nil. cbn [applyTextEditChanges sort foldr].
    by rewrite process_edits_nil, join_split.
  - unfold applyTextEditChanges. by rewrite process_sorted_filter.
Qed.

Definition doc3 : jsstring := js "alpha" ++ [nl] ++ js "beta" ++ [nl] ++ js "gamma".
Definition ins9 : TextEditOperation := mkEdit TInsert 9 None (Some (js "x")).
Definition del0 : TextEditOperation := mkEdit TDelete 0 (Some 1) None.
Definition rep2 : TextEditOperation := mkEdit TReplace 2 None (Some (js "BETA")).

(** *** Edits in range *)

Lemma splice_at_length {A} (a b : list A) (d : Z) (items : list A) :
  splice (a ++ b) (Z.of_nat (length a)) d items
  = a ++ items ++ drop (Z.to_nat (Z.min d (Z.of_nat (length b)))) b.
Proof.
  unfold splice. cbv zeta. rewrite length_app.
  replace (Z.of_nat (length a) <? 0) with false by (symmetry; apply Z.ltb_ge; lia).
  replace (Z.min (Z.of_nat (length a)) (Z.of_nat (length a + length b)))
    with (Z.of_nat (length a)) by lia.
  rewrite Nat2Z.id, take_app_length.
  replace (Z.to_nat (Z.of_nat (length a)
             + Z.min (Z.max d 0)
                 (Z.of_nat (length a + length b) - Z.of_nat (length a))))
    with (length a + Z.to_nat (Z.min d (Z.of_nat (length b))))%nat by lia.
  by rewrite drop_app_add.
Qed.

(** A lone edit that is in range. *)
Lemma process_single lines edit :
  invalid_line lines edit = false →
  process_edits lines [edit] = (apply_edit lines edit).1.
Proof.
  intros Hv. rewrite process_edits_cons, Hv.
  unfold adjust_rest. destruct (_ =? 0); by rewrite ?fmap_nil, process_edits_nil.
Qed.

Definition insert_at (k : Z) (text : jsstring) : TextEditOperation :=
  mkEdit TInsert k None (Some text).
Definition delete_at (k : Z) (count : option Z) : TextEditOperation :=
  mkEdit TDelete k count None.

Lemma apply_insert (before after : list jsstring) (text : jsstring) :
  let edit := insert_at (Z.of_nat (length before) + 1) text in
  invalid_line (before ++ after) edit = false ∧
  apply_edit (before ++ after) edit
  = (before ++ split nl text ++ after, Z.of_nat (length (split nl text))).
Proof.
  cbv zeta. unfold invalid_line, apply_edit, insert_at.
  cbn [type line content]. rewrite length_app.
  replace (Z.of_nat (length before) + 1 - 1) with (Z.of_nat (length before)) by lia.
  replace (Z.of_nat (length before) <? 0) with false by (symmetry; apply Z.ltb_ge; lia).
  replace (Z.of_nat (length before + length after) <? Z.of_nat (length before))
    with false by (symmetry; apply Z.ltb_ge; lia).
  split; [done|]. rewrite splice_at_length.
  replace (Z.to_nat (Z.min 0 (Z.of_nat (length after)))) with 0%nat by lia.
  by rewrite drop_0.
Qed.

Lemma apply_delete (before gone after : list jsstring) (count : option Z) :
  let edit := delete_at (Z.of_nat (length before) + 1) count in
  gone ≠ [] →
  Z.min (count_or_1 edit) (Z.of_nat (length (gone ++ after)))
  = Z.of_nat (length gone) →
  invalid_line (before ++ gone ++ after) edit = false ∧
  apply_edit (before ++ gone ++ after) edit
  = (before ++ after, - Z.of_nat (length gone)).
Proof.
  cbv zeta. intros Hne Hcount. unfold invalid_line, apply_edit.
  set (c := count_or_1 _) in *. cbn [type line delete_at].
  rewrite length_app.
  replace (Z.of_nat (length before) + 1 - 1) with (Z.of_nat (length before)) by lia.
  replace (Z.of_nat (length before) <? 0) with false by (symmetry; apply Z.ltb_ge; lia).
  assert (length (gone ++ after) ≠ 0)%nat
    by (destruct gone; [done|simpl; lia]).
  replace (Z.of_nat (length before + length (gone ++ after))
           <=? Z.of_nat (length before))
    with false by (symmetry; apply Z.leb_gt; lia).
  split; [done|].
  replace (Z.of_nat (length before + length (gone ++ after))
           - Z.of_nat (length before))
    with (Z.of_nat (length (gone ++ after))) by lia.
  rewrite Hcount, splice_at_length.
  replace (Z.to_nat (Z.min (Z.of_nat (length gone))
                       (Z.of_nat (length (gone ++ after)))))
    with (length gone) by (rewrite length_app; lia).
  by rewrite drop_app_length.
Qed.


Lemma single_edit content edit :
  applyTextEditChanges content [edit]
  = join [nl] (process_edits (split nl content) [edit]).
Proof. done. Qed.

(** X15. A lone insert in range puts the lines of its text before the line
    it names and moves nothing else: with [before] the lines above that
    line (all the lines, for an insert one past the end) and [after] the
    others, the document becomes [before], the lines of the text, [after]. *)
Theorem insert_puts_text_before_line
    (content text : jsstring) (before after : list jsstring) :
  split nl content = before ++ after →
  applyTextEditChanges content [insert_at (Z.of_nat (length before) + 1) text]
  = join [nl] (before ++ split nl text ++ after).
Proof.
  intros Hlines. rewrite single_edit, Hlines.
  destruct (apply_insert before after text) as [Hv Ha].
  by rewrite process_single, Ha.
Qed.


(** X17. The line numbers of the edits of one call refer to the document
    as it was: an insert at a line and a delete of a later line, listed in
    either order, put the lines of the text before the former and take the
    latter out. *)
Theorem later_edit_keeps_original_line
    (content text : jsstring) (before between after : list jsstring)
    (x : jsstring) (edits : list TextEditOperation) :
  split nl content = before ++ between ++ x :: after →
  between ≠ [] →
  let i := insert_at (Z.of_nat (length before) + 1) text in
  let d := delete_at (Z.of_nat (length before + length between) + 1) None in
  edits = [i; d] ∨ edits = [d; i] →
  applyTextEditChanges content edits
  = join [nl] (before ++ split nl text ++ between ++ after).
Proof.
  intros Hlines Hne i d Hedits.
  assert (Hlen : (0 < length between)%nat) by (destruct between; [done|simpl; lia]).
  assert (Hsort : sort (by_key line) edits = [i; d]).
  { destruct Hedits as [-> | ->]; cbn [sort foldr sort_insert];
      unfold by_key; cbn [line i d insert_at delete_at].
    - replace (_ <=? 0) with true; [done|]. symmetry. apply Z.leb_le. lia.
    - replace (_ <=? 0) with false; [done|]. symmetry. apply Z.leb_gt. lia. }
  assert (Happ : applyTextEditChanges content edits
                 = join [nl] (process_edits (split nl content)
                                (sort (by_key line) edits))).
  { by destruct Hedits as [-> | ->]. }
  rewrite Happ, Hsort, Hlines. f_equal.
  destruct (apply_insert before (between ++ x :: after) text) as [Hv Ha].
  fold i in Hv, Ha.
  rewrite process_edits_cons, Hv, Ha. cbn [fst snd].
  pose proof (split_length_pos nl text) as Hpos.
  set (new := split nl text) in *.
  unfold adjust_rest.
  replace (Z.of_nat (length new) =? 0) with false
    by (symmetry; apply Z.eqb_neq; lia).
  rewrite fmap_cons, fmap_nil.
  assert (Hadj : adjust_edit i (Z.of_nat (length new))
                   (Z.of_nat (length (before ++ new ++ between ++ x :: after))) d
                 = delete_at (Z.of_nat (length (before ++ new ++ between)) + 1) None).
  { unfold adjust_edit. cbn [type line i d insert_at delete_at is_insert negb andb].
    rewrite !length_app. cbn [length]. rewrite ?length_app.
    replace (_ <? _) with true by (symmetry; apply Z.ltb_lt; lia).
    replace (_ <=? 0) with false by (symmetry; apply Z.leb_gt; lia).
    replace (_ <? _) with false by (symmetry; apply Z.ltb_ge; lia).
    unfold set_line, delete_at. cbn. f_equal. lia. }
  rewrite Hadj.
  replace (before ++ new ++ between ++ x :: after)
    with ((before ++ new ++ between) ++ [x] ++ after)
    by (by rewrite <- !app_assoc).
  destruct (apply_delete (before ++ new ++ between) [x] after None) as [Hv2 Ha2];
    [done|cbn; lia|].
  rewrite process_single, Ha2 by done. cbn [fst].
  by rewrite <- !app_assoc.
Qed.

(** X18. For two edits at the same line the order in the list counts.  A
    delete listed after an insert takes out the first of the inserted
    lines, not the line that was there; an insert listed after a delete
    puts its text in the place of the deleted line. *)
Theorem same_line_edits_apply_in_list_order
    (content text : jsstring) (before after : list jsstring) (x : jsstring) :
  split nl content = before ++ x :: after →
  let k := Z.of_nat (length before) + 1 in
  applyTextEditChanges content [insert_at k text; delete_at k None]
  = join [nl] (before ++ tail (split nl text) ++ x :: after)
  ∧ applyTextEditChanges content [delete_at k None; insert_at k text]
    = join [nl] (before ++ split nl text ++ after).
Proof.
  intros Hlines k.
  assert (Hsort1 : sort (by_key line) [insert_at k text; delete_at k None]
                   = [insert_at k text; delete_at k None]).
  { cbn [sort foldr sort_insert]. unfold by_key. cbn [line insert_at delete_at].
    replace (_ <=? 0) with true; [done|]. symmetry. apply Z.leb_le. lia. }
  assert (Hsort2 : sort (by_key line) [delete_at k None; insert_at k text]
                   = [delete_at k None; insert_at k text]).
  { cbn [sort foldr sort_insert]. unfold by_key. cbn [line insert_at delete_at].
    replace (_ <=? 0) with true; [done|]. symmetry. apply Z.leb_le. lia. }
  unfold applyTextEditChanges. rewrite Hsort1, Hsort2, Hlines.
  pose proof (split_length_pos nl text) as Hpos.
  split; f_equal.
  - destruct (apply_insert before (x :: after) text) as [Hv Ha].
    fold k in Hv, Ha. rewrite process_edits_cons, Hv, Ha. cbn [fst snd].
    destruct (split nl text) as [|first more] eqn:Enew; [simpl in Hpos; lia|].
    unfold adjust_rest.
    replace (Z.of_nat (length (first :: more)) =? 0) with false
      by (symmetry; apply Z.eqb_neq; simpl; lia).
    rewrite fmap_cons, fmap_nil.
    assert (Hadj : adjust_edit (insert_at k text)
                     (Z.of_nat (length (first :: more)))
                     (Z.of_nat (length (before ++ (first :: more) ++ x :: after)))
                     (delete_at k None)
                   = delete_at k None).
    { unfold adjust_edit. cbn [type line insert_at delete_at].
      by rewrite Z.ltb_irrefl. }
    rewrite Hadj.
    destruct (apply_delete before [first] (more ++ x :: after) None)
      as [Hv2 Ha2]; [done|cbn; lia|].
    fold k in Hv2, Ha2. cbn [app] in Hv2, Ha2 |- *.
    by rewrite process_single, Ha2.
  - destruct (apply_delete before [x] after None) as [Hv Ha]; [done|cbn; lia|].
    fold k in Hv, Ha. cbn [app] in Hv, Ha.
    rewrite process_edits_cons, Hv, Ha. cbn [fst snd length].
    unfold adjust_rest. cbn [Z.eqb Z.of_nat Z.opp Pos.of_succ_nat].
    rewrite fmap_cons, fmap_nil.
    assert (Hadj : adjust_edit (delete_at k None) (- 1)
                     (Z.of_nat (length (before ++ after))) (insert_at k text)
                   = insert_at k text).
    { unfold adjust_edit, count_or_1.
      cbn [type line count insert_at delete_at].
      replace (k + 1 - 1 <? k) with false; [done|].
      symmetry. apply Z.ltb_ge. lia. }
    change (- Z.of_nat 1) with (-1) in *. rewrite Hadj.
    change (-1 =? 0) with false. cbn iota.
    destruct (apply_insert before after text) as [Hv2 Ha2].
    fold k in Hv2, Ha2. by rewrite process_single, Ha2.
Qed.

Lemma insert_puts_text_before_line_witness :
  applyTextEditChanges doc3 [insert_at 2 (js "x")]
  = js "alpha" ++ [nl] ++ js "x" ++ [nl] ++ js "beta" ++ [nl] ++ js "gamma".
Proof.
  exact (insert_puts_text_before_line doc3 (js "x")
           [js "alpha"] [js "beta"; js "gamma"] eq_refl).
Defined.


Lemma later_edit_keeps_original_line_witness :
  applyTextEditChanges doc3 [delete_at 3 None; insert_at 1 (js "x")]
  = js "x" ++ [nl] ++ js "alpha" ++ [nl] ++ js "beta".
Proof.
  assert (Hne : [js "alpha"; js "beta"] ≠ []) by done.
  exact (later_edit_keeps_original_line doc3 (js "x")
           [] [js "alpha"; js "beta"] [] (js "gamma") _
           eq_refl Hne (or_intror eq_refl)).
Defined.

Lemma same_line_edits_apply_in_list_order_witness :
  applyTextEditChanges doc3 [insert_at 2 (js "x"); delete_at 2 None] = doc3
  ∧ applyTextEditChanges doc3 [delete_at 2 None; insert_at 2 (js "x")]
    = js "alpha" ++ [nl] ++ js "x" ++ [nl] ++ js "gamma".
Proof.
  exact (same_line_edits_apply_in_list_order doc3 (js "x")
           [js "alpha"] [js "gamma"] (js "beta") eq_refl).
Defined.

(** *** Edits out of range *)

(** An insert in range followed by a delete beyond the end: the loop moves
    the line number of the delete onto the last line, and the delete takes
    that line out. *)
Lemma insert_then_delete_beyond
    (before after kept : list jsstring) (text lastLine : jsstring) (j : Z) :
  Z.of_nat (length (before ++ after)) < j →
  Z.of_nat (length before) + 1 < j →
  before ++ split nl text ++ after = kept ++ [lastLine] →
  process_edits (before ++ after)
    [insert_at (Z.of_nat (length before) + 1) text; delete_at j None]
  = kept.
Proof.
  intros Hj Hk Hlast.
  destruct (apply_insert before after text) as [Hv Ha].
  rewrite process_edits_cons, Hv, Ha. cbn [fst snd].
  pose proof (split_length_pos nl text) as Hpos.
  set (new := split nl text) in *.
  unfold adjust_rest.
  replace (Z.of_nat (length new) =? 0) with false
    by (symmetry; apply Z.eqb_neq; lia).
  rewrite fmap_cons, fmap_nil.
  assert (Hlen : length (before ++ new ++ after) = S (length kept)).
  { rewrite Hlast, length_app. simpl. lia. }
  assert (Hadj : adjust_edit (insert_at (Z.of_nat (length before) + 1) text)
                   (Z.of_nat (length new))
                   (Z.of_nat (length (before ++ new ++ after)))
                   (delete_at j None)
                 = delete_at (Z.of_nat (length kept) + 1) None).
  { unfold adjust_edit.
    cbn [type line insert_at delete_at is_insert negb andb].
    rewrite length_app in Hj.
    assert (Hall : length (before ++ new ++ after)
                   = (length before + length new + length after)%nat)
      by (rewrite !length_app; lia).
    replace (Z.of_nat (length before) + 1 <? j) with true
      by (symmetry; apply Z.ltb_lt; lia).
    replace (j + Z.of_nat (length new) <=? 0) with false
      by (symmetry; apply Z.leb_gt; lia).
    replace (Z.of_nat (length (before ++ new ++ after))
             <? j + Z.of_nat (length new)) with true
      by (symmetry; apply Z.ltb_lt; lia).
    unfold set_line, delete_at. cbn. f_equal. lia. }
  rewrite Hadj, Hlast.
  destruct (apply_delete kept [lastLine] [] None) as [Hv2 Ha2];
    [done|cbn; lia|].
  cbn [app] in Hv2, Ha2.
  rewrite process_single, Ha2 by done. cbn [fst]. by rewrite app_nil_r.
Qed.

(** C10, as the code has it.  [applyTextEditChanges] does not fail on an
    edit that is out of range.  An empty list of edits returns the content.
    An edit that is out of range for the lines when the loop reaches it,
    with the line number it has by then (an insert below line 1 or above the
    number of lines plus one, a replace or delete below line 1 or above the
    number of lines), is skipped, and the loop goes on as if it were not in
    the list; a lone out-of-range edit leaves the content as it is, and an
    edit with a line number below 1 can be taken out of any list.  But the
    loop moves the line number of a delete that lies beyond the end, and
    behind the line of an insert in range, onto the last line: that delete
    is not skipped, it takes the last line out. *)
Theorem applyTextEditChanges_skips_out_of_range :
  (∀ content, applyTextEditChanges content [] = content) ∧
  (∀ lines edit rest,
     out_of_range lines edit →
     process_edits lines (edit :: rest) = process_edits lines rest) ∧
  (∀ content edit,
     out_of_range (split nl content) edit →
     applyTextEditChanges content [edit] = content) ∧
  (∀ content before edit after,
     line edit < 1 →
     applyTextEditChanges content (before ++ edit :: after)
     = applyTextEditChanges content (before ++ after)) ∧
  (∀ content text before after kept lastLine j,
     split nl content = before ++ after →
     Z.of_nat (length (before ++ after)) < j →
     Z.of_nat (length before) + 1 < j →
     before ++ split nl text ++ after = kept ++ [lastLine] →
     out_of_range (split nl content) (delete_at j None)
     ∧ applyTextEditChanges content
         [insert_at (Z.of_nat (length before) + 1) text; delete_at j None]
       = join [nl] kept
     ∧ applyTextEditChanges content
         [insert_at (Z.of_nat (length before) + 1) text]
       = join [nl] (kept ++ [lastLine])).
Proof.
  split_and!.
  - done.
  - apply process_edits_skip.
  - intros content edit H. unfold applyTextEditChanges.
    cbn [sort foldr sort_insert]. rewrite process_edits_skip by done.
    rewrite process_edits_nil. apply join_split.
  - intros content before edit after H.
    rewrite !applyTextEditChanges_filter, !filter_app.
    rewrite filter_cons_False by lia. done.
  - intros content text before after kept lastLine j Hlines Hj Hk Hlast.
    split_and!.
    + unfold out_of_range. cbn [type line delete_at]. rewrite Hlines. lia.
    + unfold applyTextEditChanges.
      assert (Hsort : sort (by_key line)
                        [insert_at (Z.of_nat (length before) + 1) text;
                         delete_at j None]
                      = [insert_at (Z.of_nat (length before) + 1) text;
                         delete_at j None]).
      { cbn [sort foldr sort_insert]. unfold by_key.
        cbn [line insert_at delete_at].
        replace (_ <=? 0) with true; [done|]. symmetry. apply Z.leb_le. lia. }
      rewrite Hsort, Hlines.
      by rewrite (insert_then_delete_beyond before after kept text lastLine j).
    + rewrite single_edit, Hlines.
      destruct (apply_insert before after text) as [Hv Ha].
      by rewrite process_single, Ha, Hlast.
Qed.

Lemma applyTextEditChanges_skips_out_of_range_witness :
  process_edits (split nl doc3) [ins9; rep2] = process_edits (split nl doc3) [rep2]
  ∧ applyTextEditChanges doc3 [ins9] = doc3
  ∧ applyTextEditChanges doc3 [rep2; del0]
    = js "alpha" ++ [nl] ++ js "BETA" ++ [nl] ++ js "gamma".
Proof.
  destruct applyTextEditChanges_skips_out_of_range
    as (_ & Hloop & Hone & Hlow & _).
  split_and!.
  - apply Hloop. vm_compute. right. reflexivity.
  - apply Hone. vm_compute. right. reflexivity.
  - etrans; [apply (Hlow doc3 [rep2] del0 []); vm_compute; reflexivity|].
    vm_compute. reflexivity.
Defined.

(** The reading of C10 for every list of edits: an edit that is out of
    range for the document can be taken out of the list. *)
Definition skips_every_out_of_range : Prop :=
  ∀ (content : jsstring) (before : list TextEditOperation)
    (edit : TextEditOperation) (after : list TextEditOperation),
    out_of_range (split nl content) edit →
    applyTextEditChanges content (before ++ edit :: after)
    = applyTextEditChanges content (before ++ after).

(** A delete at line 100 of a document of three lines, listed after an
    insert at line 1, takes the last line out. *)
Lemma delete_beyond_end_is_applied :
  out_of_range (split nl doc3) (delete_at 100 None)
  ∧ applyTextEditChanges doc3 [insert_at 1 (js "x"); delete_at 100 None]
    = js "x" ++ [nl] ++ js "alpha" ++ [nl] ++ js "beta"
  ∧ applyTextEditChanges doc3 [insert_at 1 (js "x")]
    = js "x" ++ [nl] ++ js "alpha" ++ [nl] ++ js "beta" ++ [nl] ++ js "gamma"
  ∧ ¬ skips_every_out_of_range.
Proof.
  assert (Hout : out_of_range (split nl doc3) (delete_at 100 None))
    by (right; vm_compute; reflexivity).
  split_and!; [exact Hout|vm_compute; reflexivity..|].
  intros Hall.
  specialize (Hall doc3 [insert_at 1 (js "x")] (delete_at 100 None) [] Hout).
  vm_compute in Hall. discriminate Hall.
Qed.

End TextEdit.

(** ** The room-message state of the chat hook (useChatCore) *)

Module Chat.
Import JS.

(** A timestamp as it arrives from the server or the pub/sub channel, in
    JSON: an ISO string or a number of milliseconds (an integer here; JSON
    carries no NaN). *)
Inductive RawTimestamp := TsString (s : jsstring) | TsNumber (n : Z).

(** A message as received ([ApiMessage], or the payload of a pub/sub
    event). *)
Record ApiMessage := mkApi {
  api_id : jsstring;
  api_roomId : jsstring;
  api_username : jsstring;
  api_content : jsstring;
  api_timestamp : RawTimestamp;
  api_isPending : bool
}.

(** [ExtendedRoomChatMessage]: an entry of the [roomMessages] state.  The
    timestamp is a number of milliseconds, or NaN when it came from a string
    that is no date; a missing [isPending] is [false]. *)
Record ExtendedRoomChatMessage := mkMsg {
  id : jsstring;
  roomId : jsstring;
  username : jsstring;
  content : jsstring;
  timestamp : jsnumber;
  isPending : bool
}.

#[global] Instance message_eq_dec : EqDecision ExtendedRoomChatMessage.
Proof. solve_decision. Defined.

Abbreviation Messages := (list ExtendedRoomChatMessage).

(** A call of [saveRoomMessagesToCache(roomId, messages)]. *)
Definition CacheWrite : Type := jsstring * Messages.

(** What a handler does besides returning. *)
Inductive Effect :=
| SetRoomMessages (u : Messages → Messages * list CacheWrite)
| SetIsSendingRoomMessage (b : bool)
| Fetch (url : jsstring) (roomId username content : jsstring)
| ConsoleError (label : jsstring)
| AppendAiMessage (content : jsstring)
| ClearInput.

Section Hook.

(** [new Date(s).getTime()] for a string: the time value of the date, or
    NaN when the string is no date. *)
Variable Date_getTime : jsstring → jsnumber.

(** What the implementation's [sort] makes of a list of messages that has
    a NaN among its timestamps (see [sort_number]). *)
Variable engine_sort : list ExtendedRoomChatMessage → list ExtendedRoomChatMessage.

(** [generateId()] and [Date.now()] are read from the environment. *)

(** In nondecreasing order of the timestamps; a NaN is in order with
    nothing. *)
Definition sorted (ms : Messages) : Prop :=
  StronglySorted (λ a b, num_le (timestamp a) (timestamp b)) ms.

(** [ms.sort((a, b) => a.timestamp - b.timestamp)]. *)
Definition sort_by_timestamp (ms : Messages) : Messages :=
  sort_number engine_sort (λ a b, minus (timestamp a) (timestamp b)) ms.

(** [typeof t === 'string' ? new Date(t).getTime() : t]. *)
Definition number_of_timestamp (t : RawTimestamp) : jsnumber :=
  match t with
  | TsString s => Date_getTime s
  | TsNumber n => Num n
  end.

(** [new Date(t).getTime()]: a number is a time value when it is within
    8.64e15 ms of the epoch, and gives NaN beyond. *)
Definition date_time (t : RawTimestamp) : jsnumber :=
  match t with
  | TsString s => Date_getTime s
  | TsNumber n => if Z.abs n <=? 8640000000000000 then Num n else NaN
  end.

(** [{ ...msg, timestamp: ... }]. *)
Definition with_timestamp (m : ApiMessage) (t : jsnumber)
  : ExtendedRoomChatMessage :=
  mkMsg (api_id m) (api_roomId m) (api_username m) (api_content m) t
        (api_isPending m).

Definition not_pending (ms : Messages) : Messages :=
  filter (λ msg, isPending msg = false) ms.

Definition has_id (i : jsstring) (ms : Messages) : bool :=
  existsb (λ msg, id msg =j i) ms.

(** *** Receiving a pub/sub message *)

(** The state updater that [handleRoomMessage] passes to [setRoomMessages];
    [current] is [currentRoomIdRef.current]. *)
Definition merge_room_message (current : option jsstring) (message : ApiMessage)
    (prevMessages : Messages) : Messages * list CacheWrite :=
  let isDuplicate := has_id (api_id message) prevMessages in
  if negb isDuplicate then
    let newMessage :=
      with_timestamp message (number_of_timestamp (api_timestamp message)) in
    let updatedMessages := sort_by_timestamp (prevMessages ++ [newMessage]) in
    (updatedMessages,
     match current with
     | Some r => if truthy r then [(r, not_pending updatedMessages)] else []
     | None => []
     end)
  else (prevMessages, []).

(** [handleRoomMessage(data)]: the event is taken only when a room is
    current and the event is for it. *)
Definition handleRoomMessage (current : option jsstring)
    (data_roomId : jsstring) (data_message : ApiMessage) : list Effect :=
  match current with
  | Some r =>
      if truthy r && (data_roomId =j r)
      then [SetRoomMessages (merge_room_message current data_message)]
      else []
  | None => []
  end.

(** *** Sending a message *)

Record ChatRoom := mkRoom { room_id : jsstring; room_name : jsstring }.

(** The optimistic update of [handleSubmit]. *)
Definition append_pending (newMessage : ExtendedRoomChatMessage)
    (prev : Messages) : Messages * list CacheWrite :=
  (sort_by_timestamp (prev ++ [newMessage]), []).

(** The update on a confirmed send: the pending message is replaced by the
    confirmed one, or removed when the confirmed one has already arrived. *)
Definition confirm_pending (room tempId : jsstring) (message : ApiMessage)
    (prev : Messages) : Messages * list CacheWrite :=
  let confirmedMessage :=
    with_timestamp message (date_time (api_timestamp message)) in
  let updated :=
    (λ msg, if id msg =j tempId then confirmedMessage else msg) <$> prev in
  if negb (existsb (λ msg, (id msg =j id confirmedMessage)
                           && negb (id msg =j tempId)) prev)
  then
    let updated := sort_by_timestamp updated in
    (updated, [(room, not_pending updated)])
  else
    let final :=
      sort_by_timestamp (filter (λ msg, id msg ≠ tempId) prev) in
    (final, [(room, final)]).

(** The update in the [catch] handler. *)
Definition drop_pending (tempId : jsstring) (prev : Messages)
  : Messages * list CacheWrite :=
  (filter (λ msg, id msg ≠ tempId) prev, []).

(** How the request of [handleSubmit] ends: the promise of [fetch] or of
    [response.json()] rejects (or the body has no fields to read), or a body
    arrives with its [message] and [error] fields. *)
Inductive SendOutcome :=
| Rejected
| Responded (message : option ApiMessage) (error : option jsstring).

Definition send_failed (o : SendOutcome) : Prop :=
  match o with
  | Rejected | Responded None _ => True
  | Responded (Some _) _ => False
  end.

(** [handleSubmit], up to the request: [tempId] is the fresh id and [now]
    the time read there. *)
Definition handleSubmit (input : jsstring) (currentRoom : option ChatRoom)
    (username : option jsstring) (tempId : jsstring) (now : Z) : list Effect :=
  let messageContent := trim input in
  if negb (truthy messageContent) then []
  else
    match currentRoom, username with
    | Some room, Some name =>
        if truthy name then
          let newMessage :=
            mkMsg tempId (room_id room) name messageContent (Num now) true in
          [SetRoomMessages (append_pending newMessage);
           SetIsSendingRoomMessage true;
           Fetch (js "/api/chat-rooms?action=sendMessage")
                 (room_id room) name messageContent;
           ClearInput]
        else [AppendAiMessage messageContent; ClearInput]
    | _, _ => [AppendAiMessage messageContent; ClearInput]
    end.

(** The handlers chained on the request: [then], [catch], [finally]. *)
Definition handleSubmit_settled (room tempId : jsstring) (o : SendOutcome)
  : list Effect :=
  match o with
  | Responded (Some message) _ =>
      [SetRoomMessages (confirm_pending room tempId message);
       SetIsSendingRoomMessage false]
  | Rejected | Responded None _ =>
      [ConsoleError (js "Error sending room message:");
       SetRoomMessages (drop_pending tempId);
       SetIsSendingRoomMessage false]
  end.

(** *** Loading the messages of a room *)

(** How the request of [fetchAndSetRoomMessages] ends; [Fetched None] is a
    body without a [messages] field. *)
Inductive LoadOutcome :=
| LoadFailed
| Fetched (messages : option (list ApiMessage)).

(** The default order of [ids.sort()]: by code units. *)
Fixpoint str_compare (a b : jsstring) : Z :=
  match a, b with
  | [], [] => 0
  | [], _ :: _ => -1
  | _ :: _, [] => 1
  | x :: a', y :: b' =>
      if (x <? y)%N then -1 else if (y <? x)%N then 1 else str_compare a' b'
  end.

Definition sorted_ids (ms : Messages) : list jsstring :=
  sort str_compare (id <$> ms).

Definition nonempty {A} (l : list A) : bool :=
  match l with [] => false | _ => true end.

(** [fetchAndSetRoomMessages(roomId)]: the lists passed to
    [setRoomMessages], in order, and the cache writes.  [cachedMessages] is
    what [loadCachedRoomMessages] returned. *)
Definition fetchAndSetRoomMessages (roomId : jsstring)
    (cachedMessages : option Messages) (o : LoadOutcome)
  : list Messages * list CacheWrite :=
  let cached := default [] cachedMessages in
  let finalMessages := if nonempty cached then cached else [] in
  let first := finalMessages in
  match o with
  | Fetched messages =>
      let fetchedMessages :=
        sort_by_timestamp
          ((λ msg, with_timestamp msg (number_of_timestamp (api_timestamp msg)))
             <$> default [] messages) in
      if nonempty fetchedMessages then
        if bool_decide (sorted_ids finalMessages = sorted_ids fetchedMessages)
        then ([first],
              if nonempty finalMessages then [(roomId, finalMessages)] else [])
        else ([first; fetchedMessages], [(roomId, fetchedMessages)])
      else if nonempty finalMessages then ([first; []], [(roomId, [])])
      else ([first], [])
  | LoadFailed =>
      if nonempty cached then ([first; cached], []) else ([first; []], [])
  end.

(** *** Running the effects *)

Definition run_effect (e : Effect) (ms : Messages) : Messages :=
  match e with
  | SetRoomMessages u => (u ms).1
  | _ => ms
  end.

Definition run_effects (es : list Effect) (ms : Messages) : Messages :=
  foldl (λ ms e, run_effect e ms) ms es.

Definition is_fetch (e : Effect) : bool :=
  match e with Fetch _ _ _ _ => true | _ => false end.
Definition is_console_error (e : Effect) : bool :=
  match e with ConsoleError _ => true | _ => false end.

Definition count_effects (p : Effect → bool) (es : list Effect) : nat :=
  length (List.filter p es).

(** *** Properties *)

Lemma has_id_true i ms : has_id i ms = true ↔ ∃ m, m ∈ ms ∧ id m = i.
Proof.
  unfold has_id. rewrite existsb_exists. split.
  - intros (m & Hin & Hm). exists m. split; [by apply list_elem_of_In|].
    unfold jseqb in Hm. by apply bool_decide_eq_true in Hm.
  - intros (m & Hin & Hm). exists m. split; [by apply list_elem_of_In|].
    unfold jseqb. by apply bool_decide_eq_true.
Qed.

Lemma has_id_false i ms : has_id i ms = false ↔ ¬ ∃ m, m ∈ ms ∧ id m = i.
Proof.
  rewrite <- has_id_true.
  destruct (has_id i ms); split; intros H; try done.
Qed.

(** Every timestamp is a number. *)
Definition numeric (ms : Messages) : Prop :=
  Forall (λ m, timestamp m ≠ NaN) ms.

Lemma sort_by_timestamp_perm ms : sort_by_timestamp ms ≡ₚ ms.
Proof. apply sort_number_perm. Qed.


(** Sorting puts a list of numeric timestamps in order. *)
Lemma sort_by_timestamp_sorted ms : numeric ms → sorted (sort_by_timestamp ms).
Proof. apply (sort_number_ascending engine_sort timestamp). Qed.

(** A list of two or more messages that is in order has no NaN. *)
Lemma sorted_numeric ms : sorted ms → (2 <= length ms)%nat → numeric ms.
Proof.
  intros Hs. induction Hs as [|x ms Hs IH Hall]; [constructor|].
  intros Hlen. destruct ms as [|y ms]; [simpl in Hlen; lia|].
  assert (Hrest : numeric (y :: ms)).
  { apply Forall_forall. intros z Hz. rewrite Forall_forall in Hall.
    specialize (Hall z Hz). unfold num_le in Hall.
    by destruct (timestamp x), (timestamp z). }
  constructor; [|done].
  apply Forall_cons in Hall as [Hy _]. unfold num_le in Hy.
  by destruct (timestamp x).
Qed.

Lemma sorted_filter (P : ExtendedRoomChatMessage → Prop)
    `{∀ m, Decision (P m)} ms :
  sorted ms → sorted (filter P ms).
Proof.
  induction 1 as [|m ms Hs IH Hall]; [constructor|].
  rewrite filter_cons. destruct (decide (P m)); [|done].
  constructor; [done|].
  apply Forall_forall. intros m' [_ Hin]%list_elem_of_filter.
  rewrite Forall_forall in Hall. by apply Hall.
Qed.

Lemma numeric_filter (P : ExtendedRoomChatMessage → Prop)
    `{∀ m, Decision (P m)} ms :
  numeric ms → numeric (filter P ms).
Proof.
  unfold numeric. rewrite !Forall_forall.
  intros Hn m [_ Hm]%list_elem_of_filter. by apply Hn.
Qed.

Lemma numeric_snoc ms m : numeric ms → timestamp m ≠ NaN → numeric (ms ++ [m]).
Proof.
  intros Hn Hm. apply Forall_app. split; [done|]. by constructor.
Qed.

Lemma merge_room_message_sorted current message prev :
  sorted prev → numeric prev →
  number_of_timestamp (api_timestamp message) ≠ NaN →
  sorted (merge_room_message current message prev).1.
Proof.
  intros Hs Hn Hm. unfold merge_room_message.
  destruct (has_id (api_id message) prev); simpl; [done|].
  apply sort_by_timestamp_sorted. by apply numeric_snoc.
Qed.

Lemma confirm_pending_sorted room tempId message prev :
  numeric prev → date_time (api_timestamp message) ≠ NaN →
  sorted (confirm_pending room tempId message prev).1.
Proof.
  intros Hn Hm. unfold confirm_pending.
  destruct (negb _); simpl; apply sort_by_timestamp_sorted.
  - unfold numeric. apply Forall_fmap. unfold numeric in Hn.
    eapply Forall_impl; [exact Hn|]. intros m Hnum. cbn.
    by destruct (id m =j tempId).
  - by apply numeric_filter.
Qed.

Lemma fetchAndSetRoomMessages_sets roomId cachedMessages o :
  sorted (default [] cachedMessages) →
  match o with
  | Fetched messages =>
      Forall (λ m, number_of_timestamp (api_timestamp m) ≠ NaN)
        (default [] messages)
  | LoadFailed => True
  end →
  Forall sorted (fetchAndSetRoomMessages roomId cachedMessages o).1.
Proof.
  intros Hcache Hfetched.
  assert (Hnil : sorted []) by constructor.
  unfold fetchAndSetRoomMessages.
  set (cached := default [] cachedMessages) in *.
  assert (Hc : (if nonempty cached then cached else []) = cached)
    by (by destruct cached).
  rewrite !Hc.
  destruct o as [|messages].
  - destruct (nonempty cached); by repeat constructor.
  - assert (Hgot : sorted (sort_by_timestamp
                     ((λ msg, with_timestamp msg
                                (number_of_timestamp (api_timestamp msg)))
                        <$> default [] messages))).
    { apply sort_by_timestamp_sorted. unfold numeric. apply Forall_fmap.
      eapply Forall_impl; [exact Hfetched|]. by intros m Hm. }
    repeat match goal with
    | |- context [nonempty ?l] => destruct (nonempty l)
    | |- context [bool_decide ?P] => destruct (bool_decide P)
    end; by repeat constructor.
Qed.

(** What is written to the cache is sorted as well, so that a cache that
    only these handlers write holds sorted lists. *)
Lemma cache_writes_sorted :
  (∀ current message prev,
     sorted prev → numeric prev →
     number_of_timestamp (api_timestamp message) ≠ NaN →
     Forall (λ w : CacheWrite, sorted w.2)
            (merge_room_message current message prev).2) ∧
  (∀ room tempId message prev,
     numeric prev → date_time (api_timestamp message) ≠ NaN →
     Forall (λ w : CacheWrite, sorted w.2)
            (confirm_pending room tempId message prev).2).
Proof.
  split.
  - intros current message prev Hs Hn Hm.
    pose proof (merge_room_message_sorted current message prev Hs Hn Hm) as H.
    unfold merge_room_message in *.
    destruct (has_id (api_id message) prev); simpl in *; [constructor|].
    destruct current as [r|]; [|constructor].
    destruct (truthy r); repeat constructor. by apply sorted_filter.
  - intros room tempId message prev Hn Hm.
    pose proof (confirm_pending_sorted room tempId message prev Hn Hm) as H.
    unfold confirm_pending in *.
    destruct (negb _); simpl in *; repeat constructor; [|done].
    by apply sorted_filter.
Qed.



(** C9, as the code has it.  The updates of the room-message list keep a
    sorted list of numeric timestamps sorted: a received pub/sub message
    and a confirmed send when the timestamp of the message is a number, the
    optimistic append of a submit, and the removal of the pending message
    after a failed send; and every list that loading the messages of a room
    sets is sorted when the list read from the cache is sorted and the
    timestamps of the fetched messages are numbers.  Loading sets the list
    read from the cache first, as it was stored; and a list that holds a
    NaN timestamp next to another message is not sorted. *)
Theorem roomMessages_sorted_by_timestamp :
  (∀ current roomId message prev,
     sorted prev → numeric prev →
     number_of_timestamp (api_timestamp message) ≠ NaN →
     sorted (run_effects (handleRoomMessage current roomId message) prev)) ∧
  (∀ input currentRoom username tempId now prev,
     sorted prev → numeric prev →
     sorted (run_effects (handleSubmit input currentRoom username tempId now) prev)) ∧
  (∀ room tempId message error prev,
     sorted prev → numeric prev →
     date_time (api_timestamp message) ≠ NaN →
     sorted (run_effects
               (handleSubmit_settled room tempId (Responded (Some message) error))
               prev)) ∧
  (∀ room tempId o prev,
     send_failed o → sorted prev →
     sorted (run_effects (handleSubmit_settled room tempId o) prev)) ∧
  (∀ roomId cachedMessages o,
     sorted (default [] cachedMessages) →
     match o with
     | Fetched messages =>
         Forall (λ m, number_of_timestamp (api_timestamp m) ≠ NaN)
           (default [] messages)
     | LoadFailed => True
     end →
     Forall sorted (fetchAndSetRoomMessages roomId cachedMessages o).1) ∧
  (∀ roomId cachedMessages o,
     head (fetchAndSetRoomMessages roomId cachedMessages o).1
     = Some (default [] cachedMessages)) ∧
  (∀ ms m, m ∈ ms → timestamp m = NaN → (2 <= length ms)%nat → ¬ sorted ms).
Proof.
  split_and!.
  - intros current roomId message prev Hs Hn Hm. unfold handleRoomMessage.
    destruct current as [r|]; [|done].
    destruct (truthy r && (roomId =j r)); [|done].
    by apply merge_room_message_sorted.
  - intros input currentRoom username tempId now prev Hs Hn.
    unfold handleSubmit.
    destruct (negb (truthy (trim input))); [done|].
    destruct currentRoom as [room|], username as [name|]; try done.
    destruct (truthy name); [|done].
    apply sort_by_timestamp_sorted. by apply numeric_snoc.
  - intros room tempId message error prev Hs Hn Hm.
    by apply confirm_pending_sorted.
  - intros room tempId o prev Hfail Hs.
    destruct o as [|[message|] err]; try done; by apply sorted_filter.
  - apply fetchAndSetRoomMessages_sets.
  - intros roomId cachedMessages o. unfold fetchAndSetRoomMessages.
    assert (Hc : (if nonempty (default [] cachedMessages)
                  then default [] cachedMessages else [])
                 = default [] cachedMessages)
      by (by destruct (default [] cachedMessages)).
    rewrite !Hc.
    destruct o as [|messages];
      repeat match goal with
      | |- context [nonempty ?l] => destruct (nonempty l)
      | |- context [bool_decide ?P] => destruct (bool_decide P)
      end; reflexivity.
  - intros ms m Hin Hnan Hlen Hs.
    pose proof (sorted_numeric ms Hs Hlen) as Hn.
    unfold numeric in Hn. rewrite Forall_forall in Hn. by apply (Hn m).
Qed.

(** C6. A failed send is not retried: the submit and its handlers make one
    request in all, the failure is logged once with [console.error], and
    the handlers remove the pending message from whatever the list holds by
    then, adding no message and writing nothing to the cache. *)
Theorem failed_send_drops_pending
    (input : jsstring) (room : ChatRoom) (name tempId : jsstring) (now : Z)
    (o : SendOutcome) :
  truthy (trim input) = true → truthy name = true → send_failed o →
  let start := handleSubmit input (Some room) (Some name) tempId now in
  let settled := handleSubmit_settled (room_id room) tempId o in
  count_effects is_fetch (start ++ settled) = 1%nat ∧
  count_effects is_console_error settled = 1%nat ∧
  (∀ current : Messages,
     run_effects settled current = filter (λ msg, id msg ≠ tempId) current ∧
     (∀ m, m ∈ run_effects settled current → m ∈ current ∧ id m ≠ tempId) ∧
     Forall (λ e, match e with
                  | SetRoomMessages u => (u current).2 = []
                  | _ => True
                  end) settled).
Proof.
  intros Hin Hname Hfail. unfold handleSubmit. rewrite Hin, Hname. simpl.
  destruct o as [|[message|] err]; try done; simpl.
  - split_and!; try done. intros current. split_and!; [done| |repeat constructor].
    intros m [? ?]%list_elem_of_filter. done.
  - split_and!; try done. intros current. split_and!; [done| |repeat constructor].
    intros m [? ?]%list_elem_of_filter. done.
Qed.

End Hook.

(** *** Concrete runs *)

(** [new Date(s).getTime()] on the strings of the runs below: 20 for the ISO
    date 20 ms after the epoch; the others are no dates. *)
Definition parse_date (s : jsstring) : jsnumber :=
  if s =j js "1970-01-01T00:00:00.020Z" then Num 20 else NaN.

(** An implementation that leaves an array it cannot order as it is. *)
Definition keep (ms : list ExtendedRoomChatMessage)
  : list ExtendedRoomChatMessage := ms.

Definition m_first : ExtendedRoomChatMessage :=
  mkMsg (js "a1") (js "general") (js "ada") (js "hello") (Num 10) false.
Definition m_last : ExtendedRoomChatMessage :=
  mkMsg (js "a3") (js "general") (js "bob") (js "bye") (Num 30) false.
Definition m_temp : ExtendedRoomChatMessage :=
  mkMsg (js "tmp") (js "general") (js "ada") (js "hi") (Num 40) true.
Definition incoming : ApiMessage :=
  mkApi (js "a2") (js "general") (js "cy") (js "hi")
    (TsString (js "1970-01-01T00:00:00.020Z")) false.
Definition general : ChatRoom := mkRoom (js "general") (js "General").

Lemma sorted_first_last : sorted [m_first; m_last].
Proof. repeat constructor. cbn. lia. Qed.

Lemma numeric_first_last : numeric [m_first; m_last].
Proof. by repeat constructor. Qed.




Lemma roomMessages_sorted_by_timestamp_witness :
  sorted [m_first; m_last] ∧
  sorted (run_effects
            (handleRoomMessage parse_date keep (Some (js "general"))
               (js "general") incoming)
            [m_first; m_last]) ∧
  sorted (run_effects
            (handleSubmit keep (js "hi") (Some general) (Some (js "ada"))
               (js "tmp") 40)
            [m_first; m_last]).
Proof.
  destruct (roomMessages_sorted_by_timestamp parse_date keep)
    as (Hrecv & Hsend & _).
  split_and!; [exact sorted_first_last| |].
  - apply Hrecv; [exact sorted_first_last|exact numeric_first_last|done].
  - apply Hsend; [exact sorted_first_last|exact numeric_first_last].
Defined.

Lemma failed_send_drops_pending_witness :
  truthy (trim (js " hi ")) = true ∧ truthy (js "ada") = true ∧
  send_failed (Responded None (Some (js "room not found"))) ∧
  run_effects
    (handleSubmit_settled parse_date keep (js "general") (js "tmp")
       (Responded None (Some (js "room not found"))))
    [m_first; m_last; m_temp]
  = [m_first; m_last].
Proof.
  split_and!; [done..|].
  destruct (failed_send_drops_pending parse_date keep (js " hi ") general
              (js "ada") (js "tmp") 40
              (Responded None (Some (js "room not found"))))
    as (_ & _ & Hdrop); [done..|].
  destruct (Hdrop [m_first; m_last; m_temp]) as (-> & _ & _).
  vm_compute. reflexivity.
Defined.

(** The reading of C9 for every timestamp and every cache: each update
    leaves a sorted list sorted, and loading sets sorted lists. *)
Definition every_update_keeps_sorted
    (engine : list ExtendedRoomChatMessage → list ExtendedRoomChatMessage)
  : Prop :=
  (∀ current roomId message prev,
     sorted prev →
     sorted (run_effects
               (handleRoomMessage parse_date engine current roomId message)
               prev)) ∧
  (∀ input currentRoom username tempId now prev,
     sorted prev →
     sorted (run_effects
               (handleSubmit engine input currentRoom username tempId now) prev)) ∧
  (∀ room tempId o prev,
     sorted prev →
     sorted (run_effects
               (handleSubmit_settled parse_date engine room tempId o) prev)) ∧
  (∀ roomId cachedMessages o,
     Forall sorted
       (fetchAndSetRoomMessages parse_date engine roomId cachedMessages o).1).

(** A cached list that is not sorted is shown as it is, also after a
    response with the same ids; and a message whose timestamp is no date
    leaves the list in no order. *)
Lemma unsorted_cache_is_shown :
  last (fetchAndSetRoomMessages parse_date keep (js "general")
          (Some [m_last; m_first])
          (Fetched (Some [mkApi (js "a1") (js "general") (js "ada") (js "hello")
                            (TsNumber 10) false;
                          mkApi (js "a3") (js "general") (js "bob") (js "bye")
                            (TsNumber 30) false]))).1
  = Some [m_last; m_first]
  ∧ ¬ sorted [m_last; m_first]
  ∧ ¬ ∃ engine, every_update_keeps_sorted engine.
Proof.
  assert (Hbad : ¬ sorted [m_last; m_first]).
  { intros Hs. inversion Hs as [|? ? _ Hall]; subst.
    apply Forall_cons in Hall as [Hle _]. cbn in Hle. lia. }
  split_and!; [vm_compute; reflexivity|exact Hbad|].
  intros (engine & _ & _ & _ & Hload).
  specialize (Hload (js "general") (Some [m_last; m_first]) LoadFailed).
  cbn in Hload. apply Forall_cons in Hload as [Hs _]. by apply Hbad.
Qed.

(** *** More of the room-message state *)

Section MoreHook.
Variable Date_getTime : jsstring → jsnumber.
Variable engine_sort : list ExtendedRoomChatMessage → list ExtendedRoomChatMessage.

Abbreviation merge := (merge_room_message Date_getTime engine_sort).
Abbreviation confirm := (confirm_pending Date_getTime engine_sort).
Abbreviation received := (handleRoomMessage Date_getTime engine_sort).
Abbreviation settled := (handleSubmit_settled Date_getTime engine_sort).
Abbreviation load := (fetchAndSetRoomMessages Date_getTime engine_sort).
Abbreviation as_number := (number_of_timestamp Date_getTime).
Abbreviation sort_by_timestamp := (Chat.sort_by_timestamp engine_sort).
Abbreviation handleSubmit := (Chat.handleSubmit engine_sort).

Lemma merge_again current message prev :
  merge current message (merge current message prev).1
  = ((merge current message prev).1, []).
Proof.
  unfold merge_room_message at 2 3.
  destruct (has_id (api_id message) prev) eqn:E; cbn [negb fst].
  - unfold merge_room_message. by rewrite E.
  - unfold merge_room_message.
    replace (has_id (api_id message) _) with true; [done|].
    symmetry. apply has_id_true.
    exists (with_timestamp message (as_number (api_timestamp message))).
    split; [|done].
    rewrite sort_by_timestamp_perm. apply elem_of_app. right. by left.
Qed.

(** X11. A room-message event that arrives twice counts once: the second
    arrival leaves the list as the first left it, whatever the list was,
    and writes nothing to the cache. *)
Theorem repeated_event_changes_nothing
    (current : option jsstring) (roomId : jsstring) (message : ApiMessage)
    (prev : Messages) :
  let once := received current roomId message in
  run_effects (once ++ once) prev = run_effects once prev ∧
  Forall (λ e, match e with
               | SetRoomMessages u => (u (run_effects once prev)).2 = []
               | _ => True
               end) once.
Proof.
  cbv zeta. unfold handleRoomMessage.
  destruct current as [r|]; [|by split].
  destruct (truthy r && (roomId =j r)); [|by split].
  cbn [app run_effects foldl run_effect]. rewrite merge_again.
  split; [done|]. constructor; [by rewrite merge_again|constructor].
Qed.

(** The ids of a list after the message with id [t] is replaced by one with
    id [c]. *)
Lemma NoDup_replace (t c : jsstring) (ids : list jsstring) :
  NoDup ids → (∀ i, i ∈ ids → i = c → i = t) →
  NoDup ((λ i, if i =j t then c else i) <$> ids).
Proof.
  induction 1 as [|i ids Hi Hnd IH]; intros Hc; [constructor|].
  rewrite fmap_cons. constructor.
  - intros (j & Hj & Hin)%list_elem_of_fmap.
    assert (Hjc : j = c → j = t) by (apply Hc; by right).
    assert (Hic : i = c → i = t) by (apply Hc; by left).
    unfold jseqb in Hj.
    destruct (bool_decide (i = t)) eqn:Ei, (bool_decide (j = t)) eqn:Ej;
      try apply bool_decide_eq_true in Ei; try apply bool_decide_eq_true in Ej;
      try apply bool_decide_eq_false in Ei; try apply bool_decide_eq_false in Ej;
      subst; try done.
    + apply Ej. by apply Hjc.
    + apply Ei. by apply Hic.
  - apply IH. intros j Hj. apply Hc. by right.
Qed.

Lemma NoDup_ids_filter (P : ExtendedRoomChatMessage → Prop)
    `{∀ m, Decision (P m)} (ms : Messages) :
  NoDup (id <$> ms) → NoDup (id <$> filter P ms).
Proof.
  intros Hnd. eapply sublist_NoDup; [exact Hnd|]. apply fmap_sublist, sublist_filter.
Qed.

Lemma NoDup_ids_sort (ms : Messages) :
  NoDup (id <$> sort_by_timestamp ms) ↔ NoDup (id <$> ms).
Proof. by rewrite sort_by_timestamp_perm. Qed.

Lemma NoDup_ids_snoc (ms : Messages) (m : ExtendedRoomChatMessage) :
  NoDup (id <$> ms) → id m ∉ id <$> ms → NoDup (id <$> (ms ++ [m])).
Proof.
  intros Hnd Hm. rewrite fmap_app. apply NoDup_app. split_and!; [done| |].
  - intros i Hi [->|[]%elem_of_nil]%elem_of_cons. done.
  - apply NoDup_singleton.
Qed.

Lemma merge_ids_distinct current message prev :
  NoDup (id <$> prev) → NoDup (id <$> (merge current message prev).1).
Proof.
  intros Hnd. unfold merge_room_message.
  destruct (has_id (api_id message) prev) eqn:E; cbn [negb fst]; [done|].
  apply NoDup_ids_sort, NoDup_ids_snoc; [done|].
  intros (m & Hid & Hin)%list_elem_of_fmap.
  apply has_id_false in E. apply E. by exists m.
Qed.

Lemma confirm_ids_distinct room tempId message prev :
  NoDup (id <$> prev) → NoDup (id <$> (confirm room tempId message prev).1).
Proof.
  intros Hnd. unfold confirm_pending.
  destruct (existsb _ prev) eqn:E; cbn [negb fst].
  - by apply NoDup_ids_sort, NoDup_ids_filter.
  - apply NoDup_ids_sort.
    replace (id <$> (_ <$> prev))
      with ((λ i, if i =j tempId then api_id message else i) <$> (id <$> prev)).
    2:{ clear. induction prev as [|m prev IH]; [done|].
        rewrite !fmap_cons, IH. f_equal. by destruct (id m =j tempId). }
    apply NoDup_replace; [done|].
    intros i (m & -> & Hin)%list_elem_of_fmap Hc.
    destruct (decide (id m = tempId)) as [|Hne]; [done|].
    assert (existsb (λ msg, (id msg =j api_id message)
                            && negb (id msg =j tempId)) prev = true) as Hex.
    { apply existsb_exists. exists m. split; [by apply list_elem_of_In|].
      unfold jseqb. rewrite bool_decide_eq_true_2 by done.
      by rewrite bool_decide_eq_false_2. }
    cbn [id with_timestamp] in E. congruence.
Qed.

(** X12. The ids of the room messages stay distinct: a received event and
    the handlers of a settled send keep a list of distinct ids distinct, and
    so does the optimistic append of a submit when the fresh id is not in
    the list. *)
Theorem message_ids_stay_distinct (prev : Messages) :
  NoDup (id <$> prev) →
  (∀ current roomId message,
     NoDup (id <$> run_effects (received current roomId message) prev)) ∧
  (∀ room tempId o,
     NoDup (id <$> run_effects (settled room tempId o) prev)) ∧
  (∀ input currentRoom username tempId now,
     tempId ∉ id <$> prev →
     NoDup (id <$> run_effects
                     (handleSubmit input currentRoom username tempId now) prev)).
Proof.
  intros Hnd. split_and!.
  - intros current roomId message. unfold handleRoomMessage.
    destruct current as [r|]; [|done].
    destruct (truthy r && (roomId =j r)); [|done].
    by apply merge_ids_distinct.
  - intros room tempId [|[message|] err]; cbn.
    + by apply NoDup_ids_filter.
    + by apply confirm_ids_distinct.
    + by apply NoDup_ids_filter.
  - intros input currentRoom username tempId now Hfresh. unfold handleSubmit.
    destruct (negb (truthy (trim input))); [done|].
    destruct currentRoom as [room|], username as [name|]; try done.
    destruct (truthy name); [|done].
    cbn. by apply NoDup_ids_sort, NoDup_ids_snoc.
Qed.

(** X13. What a confirmed send leaves: no message keeps the temporary id
    (unless the server gave the confirmed message that very id), a list that
    held the pending message or the confirmed one holds a message with the
    confirmed id, and the list has not grown. *)
Theorem confirmed_send_replaces_pending
    (room tempId : jsstring) (message : ApiMessage) (prev : Messages) :
  let after := (confirm room tempId message prev).1 in
  (api_id message ≠ tempId → ∀ m, m ∈ after → id m ≠ tempId) ∧
  ((∃ m, m ∈ prev ∧ (id m = tempId ∨ id m = api_id message)) →
     ∃ m, m ∈ after ∧ id m = api_id message) ∧
  (length after <= length prev)%nat.
Proof.
  cbv zeta. unfold confirm_pending.
  destruct (existsb _ prev) eqn:E; cbn [negb fst].
  - apply existsb_exists in E as (m0 & Hin0%list_elem_of_In & Hm0).
    apply andb_true_iff in Hm0 as [Hc Ht]. unfold jseqb in Hc, Ht.
    apply bool_decide_eq_true in Hc. apply negb_true_iff in Ht.
    apply bool_decide_eq_false in Ht. cbn [id with_timestamp] in Hc.
    split_and!.
    + intros _ m Hm. rewrite sort_by_timestamp_perm in Hm.
      by apply list_elem_of_filter in Hm as [? _].
    + intros _. exists m0. split; [|done].
      rewrite sort_by_timestamp_perm. by apply list_elem_of_filter.
    + rewrite sort_by_timestamp_perm. apply length_filter.
  - split_and!.
    + intros Hne m Hm. rewrite sort_by_timestamp_perm in Hm.
      apply list_elem_of_fmap in Hm as (m' & -> & _).
      unfold jseqb. destruct (bool_decide (id m' = tempId)) eqn:Em.
      * cbn [id with_timestamp]. done.
      * by apply bool_decide_eq_false in Em.
    + intros (m & Hin & Hm).
      exists (if id m =j tempId
              then with_timestamp message
                     (date_time Date_getTime (api_timestamp message))
              else m).
      split.
      * rewrite sort_by_timestamp_perm.
        apply list_elem_of_fmap. by exists m.
      * unfold jseqb. destruct (bool_decide (id m = tempId)) eqn:Em; [done|].
        apply bool_decide_eq_false in Em. by destruct Hm.
    + by rewrite sort_by_timestamp_perm, length_fmap.
Qed.

Lemma sorted_ids_perm (ms ms' : Messages) :
  sorted_ids ms = sorted_ids ms' → id <$> ms ≡ₚ id <$> ms'.
Proof.
  unfold sorted_ids. intros Heq.
  rewrite <- (sort_permutes str_compare (id <$> ms)), Heq.
  apply sort_permutes.
Qed.

(** X14. What loading a room ends on.  When the request fails the last
    list set is the cached one (the empty list without a cache) and nothing
    is written to the cache.  When a response arrives the last list set has
    the ids of the messages of the response, each as often as there (an
    absent list counts as empty; a cached list with those very ids is kept
    as it is), and a write to the cache, when there is one, stores that
    list. *)
Theorem loading_ends_on_fetched_ids
    (roomId : jsstring) (cachedMessages : option Messages) (o : LoadOutcome) :
  let sets := (load roomId cachedMessages o).1 in
  let writes := (load roomId cachedMessages o).2 in
  ∃ final, last sets = Some final ∧
    match o with
    | LoadFailed => final = default [] cachedMessages ∧ writes = []
    | Fetched messages =>
        id <$> final ≡ₚ api_id <$> default [] messages
        ∧ (writes = [] ∨ writes = [(roomId, final)])
    end.
Proof.
  cbv zeta. unfold fetchAndSetRoomMessages.
  set (cached := default [] cachedMessages).
  assert (Hc : (if nonempty cached then cached else []) = cached)
    by (by destruct cached).
  rewrite !Hc.
  destruct o as [|messages].
  - exists cached. by destruct cached.
  - set (got := (λ msg, with_timestamp msg (as_number (api_timestamp msg)))
                  <$> default [] messages).
    assert (Hgot : id <$> sort_by_timestamp got ≡ₚ api_id <$> default [] messages).
    { rewrite sort_by_timestamp_perm. unfold got.
      by rewrite <- list_fmap_compose. }
    destruct (nonempty (sort_by_timestamp got)) eqn:Ene.
    + destruct (bool_decide _) eqn:Eids.
      * apply bool_decide_eq_true in Eids. exists cached. split; [done|].
        split; [by rewrite (sorted_ids_perm _ _ Eids)|].
        destruct (nonempty cached); [by right|by left].
      * exists (sort_by_timestamp got). split; [done|]. split; [done|by right].
    + assert (Hnil : sort_by_timestamp got = [])
        by (by destruct (sort_by_timestamp got)).
      rewrite Hnil in Hgot.
      destruct (nonempty cached) eqn:Ec.
      * exists []. split; [done|]. split; [done|by right].
      * exists cached. split; [done|].
        destruct cached; [|done]. split; [done|by left].
Qed.

End MoreHook.

Lemma message_ids_stay_distinct_witness :
  NoDup (id <$> [m_first; m_last]) ∧
  NoDup (id <$> run_effects
                  (handleRoomMessage parse_date keep (Some (js "general")) (js "general")
                     incoming)
                  [m_first; m_last]) ∧
  NoDup (id <$> run_effects
                  (handleSubmit keep (js "hi") (Some general) (Some (js "ada"))
                     (js "tmp") 40)
                  [m_first; m_last]).
Proof.
  assert (Hnd : NoDup (id <$> [m_first; m_last])).
  { apply (bool_decide_unpack _). vm_compute. exact I. }
  destruct (message_ids_stay_distinct parse_date keep [m_first; m_last] Hnd)
    as (Hrecv & _ & Hsend).
  split_and!; [exact Hnd|apply Hrecv|apply Hsend].
  apply (bool_decide_unpack _). vm_compute. exact I.
Defined.

End Chat.

(** ** The email data editor (email/components/EmailDataEditor.tsx) *)

Module Email.
Import JS.

(** A value as [JSON.parse] returns it.  A number is a finite double, a
    rational.  The fields of an object are in source order; a later field of
    the same name overrides an earlier one. *)
#[local] Unset Elimination Schemes.
Inductive json :=
| JNull
| JBool (b : bool)
| JNumber (value : Q)
| JString (s : jsstring)
| JArray (items : list json)
| JObject (fields : list (jsstring * json)).
#[local] Set Elimination Schemes.

(** What [handleSave] does: state updates and the call of [onSave]. *)
Inductive Effect :=
| SetError (e : option jsstring)
| OnSave (data : json).

(** The own property [k] of an object built from [fields]. *)
Fixpoint field (k : jsstring) (fields : list (jsstring * json)) : option json :=
  match fields with
  | [] => None
  | (k', v) :: rest =>
      match field k rest with
      | Some v' => Some v'
      | None => if k' =j k then Some v else None
      end
  end.

(** [parsedData.k]: reading a property of [null] throws a [TypeError]
    ([None]); on an object it is the field or [undefined]; the other values
    have no property of the names read here, which gives [undefined]. *)
Definition get (parsedData : json) (k : jsstring) : option (option json) :=
  match parsedData with
  | JNull => None
  | JObject fields => Some (field k fields)
  | _ => Some None
  end.

(** [Array.isArray(v)] and [!v || typeof v !== 'object'] negated, on a
    property that may be [undefined]. *)
Definition isArray (v : option json) : bool :=
  match v with Some (JArray _) => true | _ => false end.

Definition is_truthy (v : option json) : bool :=
  match v with
  | None | Some JNull | Some (JBool false) => false
  | Some (JString s) => truthy s
  | Some (JNumber q) => negb (Qnum q =? 0)
  | Some _ => true
  end.

Definition typeof_object (v : option json) : bool :=
  match v with
  | Some JNull | Some (JArray _) | Some (JObject _) => true
  | _ => false
  end.

Section Editor.

(** [JSON.parse]: the value, or the message of the [SyntaxError]. *)
Variable JSON_parse : jsstring → json + jsstring.
(** The message of the [TypeError] for reading property [k] of [null]. *)
Variable TypeError_message : jsstring → jsstring.

Definition must_be_array (k : string) : jsstring :=
  js "Invalid data: '" ++ js k ++ js "' must be an array".

(** The checks of [handleSave] on the parsed data: the message of the error
    thrown, if any. *)
Definition validate (parsedData : json) : option jsstring :=
  match get parsedData (js "emails") with
  | None => Some (TypeError_message (js "emails"))
  | Some emails =>
      if negb (is_truthy emails) || negb (isArray emails)
      then Some (must_be_array "emails")
      else
        match get parsedData (js "threads") with
        | None => Some (TypeError_message (js "threads"))
        | Some threads =>
            if negb (is_truthy threads) || negb (isArray threads)
            then Some (must_be_array "threads")
            else
              match get parsedData (js "labels") with
              | None => Some (TypeError_message (js "labels"))
              | Some labels =>
                  if negb (is_truthy labels) || negb (isArray labels)
                  then Some (must_be_array "labels")
                  else
                    match get parsedData (js "user") with
                    | None => Some (TypeError_message (js "user"))
                    | Some user =>
                        if negb (is_truthy user) || negb (typeof_object user)
                        then Some (js "Invalid data: 'user' must be an object")
                        else None
                    end
              end
        end
  end.

(** [handleSave()], on the text [jsonData] of the editor. *)
Definition handleSave (jsonData : jsstring) : list Effect :=
  match JSON_parse jsonData with
  | inr message => [SetError (Some message)]
  | inl parsedData =>
      match validate parsedData with
      | Some message => [SetError (Some message)]
      | None => [SetError None; OnSave parsedData]
      end
  end.

(** *** The checks as the specification words them *)

Definition is_array (v : json) : Prop := ∃ items, v = JArray items.

(** An object in the sense of the check, [typeof v === 'object'] on a value
    that is not [null]: a plain object or an array. *)
Definition is_object (v : json) : Prop :=
  (∃ fields, v = JObject fields) ∨ (∃ items, v = JArray items).

Definition has_field (d : json) (k : string) (P : json → Prop) : Prop :=
  ∃ fields v, d = JObject fields ∧ field (js k) fields = Some v ∧ P v.

Definition passes_checks (d : json) : Prop :=
  has_field d "emails" is_array ∧ has_field d "threads" is_array ∧
  has_field d "labels" is_array ∧ has_field d "user" is_object.

Lemma array_check d k v :
  get d (js k) = Some v →
  (negb (is_truthy v) || negb (isArray v) = false ↔ has_field d k is_array).
Proof.
  intros Hget. split.
  - intros H. destruct d; simpl in Hget; try done;
      injection Hget as <-; try done.
    destruct (field (js k) fields) as [[]|] eqn:Hf; try done.
    + simpl in H. by rewrite orb_true_r in H.
    + simpl in H. by rewrite orb_true_r in H.
    + simpl in H. by rewrite orb_true_r in H.
    + exists fields, (JArray items). split_and!; [done..|by eexists].
  - intros (fields & w & -> & Hf & items & ->). simpl in Hget.
    rewrite Hf in Hget. by injection Hget as <-.
Qed.

Lemma object_check d v :
  get d (js "user") = Some v →
  (negb (is_truthy v) || negb (typeof_object v) = false
   ↔ has_field d "user" is_object).
Proof.
  intros Hget. split.
  - intros H. destruct d; simpl in Hget; try done;
      injection Hget as <-; try done.
    destruct (field (js "user") fields) as [[]|] eqn:Hf; try done.
    + simpl in H. by rewrite orb_true_r in H.
    + simpl in H. by rewrite orb_true_r in H.
    + simpl in H. by rewrite orb_true_r in H.
    + exists fields, (JArray items). split_and!; [done..|right; by eexists].
    + exists fields, (JObject fields0). split_and!; [done..|left; by eexists].
  - intros (fields & w & -> & Hf & Hobj). simpl in Hget.
    rewrite Hf in Hget. injection Hget as <-.
    by destruct Hobj as [[? ->]|[? ->]].
Qed.

Lemma has_field_get d k P : has_field d k P → ∃ v, get d (js k) = Some v.
Proof. intros (fields & w & -> & Hf & _). simpl. eauto. Qed.

Lemma validate_spec d : validate d = None ↔ passes_checks d.
Proof.
  unfold validate, passes_checks. split.
  - intros H.
    destruct (get d (js "emails")) as [e|] eqn:He; [|done].
    destruct (negb (is_truthy e) || negb (isArray e)) eqn:Ce; [done|].
    destruct (get d (js "threads")) as [t|] eqn:Ht; [|done].
    destruct (negb (is_truthy t) || negb (isArray t)) eqn:Ct; [done|].
    destruct (get d (js "labels")) as [l|] eqn:Hl; [|done].
    destruct (negb (is_truthy l) || negb (isArray l)) eqn:Cl; [done|].
    destruct (get d (js "user")) as [u|] eqn:Hu; [|done].
    destruct (negb (is_truthy u) || negb (typeof_object u)) eqn:Cu; [done|].
    split_and!.
    + by apply (array_check d "emails" e).
    + by apply (array_check d "threads" t).
    + by apply (array_check d "labels" l).
    + by apply (object_check d u).
  - intros (He & Ht & Hl & Hu).
    destruct (has_field_get _ _ _ He) as [e Ge].
    destruct (has_field_get _ _ _ Ht) as [t Gt].
    destruct (has_field_get _ _ _ Hl) as [l Gl].
    destruct (has_field_get _ _ _ Hu) as [u Gu].
    rewrite Ge, Gt, Gl, Gu.
    apply (array_check d "emails" e Ge) in He.
    apply (array_check d "threads" t Gt) in Ht.
    apply (array_check d "labels" l Gl) in Hl.
    apply (object_check d u Gu) in Hu.
    by rewrite He, Ht, Hl, Hu.
Qed.

(** C7. [handleSave] enforces the checks on save: [onSave] is called, with
    the parsed data, exactly when the text parses and the parsed value has
    arrays as its [emails], [threads] and [labels] fields and an object as
    its [user] field (an object as [typeof] has it: a plain object or an
    array, not [null]); then the error is cleared.  For every other text
    [onSave] is not called and the only effect is that a message is set as
    the error; for a parsed object whose [emails] field is not an array the
    message is "Invalid data: 'emails' must be an array". *)
Theorem handleSave_enforces_checks (jsonData : jsstring) :
  (∀ d, OnSave d ∈ handleSave jsonData
        ↔ JSON_parse jsonData = inl d ∧ passes_checks d) ∧
  (∀ d, JSON_parse jsonData = inl d → passes_checks d →
        handleSave jsonData = [SetError None; OnSave d]) ∧
  ((¬ ∃ d, JSON_parse jsonData = inl d ∧ passes_checks d) →
   ∃ message, handleSave jsonData = [SetError (Some message)]) ∧
  (∀ fields, JSON_parse jsonData = inl (JObject fields) →
        ¬ has_field (JObject fields) "emails" is_array →
        handleSave jsonData
        = [SetError (Some (js "Invalid data: 'emails' must be an array"))]).
Proof.
  unfold handleSave. split_and!.
  - intros d. destruct (JSON_parse jsonData) as [p|msg].
    + destruct (validate p) as [msg|] eqn:Hv.
      * split.
        -- intros Hin. apply list_elem_of_singleton in Hin. done.
        -- intros [[= ->] Hp%validate_spec]. congruence.
      * split.
        -- intros Hin. apply elem_of_cons in Hin as [Hin|Hin]; [done|].
           apply list_elem_of_singleton in Hin. injection Hin as ->.
           split; [done|]. by apply validate_spec.
        -- intros [[= ->] _]. right. by left.
    + split.
      * intros Hin. apply list_elem_of_singleton in Hin. done.
      * intros [? _]. done.
  - intros d -> Hp%validate_spec. by rewrite Hp.
  - intros Hno. destruct (JSON_parse jsonData) as [p|msg]; [|by eexists].
    destruct (validate p) as [msg|] eqn:Hv; [by eexists|].
    exfalso. apply Hno. exists p. split; [done|]. by apply validate_spec.
  - intros fields -> Hno.
    assert (C : negb (is_truthy (field (js "emails") fields))
                || negb (isArray (field (js "emails") fields)) = true).
    { apply not_false_iff_true. intros C. apply Hno.
      by apply (array_check (JObject fields) "emails"
                  (field (js "emails") fields)). }
    unfold validate. cbn [get]. by rewrite C.
Qed.

End Editor.

(** *** Concrete runs *)

Definition quoted (s : string) : jsstring := [34%N] ++ js s ++ [34%N].
Definition good_text : jsstring :=
  js "{" ++ quoted "emails" ++ js ":[]," ++ quoted "threads" ++ js ":[],"
  ++ quoted "labels" ++ js ":[]," ++ quoted "user" ++ js ":{}}".
Definition good_data : json :=
  JObject [(js "emails", JArray []); (js "threads", JArray []);
           (js "labels", JArray []); (js "user", JObject [])].

(** A parser for the runs below: it knows two texts. *)
Definition parse_two (text : jsstring) : json + jsstring :=
  if text =j good_text then inl good_data
  else if text =j js "{}" then inl (JObject [])
  else inr (js "Unexpected token").

Definition no_message (_ : jsstring) : jsstring := js "Cannot read properties of null".

Lemma handleSave_enforces_checks_witness :
  handleSave parse_two no_message good_text = [SetError None; OnSave good_data] ∧
  handleSave parse_two no_message (js "{}")
  = [SetError (Some (js "Invalid data: 'emails' must be an array"))].
Proof.
  split.
  - destruct (handleSave_enforces_checks parse_two no_message good_text)
      as (_ & Hok & _ & _).
    apply Hok; [reflexivity|].
    unfold passes_checks, has_field, good_data.
    split_and!; eexists _, _; (split_and!; [reflexivity|reflexivity|]);
      solve [by eexists | left; by eexists].
  - destruct (handleSave_enforces_checks parse_two no_message (js "{}"))
      as (_ & _ & _ & Hbad).
    apply (Hbad []); [reflexivity|].
    intros (fields & v & [= <-] & Hf & _). done.
Defined.

End Email.

(** ** The terminal (terminal/components/TerminalAppComponent.tsx) *)

Module Terminal.
Import JS.

Definition dquote : N := 34%N.
Definition squote : N := 39%N.

(** *** [parseCommand] *)

(** A match of the expression of [parseCommand], which has three
    alternatives: a run of characters that are neither white space nor a
    quote; a double quote, a captured run without double quote, a double
    quote; the same with single quotes.  A match holds the matched text and
    the two capture groups ([None] for a group that took no part). *)
Record RegexMatch := mkMatch {
  match0 : jsstring;
  group1 : option jsstring;
  group2 : option jsstring
}.

(** The character class of the first alternative. *)
Definition is_plain (c : N) : bool :=
  negb (is_space c) && negb (c =? dquote)%N && negb (c =? squote)%N.

(** The longest prefix of characters that satisfy [p], and what follows. *)
Fixpoint span (p : N → bool) (s : jsstring) : jsstring * jsstring :=
  match s with
  | c :: s' =>
      if p c then let '(w, rest) := span p s' in (c :: w, rest) else ([], s)
  | [] => ([], [])
  end.

(** A quoted alternative after its opening quote [q]: the body up to the
    next [q], which must be there. *)
Definition quoted_body (q : N) (s' : jsstring) : option (jsstring * jsstring) :=
  let '(body, rest) := span (λ c, negb (c =? q)%N) s' in
  match rest with
  | _ :: rest' => Some (body, rest')
  | [] => None
  end.

(** The match of the expression at the start of [s], with what follows
    it.  The alternatives are tried in order; the first is greedy. *)
Definition match_here (s : jsstring) : option (RegexMatch * jsstring) :=
  match s with
  | [] => None
  | c :: s' =>
      if is_plain c then
        let '(w, rest) := span is_plain s in Some (mkMatch w None None, rest)
      else if (c =? dquote)%N then
        match quoted_body dquote s' with
        | Some (body, rest) =>
            Some (mkMatch (dquote :: body ++ [dquote]) (Some body) None, rest)
        | None => None
        end
      else if (c =? squote)%N then
        match quoted_body squote s' with
        | Some (body, rest) =>
            Some (mkMatch (squote :: body ++ [squote]) None (Some body), rest)
        | None => None
        end
      else None
  end.

(** [regex.exec]: the first match at or behind the current position. *)
Fixpoint exec (s : jsstring) : option (RegexMatch * jsstring) :=
  match match_here s with
  | Some r => Some r
  | None =>
      match s with
      | [] => None
      | _ :: s' => exec s'
      end
  end.

Definition group_truthy (g : option jsstring) : bool :=
  match g with Some b => truthy b | None => false end.

(** The body of the [while] loop: what is pushed for a match. *)
Definition part_of (m : RegexMatch) : jsstring :=
  if group_truthy (group1 m) then default [] (group1 m)
  else if group_truthy (group2 m) then default [] (group2 m)
  else match0 m.

(** The [while] loop, at most [n] rounds of it. *)
Fixpoint parts_loop (n : nat) (s : jsstring) : list jsstring :=
  match n with
  | O => []
  | S n' =>
      match exec s with
      | Some (m, rest) => part_of m :: parts_loop n' rest
      | None => []
      end
  end.

(** Every match takes a character, so [length s] rounds reach the end. *)
Definition parts (s : jsstring) : list jsstring := parts_loop (length s) s.

(** The loop has rounds enough. *)
Lemma span_app p s : (span p s).1 ++ (span p s).2 = s.
Proof.
  induction s as [|c s IH]; simpl; [done|].
  destruct (p c); [|done]. destruct (span p s) as [w rest]. simpl in *.
  by rewrite IH.
Qed.

Lemma span_rest_length p s : (length (span p s).2 <= length s)%nat.
Proof.
  rewrite <- (span_app p s) at 2. rewrite length_app. lia.
Qed.

Lemma quoted_body_length q s' body rest :
  quoted_body q s' = Some (body, rest) → (length rest < length s')%nat.
Proof.
  unfold quoted_body.
  pose proof (span_rest_length (λ c, negb (c =? q)%N) s') as Hl.
  destruct (span _ s') as [b r]. simpl in Hl.
  destruct r as [|c r']; [done|]. intros [= <- <-]. simpl in Hl. lia.
Qed.

Lemma match_here_length s m rest :
  match_here s = Some (m, rest) → (length rest < length s)%nat.
Proof.
  destruct s as [|c s']; [done|]. cbn [match_here].
  destruct (is_plain c) eqn:Hc.
  - cbn [span]. rewrite Hc.
    pose proof (span_rest_length is_plain s') as Hl.
    destruct (span is_plain s') as [w r]. intros [= <- <-]. simpl in *. lia.
  - destruct (c =? dquote)%N.
    + destruct (quoted_body dquote s') as [[b r]|] eqn:Hq; [|done].
      intros [= <- <-]. apply quoted_body_length in Hq. simpl. lia.
    + destruct (c =? squote)%N; [|done].
      destruct (quoted_body squote s') as [[b r]|] eqn:Hq; [|done].
      intros [= <- <-]. apply quoted_body_length in Hq. simpl. lia.
Qed.

Lemma exec_length s m rest :
  exec s = Some (m, rest) → (length rest < length s)%nat.
Proof.
  induction s as [|c s IH]; [done|]. cbn [exec].
  destruct (match_here (c :: s)) as [[m' r']|] eqn:Hm.
  - intros [= <- <-]. by apply match_here_length in Hm.
  - intros H%IH. simpl. lia.
Qed.

Lemma parts_loop_agree n m s :
  (length s <= n)%nat → (length s <= m)%nat →
  parts_loop n s = parts_loop m s.
Proof.
  revert m s. induction n as [|n IH]; intros m s Hn Hm.
  - destruct s; [|simpl in Hn; lia]. by destruct m.
  - destruct m as [|m].
    + destruct s; [done|simpl in Hm; lia].
    + cbn [parts_loop].
      destruct (exec s) as [[r rest]|] eqn:He; [|done].
      apply exec_length in He. f_equal. apply IH; lia.
Qed.

Lemma parts_loop_enough n s :
  (length s <= n)%nat → parts_loop n s = parts s.
Proof. intros Hn. by apply parts_loop_agree. Qed.

(** The loop, as an equation: a match gives a part, and the search goes on
    behind it. *)
Lemma parts_unfold s :
  parts s = match exec s with
            | Some (m, rest) => part_of m :: parts rest
            | None => []
            end.
Proof.
  destruct s as [|c s]; [done|].
  unfold parts at 1. cbn [length parts_loop].
  destruct (exec (c :: s)) as [[m rest]|] eqn:He; [|done].
  apply exec_length in He. simpl in He.
  by rewrite parts_loop_enough by lia.
Qed.

Lemma span_all p body c rest :
  Forall (λ x, p x = true) body → p c = false →
  span p (body ++ c :: rest) = (body, c :: rest).
Proof.
  intros Hb Hc. induction Hb as [|x body Hx _ IH]; simpl.
  - by rewrite Hc.
  - by rewrite Hx, IH.
Qed.

(** A quoted segment with something in it is one part, without its quotes;
    an empty one is one part that keeps them. *)
Lemma parts_quoted q body rest :
  q = dquote ∨ q = squote → q ∉ body →
  parts (q :: body ++ q :: rest)
  = (if truthy body then body else [q; q]) :: parts rest.
Proof.
  intros Hq Hbody. rewrite parts_unfold.
  assert (Hspan : quoted_body q (body ++ q :: rest) = Some (body, rest)).
  { unfold quoted_body. rewrite (span_all _ body q rest); [done| |].
    - apply Forall_forall. intros x Hx. apply negb_true_iff, N.eqb_neq.
      intros ->. done.
    - by rewrite N.eqb_refl. }
  destruct Hq as [-> | ->]; cbn [exec match_here]; simpl is_plain;
    cbn [negb andb N.eqb]; rewrite ?Hspan.
  - simpl. unfold part_of. simpl. by destruct body.
  - simpl. unfold part_of. simpl. by destruct body.
Qed.

Section Interpreter.

(** [String.prototype.toLowerCase]. *)
Variable toLowerCase : jsstring → jsstring.

(** [parseCommand(command)]; [None] when it throws: with no part at all,
    [parts[0]] is [undefined] and has no [toLowerCase]. *)
Definition parseCommand (command : jsstring)
  : option (jsstring * list jsstring) :=
  let trimmedCommand := trim command in
  if negb (truthy trimmedCommand) then Some ([], [])
  else
    match parts trimmedCommand with
    | [] => None
    | p :: ps => Some (toLowerCase p, ps)
    end.

(** *** [processCommand] *)

(** The content of a file of the virtual file system: text, a blob, or
    none. *)
Inductive FileContent := Text (s : jsstring) | BlobContent | NoContent.

Record FileItem := mkFile {
  name : jsstring;
  path : jsstring;
  isDirectory : bool;
  content : FileContent
}.

(** An entry of the saved command history. *)
Record TerminalCommand := mkCommand { command : jsstring; timestamp : Z }.

(** What the component holds when a command is processed: the current path
    and the files of the current directory (both from [useFileSystem]), the
    saved history, and the formatted current date. *)
Record Env := mkEnv {
  currentPath : jsstring;
  files : list FileItem;
  isInAiMode : bool;
  savedCommands : list TerminalCommand;
  dateString : jsstring
}.

(** The calls a command makes besides returning its result. *)
Inductive Effect :=
| NavigateToPath (p : jsstring)
| SaveFile (f : FileItem)
| MoveToTrash (f : FileItem)
| StorePendingFileOpen (p : jsstring) (c : FileContent)
| LaunchApp (app : jsstring)
| ClearTerminal
| StopAiResponse
| OpenAboutDialog
| ReadBlobInto (f : FileItem)
| EnterVimMode (file : jsstring) (text : jsstring)
| ReadBlobIntoVim (f : FileItem)
| EnterAiMode (initialPrompt : option jsstring).

Record Result := mkResult {
  output : jsstring;
  isError : bool;
  effects : list Effect
}.

Definition ok (out : jsstring) (es : list Effect) : Result := mkResult out false es.
Definition err (out : jsstring) : Result := mkResult out true [].

(** The formatted table of the [history] command, which goes through the
    local-time methods of [Date]. *)
Variable format_history : list TerminalCommand → jsstring.

Definition AVAILABLE_COMMANDS : list jsstring :=
  js <$> ["help"; "clear"; "pwd"; "ls"; "cd"; "cat"; "mkdir"; "touch"; "rm";
          "edit"; "history"; "about"; "ryo"; "ai"; "chat"; "echo"; "whoami";
          "date"; "vim"]%string.

Definition help_text : jsstring :=
  join [nl] (js <$> [
    "";
    "navigation & files";
    "  pwd              show current directory";
    "  ls               list directory contents  ";
    "  cd <dir>         change directory";
    "  cat <file>       view file contents";
    "  touch <file>     create empty file";
    "  mkdir <dir>      create directory";
    "  rm <file>        move file to trash";
    "  edit <file>      open in text editor";
    "  vim <file>       open in vim editor";
    "";
    "terminal";
    "  clear            clear screen";
    "  help             show this help";
    "  history          show command history";
    "  about            about terminal";
    "  echo <text>      display text";
    "  whoami           display current user";
    "  date             display current date/time";
    "";
    "assistant";
    "  ryo <prompt>     chat with ryo";
    "";
    ""]%string).

Definition includes (c : N) (s : jsstring) : bool := bool_decide (c ∈ s).

(** [files.find((f) => f.name === n)]. *)
Fixpoint find_file (n : jsstring) (fs : list FileItem) : option FileItem :=
  match fs with
  | [] => None
  | f :: fs' => if name f =j n then Some f else find_file n fs'
  end.

(** [p.split("/").filter(Boolean)]: the segments of a path. *)
Definition segments (p : jsstring) : list jsstring :=
  List.filter truthy (split slash p).

(** The parent of the current path, as [cd ..] computes it. *)
Definition parent_of (p : jsstring) : jsstring :=
  let pathParts := segments p in
  if (0 <? length pathParts)%nat
  then js "/" ++ join (js "/") (slice_init pathParts)
  else js "/".

Definition or_text (c : FileContent) (alt : jsstring) : jsstring :=
  match c with
  | Text s => if truthy s then s else alt
  | _ => alt
  end.

Definition cd (env : Env) (args : list jsstring) : Result :=
  match args with
  | [] => ok [] [NavigateToPath (js "/")]
  | arg0 :: _ =>
      if arg0 =j js ".." then ok [] [NavigateToPath (parent_of (currentPath env))]
      else
        let newPath :=
          if negb (starts_with (js "/") arg0)
          then (if currentPath env =j js "/" then [] else currentPath env)
               ++ js "/" ++ arg0
          else arg0 in
        let normalizedPath :=
          if ends_with (js "/") newPath && negb (newPath =j js "/")
          then slice_init newPath else newPath in
        let allParts := segments normalizedPath in
        let targetDir := last allParts in
        let pathParts := slice_init allParts in
        let parentPath :=
          if (0 <? length pathParts)%nat
          then js "/" ++ join (js "/") pathParts else js "/" in
        if normalizedPath =j js "/" then ok [] [NavigateToPath (js "/")]
        else
          let parentPathWithSlash :=
            if ends_with (js "/") parentPath then parentPath
            else parentPath ++ js "/" in
          let filesInParent :=
            List.filter
              (λ file,
                 starts_with parentPathWithSlash (path file)
                 && negb (includes slash
                            (drop (length parentPathWithSlash) (path file))))
              (files env) in
          let targetExists :=
            existsb (λ file, bool_decide (Some (name file) = targetDir)
                             && isDirectory file) filesInParent in
          if negb targetExists
          then err (js "cd: " ++ arg0 ++ js ": no such directory")
          else ok [] [NavigateToPath normalizedPath]
  end.

Definition cat (env : Env) (args : list jsstring) : Result :=
  match args with
  | [] => err (js "usage: cat <filename>")
  | fileName :: _ =>
      match find_file fileName (files env) with
      | None => err (js "file not found: " ++ fileName)
      | Some file =>
          if isDirectory file
          then err (fileName ++ js " is a directory, not a file")
          else
            match content file with
            | BlobContent =>
                ok (js "Loading " ++ fileName ++ js "...") [ReadBlobInto file]
            | c => ok (or_text c (fileName ++ js " is empty")) []
            end
      end
  end.

Definition touch (env : Env) (args : list jsstring) : Result :=
  match args with
  | [] => err (js "usage: touch <filename>")
  | newFileName :: _ =>
      match find_file newFileName (files env) with
      | Some _ => err (js "file already exists: " ++ newFileName)
      | None =>
          ok (js "created file: " ++ newFileName)
             [SaveFile (mkFile newFileName
                          (currentPath env ++ js "/" ++ newFileName)
                          false (Text []))]
      end
  end.

Definition rm (env : Env) (args : list jsstring) : Result :=
  match args with
  | [] => err (js "usage: rm <filename>")
  | fileToDelete :: _ =>
      match find_file fileToDelete (files env) with
      | None => err (js "file not found: " ++ fileToDelete)
      | Some fileObj =>
          ok (js "moved to trash: " ++ fileToDelete) [MoveToTrash fileObj]
      end
  end.

Definition edit (env : Env) (args : list jsstring) : Result :=
  match args with
  | [] => err (js "usage: edit <filename>")
  | fileToEdit :: _ =>
      match find_file fileToEdit (files env) with
      | None => err (js "file not found: " ++ fileToEdit)
      | Some fileToEditObj =>
          if isDirectory fileToEditObj
          then err (fileToEdit ++ js " is a directory, not a file")
          else
            let inDocuments :=
              starts_with (js "/Documents/") (path fileToEditObj) in
            let documentsPath := js "/Documents/" ++ name fileToEditObj in
            let filePath :=
              if inDocuments then path fileToEditObj else documentsPath in
            ok (js "opening " ++ fileToEdit ++ js " in textedit...")
               ((if inDocuments then []
                 else [SaveFile (mkFile (name fileToEditObj) documentsPath
                                   false (content fileToEditObj))])
                ++ [StorePendingFileOpen filePath (content fileToEditObj);
                    LaunchApp (js "textedit")])
      end
  end.

Definition vim (env : Env) (args : list jsstring) : Result :=
  match args with
  | [] => err (js "usage: vim <filename>")
  | fileName :: _ =>
      match find_file fileName (files env) with
      | None => err (js "file not found: " ++ fileName)
      | Some file =>
          if isDirectory file
          then err (fileName ++ js " is a directory, not a file")
          else
            let out := js "opening " ++ fileName ++ js " in vim..." in
            match content file with
            | BlobContent => ok out [ReadBlobIntoVim file]
            | c => ok out [EnterVimMode fileName (or_text c [])]
            end
      end
  end.

Definition ryo (args : list jsstring) : Result :=
  let banner := js "ask ryo anything. type 'exit' to return to terminal." in
  match args with
  | _ :: _ =>
      let initialPrompt := join (js " ") args in
      ok (banner ++ [nl; 8594%N] ++ js " from your command: " ++ initialPrompt)
         [EnterAiMode (Some initialPrompt)]
  | [] => ok banner [EnterAiMode None]
  end.

(** [processCommand(command)]; [None] when [parseCommand] throws. *)
Definition processCommand (env : Env) (line : jsstring) : option Result :=
  match parseCommand line with
  | None => None
  | Some (cmd, args) =>
      Some
        (if cmd =j js "help" then ok help_text []
         else if cmd =j js "clear" then
           ok [] (ClearTerminal :: if isInAiMode env then [StopAiResponse] else [])
         else if cmd =j js "pwd" then ok (currentPath env) []
         else if cmd =j js "ls" then
           match files env with
           | [] => ok (js "no files found") []
           | _ :: _ => ok (join [nl] (name <$> files env)) []
           end
         else if cmd =j js "cd" then cd env args
         else if cmd =j js "cat" then cat env args
         else if cmd =j js "mkdir" then
           err (js "command not implemented: mkdir requires filesystem write access")
         else if cmd =j js "touch" then touch env args
         else if cmd =j js "rm" then rm env args
         else if cmd =j js "edit" then edit env args
         else if cmd =j js "about" then ok (js "opening about dialog...") [OpenAboutDialog]
         else if cmd =j js "history" then
           match savedCommands env with
           | [] => ok (js "no command history") []
           | _ :: _ => ok (format_history (savedCommands env)) []
           end
         else if cmd =j js "echo" then ok (join (js " ") args) []
         else if cmd =j js "whoami" then ok (js "you") []
         else if cmd =j js "date" then ok (dateString env) []
         else if cmd =j js "vim" then vim env args
         else if (cmd =j js "ai") || (cmd =j js "chat") || (cmd =j js "ryo")
         then ryo args
         else err (js "command not found: " ++ cmd
                   ++ js ". type 'help' for a list of available commands."))
  end.

(** *** Properties of the interpreter *)

Lemma find_file_none n fs :
  (∀ f, f ∈ fs → name f ≠ n) → find_file n fs = None.
Proof.
  induction fs as [|f fs IH]; intros H; simpl; [done|].
  unfold jseqb. rewrite bool_decide_eq_false_2.
  - apply IH. intros g Hg. apply H. by right.
  - apply H. by left.
Qed.

Lemma filter_truthy_id (ws : list jsstring) :
  Forall (λ w, w ≠ []) ws → List.filter truthy ws = ws.
Proof.
  induction 1 as [|w ws Hw _ IH]; simpl; [done|].
  destruct w; [done|]. simpl. by rewrite IH.
Qed.

(** The segments of an absolute path are the names it was built from. *)
Lemma segments_absolute (segs : list jsstring) :
  Forall (λ seg, seg ≠ [] ∧ slash ∉ seg) segs →
  segments (js "/" ++ join (js "/") segs) = segs.
Proof.
  intros Hall. unfold segments.
  change (js "/") with [slash]. simpl app. cbn [split].
  rewrite N.eqb_refl. cbn [List.filter truthy].
  destruct segs as [|seg segs]; [done|].
  rewrite split_join.
  - apply filter_truthy_id. eapply Forall_impl; [exact Hall|]. by intros ? [? ?].
  - done.
  - eapply Forall_impl; [exact Hall|]. by intros ? [? ?].
Qed.

Lemma not_available cmd c :
  cmd ∉ AVAILABLE_COMMANDS → c ∈ AVAILABLE_COMMANDS → (cmd =j c) = false.
Proof.
  intros Hn Hc. unfold jseqb. apply bool_decide_eq_false_2. by intros ->.
Qed.

Ltac available := apply (bool_decide_unpack _); vm_compute; exact I.

(** C2, on the code.  The parts of a line with an empty pair of quotes: the
    quotes are not removed, the argument is the two quote characters. *)
Theorem parseCommand_keeps_empty_quotes :
  parseCommand (js "echo " ++ [dquote; dquote])
  = Some (toLowerCase (js "echo"), [[dquote; dquote]])
  ∧ parseCommand [dquote] = None.
Proof. split; reflexivity. Qed.

Lemma slice_init_snoc {A} (init : list A) (x : A) :
  slice_init (init ++ [x]) = init.
Proof.
  unfold slice_init. rewrite length_app. cbn [length].
  replace (length init + 1 - 1)%nat with (length init) by lia.
  apply take_app_length.
Qed.

(** C4. [cd ..] navigates to the parent directory: the result has the empty
    output, is no error, and its one effect is the navigation to the
    current path with its last segment removed.  For a current path written
    as a slash and names joined by slashes the new path is the slash and
    the names but the last joined by slashes, which is the root for one
    name; from the root it is the root; and whatever the current path, the
    new path is written from its segments (the pieces between slashes that
    are not empty) but the last. *)
Theorem cd_dotdot_navigates_to_parent
    (env : Env) (line : jsstring) (rest : list jsstring) :
  parseCommand line = Some (js "cd", js ".." :: rest) →
  ∃ parent,
    processCommand env line
    = Some (mkResult [] false [NavigateToPath parent]) ∧
    (∀ names name,
       Forall (λ seg, seg ≠ [] ∧ slash ∉ seg) (names ++ [name]) →
       currentPath env = js "/" ++ join (js "/") (names ++ [name]) →
       parent = js "/" ++ join (js "/") names) ∧
    (∀ name,
       name ≠ [] → slash ∉ name → currentPath env = js "/" ++ name →
       parent = js "/") ∧
    (currentPath env = js "/" → parent = js "/") ∧
    (∀ names name,
       List.filter truthy (split slash (currentPath env)) = names ++ [name] →
       parent = js "/" ++ join (js "/") names) ∧
    (List.filter truthy (split slash (currentPath env)) = [] →
     parent = js "/").
Proof.
  intros Hparse. exists (parent_of (currentPath env)).
  assert (Hsegs : ∀ names name,
            segments (currentPath env) = names ++ [name] →
            parent_of (currentPath env) = js "/" ++ join (js "/") names).
  { intros names name Hs. unfold parent_of. rewrite Hs, slice_init_snoc.
    rewrite length_app. cbn [length].
    by replace (0 <? length names + 1)%nat with true
      by (symmetry; apply Nat.ltb_lt; lia). }
  split_and!.
  - unfold processCommand. rewrite Hparse. reflexivity.
  - intros names name Hall Hpath. apply (Hsegs names name).
    rewrite Hpath. by apply segments_absolute.
  - intros name Hne Hslash Hpath.
    rewrite (Hsegs [] name); [done|].
    rewrite Hpath. apply (segments_absolute [name]). by repeat constructor.
  - intros Hroot. unfold parent_of. by rewrite Hroot.
  - exact Hsegs.
  - intros Hnone. unfold parent_of, segments. by rewrite Hnone.
Qed.

(** C5. Errors of the terminal are plain strings with the error flag: a
    line whose command name is not one of the fixed subcommands gives the
    command-not-found message, and [cat] of a name that no file of the
    current directory has gives the file-not-found message; both results
    have [isError] set and make no call. *)
Theorem errors_are_plain_strings
    (env : Env) (line cmd : jsstring) (args : list jsstring) :
  parseCommand line = Some (cmd, args) →
  (cmd ∉ AVAILABLE_COMMANDS →
   processCommand env line
   = Some (mkResult
             (js "command not found: " ++ cmd
              ++ js ". type 'help' for a list of available commands.")
             true [])) ∧
  (∀ fileName others,
     cmd = js "cat" → args = fileName :: others →
     (∀ f, f ∈ files env → name f ≠ fileName) →
     processCommand env line
     = Some (mkResult (js "file not found: " ++ fileName) true [])).
Proof.
  intros Hparse. unfold processCommand. rewrite Hparse. split.
  - intros Hn.
    rewrite !(not_available cmd) by (done || available).
    reflexivity.
  - intros fileName others -> -> Hnone.
    cbn. by rewrite find_file_none.
Qed.

End Interpreter.

(** *** Concrete runs *)

(** [toLowerCase] on the letters of ASCII. *)
Definition lower (s : jsstring) : jsstring :=
  (λ c, if ((65 <=? c) && (c <=? 90))%N then (c + 32)%N else c) <$> s.

Definition no_history (_ : list TerminalCommand) : jsstring := [].

Definition notes : FileItem :=
  mkFile (js "notes.txt") (js "/Documents/notes.txt") false (Text (js "hi")).
Definition in_documents : Env :=
  mkEnv (js "/Documents") [notes] false [] (js "Mon").

Definition in_notes : Env :=
  mkEnv (js "/Documents/Notes") [notes] false [] (js "Mon").

Lemma cd_dotdot_navigates_to_parent_witness :
  parseCommand lower (js "CD ..") = Some (js "cd", [js ".."]) ∧
  processCommand lower no_history in_notes (js "CD ..")
  = Some (mkResult [] false [NavigateToPath (js "/Documents")]).
Proof.
  split; [reflexivity|].
  destruct (cd_dotdot_navigates_to_parent lower no_history in_notes
              (js "CD ..") [] eq_refl) as (parent & Hrun & Hnames & _).
  rewrite (Hnames [js "Documents"] (js "Notes")) in Hrun; [exact Hrun| |reflexivity].
  repeat constructor; try done; apply (bool_decide_unpack _); vm_compute; exact I.
Defined.

Lemma errors_are_plain_strings_witness :
  processCommand lower no_history in_documents (js "frobnicate now")
  = Some (mkResult
            (js "command not found: frobnicate. type 'help' for a list of available commands.")
            true [])
  ∧ processCommand lower no_history in_documents (js "cat x")
    = Some (mkResult (js "file not found: x") true []).
Proof.
  split.
  - pose proof (errors_are_plain_strings lower no_history in_documents
                  (js "frobnicate now") (js "frobnicate") [js "now"] eq_refl)
      as [Hnf _].
    apply Hnf.
    intros Hin%(bool_decide_pack _). vm_compute in Hin. done.
  - pose proof (errors_are_plain_strings lower no_history in_documents
                  (js "cat x") (js "cat") [js "x"] eq_refl) as [_ Hcat].
    apply (Hcat (js "x") []); [reflexivity..|].
    intros f Hf. apply list_elem_of_singleton in Hf as ->.
    vm_compute. done.
Defined.

(** ** More of the terminal *)

(** *** Tokens *)

Lemma trim_start_head (s : jsstring) :
  (∀ c, head s = Some c → is_space c = false) → trim_start s = s.
Proof.
  destruct s as [|c s]; [done|]. intros H. simpl. by rewrite (H c).
Qed.

(** A line that neither starts nor ends with white space is its own trim. *)
Lemma trim_id (s : jsstring) :
  (∀ c, head s = Some c → is_space c = false) →
  (∀ c, last s = Some c → is_space c = false) →
  trim s = s.
Proof.
  intros Hh Hl. unfold trim. rewrite (trim_start_head s) by done.
  rewrite trim_start_head; [apply reverse_involutive|].
  intros c Hc. apply Hl. by rewrite <- head_reverse.
Qed.

Lemma trim_start_keeps (c : N) (s : jsstring) :
  is_space c = false → c ∈ s → c ∈ trim_start s.
Proof.
  intros Hc. induction s as [|d s IH]; [done|]. simpl.
  destruct (is_space d) eqn:Hd; [|done].
  intros [->|Hin]%elem_of_cons; [congruence|by apply IH].
Qed.

Lemma trim_keeps (c : N) (s : jsstring) :
  is_space c = false → c ∈ s → c ∈ trim s.
Proof.
  intros Hc Hin. unfold trim. apply elem_of_reverse.
  apply trim_start_keeps; [done|]. apply elem_of_reverse.
  by apply trim_start_keeps.
Qed.

Lemma is_plain_not_space c : is_plain c = true → is_space c = false.
Proof.
  unfold is_plain. intros H. apply andb_true_iff in H as [H _].
  apply andb_true_iff in H as [H _]. by apply negb_true_iff.
Qed.

Lemma span_whole p (w : jsstring) :
  Forall (λ x, p x = true) w → span p w = (w, []).
Proof.
  induction 1 as [|x w Hx _ IH]; simpl; [done|]. by rewrite Hx, IH.
Qed.

(** What may follow a word: the end of the line, or a character that is no
    part of a word. *)
Definition ends_word (rest : jsstring) : Prop :=
  match rest with [] => True | c :: _ => is_plain c = false end.

Lemma span_word (w rest : jsstring) :
  Forall (λ x, is_plain x = true) w → ends_word rest →
  span is_plain (w ++ rest) = (w, rest).
Proof.
  intros Hw Hrest. destruct rest as [|c rest].
  - rewrite app_nil_r. by apply span_whole.
  - by apply span_all.
Qed.

(** A run of plain characters is one part. *)
Lemma parts_word (w rest : jsstring) :
  w ≠ [] → Forall (λ x, is_plain x = true) w → ends_word rest →
  parts (w ++ rest) = w :: parts rest.
Proof.
  intros Hne Hw Hrest. rewrite parts_unfold.
  destruct w as [|c w]; [done|].
  pose proof (span_word (c :: w) rest Hw Hrest) as Hspan.
  inversion Hw as [|? ? Hc Hw']; subst.
  change ((c :: w) ++ rest) with (c :: (w ++ rest)) in *.
  cbn [exec match_here]. rewrite Hc. rewrite Hspan. reflexivity.
Qed.

(** White space makes no part. *)
Lemma parts_space (c : N) (rest : jsstring) :
  is_space c = true → parts (c :: rest) = parts rest.
Proof.
  intros Hc. rewrite parts_unfold, (parts_unfold rest).
  cbn [exec match_here].
  assert (Hp : is_plain c = false) by (unfold is_plain; by rewrite Hc).
  rewrite Hp.
  assert (Hd : (c =? dquote)%N = false).
  { apply N.eqb_neq. intros ->. done. }
  assert (Hs : (c =? squote)%N = false).
  { apply N.eqb_neq. intros ->. done. }
  by rewrite Hd, Hs.
Qed.

Definition word (w : jsstring) : Prop :=
  w ≠ [] ∧ Forall (λ x, is_plain x = true) w.

Lemma parts_words (ws : list jsstring) :
  Forall word ws → parts (join (js " ") ws) = ws.
Proof.
  induction 1 as [|w ws [Hne Hw] Hws IH]; [done|].
  destruct ws as [|w' ws].
  - simpl. rewrite <- (app_nil_r w) at 1. by rewrite parts_word.
  - rewrite join_cons. rewrite parts_word; [|done..].
    change (js " " ++ join (js " ") (w' :: ws))
      with (32%N :: join (js " ") (w' :: ws)).
    rewrite parts_space by done. by rewrite IH.
Qed.

Lemma join_words_nonempty (ws : list jsstring) :
  ws ≠ [] → Forall word ws → join (js " ") ws ≠ [].
Proof.
  intros Hne Hws. destruct Hws as [|w ws [Hw _] _]; [done|].
  destruct ws; simpl; [done|]. by destruct w.
Qed.

Lemma join_words_last (ws : list jsstring) (c : N) :
  Forall word ws → last (join (js " ") ws) = Some c → is_space c = false.
Proof.
  induction 1 as [|w ws [Hw1 Hw2] Hws IH]; [done|].
  destruct ws as [|w' ws].
  - simpl. intros Hc%last_Some_elem_of.
    rewrite Forall_forall in Hw2. by apply is_plain_not_space, Hw2.
  - rewrite join_cons, app_assoc, last_app.
    destruct (last (join (js " ") (w' :: ws))) as [d|] eqn:Hd.
    + intros [= <-]. by apply IH.
    + apply last_None in Hd. by apply join_words_nonempty in Hd.
Qed.

Lemma exec_plain (s : jsstring) :
  (∃ c, c ∈ s ∧ is_plain c = true) → is_Some (exec s).
Proof.
  induction s as [|d s IH]; intros (c & Hin & Hc).
  - by apply elem_of_nil in Hin.
  - cbn [exec]. destruct (match_here (d :: s)) as [r|] eqn:Hm; [done|].
    apply IH. exists c. split; [|done].
    apply elem_of_cons in Hin as [->|Hin]; [|done].
    exfalso. cbn [match_here] in Hm. rewrite Hc in Hm.
    by destruct (span is_plain (d :: s)).
Qed.

Lemma parts_plain (s : jsstring) :
  (∃ c, c ∈ s ∧ is_plain c = true) → parts s ≠ [].
Proof.
  intros H%exec_plain. rewrite parts_unfold.
  destruct H as [[m rest] ->]. done.
Qed.

Section MoreInterpreter.
Variable toLowerCase : jsstring → jsstring.
Variable format_history : list TerminalCommand → jsstring.

(** X1. A quoted argument with something in it is one argument, without its
    quotes, white space and the other kind of quote included: a command
    word, a space and a quoted text parse to the lowered word and the
    text. *)
Theorem parseCommand_quoted_argument (w body : jsstring) (q : N) :
  word w → q = dquote ∨ q = squote → body ≠ [] → q ∉ body →
  parseCommand toLowerCase (w ++ js " " ++ q :: body ++ [q])
  = Some (toLowerCase w, [body]).
Proof.
  intros [Hne Hw] Hq Hb Hqb. unfold parseCommand.
  assert (Hqs : is_space q = false) by (by destruct Hq as [-> | ->]).
  destruct w as [|c w]; [done|].
  inversion Hw as [|? ? Hc _]; subst.
  rewrite trim_id.
  - cbn [truthy negb app].
    change (c :: w ++ js " " ++ q :: body ++ [q])
      with ((c :: w) ++ 32%N :: q :: body ++ [q]).
    rewrite parts_word, parts_space by done.
    rewrite (parts_quoted q body []) by done.
    destruct body; [done|]. reflexivity.
  - intros d [= <-]. by apply is_plain_not_space.
  - intros d Hd.
    assert (E : (c :: w) ++ js " " ++ q :: body ++ [q]
                = ((c :: w) ++ js " " ++ q :: body) ++ [q]).
    { by rewrite <- !app_assoc. }
    rewrite E, last_snoc in Hd. by injection Hd as <-.
Qed.

(** X2. The tokens of words separated by single spaces are the words, so
    that [echo] gives back the text it is given. *)
Theorem echo_returns_its_words (env : Env) (ws : list jsstring) :
  toLowerCase (js "echo") = js "echo" → Forall word ws →
  processCommand toLowerCase format_history env
    (join (js " ") (js "echo" :: ws))
  = Some (mkResult (join (js " ") ws) false []).
Proof.
  intros Hlow Hws. unfold processCommand, parseCommand.
  assert (Hall : Forall word (js "echo" :: ws)).
  { constructor; [|done]. split; [done|]. by repeat constructor. }
  rewrite trim_id.
  - rewrite parts_words by done.
    destruct ws as [|w ws]; cbn [truthy negb join]; rewrite Hlow; reflexivity.
  - destruct ws; intros c [= <-]; done.
  - intros c. by apply join_words_last.
Qed.

(** X3. [parseCommand] returns for every line that holds a character which
    is neither white space nor a quote; it throws only on a line that is
    not blank and is made of quotes and white space alone. *)
Theorem parseCommand_throws_only_without_words (line : jsstring) :
  ((∃ c, c ∈ line ∧ is_plain c = true) →
   ∃ cmd args, parseCommand toLowerCase line = Some (cmd, args)) ∧
  (parseCommand toLowerCase line = None →
   Forall (λ c, is_plain c = false) line ∧ trim line ≠ []).
Proof.
  assert (Hsome : (∃ c, c ∈ line ∧ is_plain c = true) →
                  ∃ cmd args, parseCommand toLowerCase line = Some (cmd, args)).
  { intros (c & Hin & Hc). unfold parseCommand.
    destruct (negb (truthy (trim line))); [by eexists _, _|].
    assert (Hp : parts (trim line) ≠ []).
    { apply parts_plain. exists c. split; [|done].
      apply trim_keeps; [by apply is_plain_not_space|done]. }
    destruct (parts (trim line)) as [|p ps]; [done|]. by eexists _, _. }
  split; [exact Hsome|].
  intros Hnone. split.
  - apply Forall_forall. intros c Hin.
    destruct (is_plain c) eqn:Hc; [|done].
    destruct Hsome as (cmd & args & Hs); [by exists c|]. congruence.
  - intros Hblank. unfold parseCommand in Hnone. by rewrite Hblank in Hnone.
Qed.

Ltac case_commands :=
  repeat match goal with
  | |- context [if ?c =j ?k then _ else _] => destruct (c =j k)
  | |- context [if (?a || ?b) then _ else _] => destruct (a || b)
  end.

(** X4. A command that reports an error makes no call: nothing is saved,
    moved to the trash, opened or navigated to when [isError] is set. *)
Theorem failed_commands_make_no_call (env : Env) (line : jsstring) (r : Result) :
  processCommand toLowerCase format_history env line = Some r →
  isError r = true → effects r = [].
Proof.
  unfold processCommand.
  destruct (parseCommand toLowerCase line) as [[cmd args]|]; [|done].
  intros [= <-].
  case_commands; try done.
  - by destruct (files env).
  - unfold cd. destruct args as [|arg0 args]; [done|].
    destruct (arg0 =j js ".."); [done|].
    repeat match goal with
    | |- context [if ?b then ok _ _ else _] => destruct b; try done
    | |- context [if ?b then err _ else _] => destruct b; try done
    end.
  - unfold cat. destruct args as [|a args]; [done|].
    destruct (find_file a (files env)) as [f|]; [|done].
    destruct (isDirectory f); [done|]. by destruct (content f).
  - unfold touch. destruct args as [|a args]; [done|].
    by destruct (find_file a (files env)).
  - unfold rm. destruct args as [|a args]; [done|].
    by destruct (find_file a (files env)).
  - unfold edit. destruct args as [|a args]; [done|].
    destruct (find_file a (files env)) as [f|]; [|done].
    by destruct (isDirectory f).
  - by destruct (savedCommands env).
  - unfold vim. destruct args as [|a args]; [done|].
    destruct (find_file a (files env)) as [f|]; [|done].
    destruct (isDirectory f); [done|]. by destruct (content f).
  - unfold ryo. by destruct args.
Qed.

(** X5. [cd] to a name or a path goes only where a directory is listed: a
    result without error navigates to the root, or to a path whose last
    segment is the name of a directory among the files; every other
    argument gives the no-such-directory message and no navigation. *)
Theorem cd_goes_only_to_directories
    (env : Env) (arg0 : jsstring) (others : list jsstring) :
  arg0 ≠ js ".." →
  let r := cd env (arg0 :: others) in
  (isError r = false →
   output r = [] ∧
   ∃ p, effects r = [NavigateToPath p] ∧
        (p = js "/" ∨
         ∃ file, file ∈ files env ∧ isDirectory file = true
                 ∧ last (segments p) = Some (name file))) ∧
  (isError r = true →
   output r = js "cd: " ++ arg0 ++ js ": no such directory" ∧ effects r = []).
Proof.
  intros Hne. cbv zeta. unfold cd.
  assert (Hb : (arg0 =j js "..") = false).
  { unfold jseqb. by rewrite bool_decide_eq_false_2. }
  rewrite Hb.
  set (newPath := if negb (starts_with (js "/") arg0) then _ else arg0).
  set (normalizedPath := if ends_with (js "/") newPath && _ then _ else newPath).
  destruct (normalizedPath =j js "/").
  { cbn [isError output effects ok]. split; [|done]. intros _.
    split; [done|]. eexists. split; [done|]. by left. }
  match goal with |- context [negb (existsb ?f ?l)] =>
    destruct (existsb f l) eqn:Hex end;
    cbn [negb isError output effects ok err].
  - split; [|done]. intros _. split; [done|]. eexists. split; [done|]. right.
    apply existsb_exists in Hex as (file & Hin & Hfile).
    apply andb_true_iff in Hfile as [Hname Hdir].
    apply bool_decide_eq_true in Hname.
    apply filter_In in Hin as [Hin _].
    exists file. split_and!; [by apply list_elem_of_In|done|done].
  - split; [done|]. done.
Qed.

(** *** The history keys *)

(** The part of the component that the arrow keys of the command line
    read and write. *)
Record History := mkHistory {
  historyIndex : Z;
  historyCommands : list jsstring;
  currentCommand : jsstring
}.

(** [a[i]] for an index that may be negative. *)
Definition at_index {A} (a : list A) (i : Z) : option A :=
  if i <? 0 then None else a !! Z.to_nat i.

(** The command that a history key puts on the command line for the index
    [newIndex]: the entry counted from the end, with the assistant's prefix
    put back when the saved entry had it. *)
Definition recalled (env : Env) (h : History) (newIndex : Z) : jsstring :=
  let historicCommand :=
    default [] (at_index (historyCommands h)
                  (Z.of_nat (length (historyCommands h)) - 1 - newIndex)) in
  match at_index (savedCommands env)
          (Z.of_nat (length (savedCommands env)) - 1 - newIndex) with
  | Some commandEntry =>
      if negb (isInAiMode env)
         && starts_with (js "ryo ") (command commandEntry)
         && negb (starts_with (js "ryo ") historicCommand)
      then js "ryo " ++ historicCommand else historicCommand
  | None => historicCommand
  end.

(** The [ArrowUp] and [ArrowDown] branches of [handleKeyDown]. *)
Definition arrow_up (env : Env) (h : History) : History :=
  let len := Z.of_nat (length (historyCommands h)) in
  if 0 <? len then
    let newIndex :=
      if historyIndex h <? len - 1 then historyIndex h + 1 else historyIndex h in
    mkHistory newIndex (historyCommands h) (recalled env h newIndex)
  else h.

Definition arrow_down (env : Env) (h : History) : History :=
  if 0 <? historyIndex h then
    let newIndex := historyIndex h - 1 in
    mkHistory newIndex (historyCommands h) (recalled env h newIndex)
  else if historyIndex h =? 0 then mkHistory (-1) (historyCommands h) []
  else h.

(** The index is that of no entry (-1) or of an entry. *)
Definition index_in_range (h : History) : Prop :=
  -1 <= historyIndex h <= Z.of_nat (length (historyCommands h)) - 1.

(** X6. The history keys keep the index in range; after [ArrowUp] on a
    history that has entries the index is that of an entry, and the command
    line holds that entry, as it is or behind the assistant's prefix; and
    [ArrowDown] after [ArrowUp] comes back to the index it left when that
    was the index of an entry below the oldest. *)
Theorem history_keys_stay_in_range (env : Env) (h : History) :
  index_in_range h →
  index_in_range (arrow_up env h) ∧ index_in_range (arrow_down env h) ∧
  (historyCommands h ≠ [] →
   0 <= historyIndex (arrow_up env h)
   ∧ ∃ entry, entry ∈ historyCommands h
       ∧ (currentCommand (arrow_up env h) = entry
          ∨ currentCommand (arrow_up env h) = js "ryo " ++ entry)) ∧
  (0 <= historyIndex h < Z.of_nat (length (historyCommands h)) - 1 →
   historyIndex (arrow_down env (arrow_up env h)) = historyIndex h
   ∧ currentCommand (arrow_down env (arrow_up env h))
     = recalled env h (historyIndex h)).
Proof.
  unfold index_in_range. intros Hr. split; [|split; [|split]].
  - unfold arrow_up. destruct (0 <? _) eqn:E; [|lia].
    destruct (historyIndex h <? _) eqn:E2; cbn [historyIndex historyCommands]; [|lia].
    apply Z.ltb_lt in E2. lia.
  - unfold arrow_down. destruct (0 <? historyIndex h) eqn:E.
    + apply Z.ltb_lt in E. cbn [historyIndex historyCommands]. lia.
    + destruct (historyIndex h =? 0); cbn [historyIndex historyCommands]; lia.
  - intros Hne. unfold arrow_up.
    assert (Hlen : 0 < Z.of_nat (length (historyCommands h))).
    { destruct (historyCommands h); [done|simpl; lia]. }
    replace (0 <? Z.of_nat (length (historyCommands h))) with true
      by (symmetry; by apply Z.ltb_lt).
    set (newIndex := if historyIndex h <? _ then _ else _).
    assert (Hn : 0 <= newIndex <= Z.of_nat (length (historyCommands h)) - 1).
    { unfold newIndex. destruct (historyIndex h <? _) eqn:E2.
      - apply Z.ltb_lt in E2. lia.
      - apply Z.ltb_ge in E2. lia. }
    cbn [historyIndex historyCommands currentCommand]. split; [lia|].
    assert (Hlook : ∃ entry,
      at_index (historyCommands h)
        (Z.of_nat (length (historyCommands h)) - 1 - newIndex) = Some entry).
    { unfold at_index.
      replace (Z.of_nat (length (historyCommands h)) - 1 - newIndex <? 0)
        with false by (symmetry; apply Z.ltb_ge; lia).
      apply lookup_lt_is_Some_2. lia. }
    destruct Hlook as [entry He]. exists entry. split.
    + unfold at_index in He.
      destruct (_ <? 0); [done|]. apply list_elem_of_lookup. eauto.
    + unfold recalled. rewrite He. cbn [default].
      destruct (at_index (savedCommands env) _) as [saved|]; [|by left].
      destruct (negb (isInAiMode env) && _ && _); [by right|by left].
  - intros Hi. unfold arrow_up.
    replace (0 <? Z.of_nat (length (historyCommands h))) with true
      by (symmetry; apply Z.ltb_lt; lia).
    replace (historyIndex h <? Z.of_nat (length (historyCommands h)) - 1)
      with true by (symmetry; apply Z.ltb_lt; lia).
    unfold arrow_down. cbn [historyIndex historyCommands].
    replace (0 <? historyIndex h + 1) with true by (symmetry; apply Z.ltb_lt; lia).
    cbn [historyIndex currentCommand].
    replace (historyIndex h + 1 - 1) with (historyIndex h) by lia.
    split; [done|]. reflexivity.
Qed.

End MoreInterpreter.

(** *** Concrete runs of the above *)

Ltac is_word := split; [done|repeat constructor].
Ltac not_in := intros Hin%(bool_decide_pack _); vm_compute in Hin; done.

Lemma parseCommand_quoted_argument_witness :
  parseCommand lower (js "CAT " ++ dquote :: js "my file.txt" ++ [dquote])
  = Some (js "cat", [js "my file.txt"]).
Proof.
  apply (parseCommand_quoted_argument lower (js "CAT") (js "my file.txt") dquote).
  - is_word.
  - by left.
  - done.
  - not_in.
Defined.

Lemma echo_returns_its_words_witness :
  processCommand lower no_history in_documents (js "echo hello big world")
  = Some (mkResult (js "hello big world") false []).
Proof.
  apply (echo_returns_its_words lower no_history in_documents
           [js "hello"; js "big"; js "world"]).
  - reflexivity.
  - repeat (apply Forall_cons_2; [is_word|]). apply Forall_nil_2.
Defined.

Lemma parseCommand_throws_only_without_words_witness :
  (∃ cmd args, parseCommand lower (js " 'ls") = Some (cmd, args))
  ∧ parseCommand lower [squote; dquote] = None.
Proof.
  split; [|reflexivity].
  apply (parseCommand_throws_only_without_words lower (js " 'ls")).
  exists 108%N. split; [|reflexivity].
  apply (bool_decide_unpack _). vm_compute. exact I.
Defined.

Definition docs_dir : FileItem :=
  mkFile (js "Documents") (js "/Documents") true NoContent.
Definition at_root : Env :=
  mkEnv (js "/") [docs_dir; notes] false [] (js "Mon").

Lemma failed_commands_make_no_call_witness :
  ∃ r, processCommand lower no_history at_root (js "rm nothing") = Some r
       ∧ isError r = true ∧ effects r = [].
Proof.
  eexists. split; [reflexivity|]. split; [reflexivity|].
  apply (failed_commands_make_no_call lower no_history at_root (js "rm nothing"));
    reflexivity.
Defined.

Lemma cd_goes_only_to_directories_witness :
  cd at_root [js "Documents"] = mkResult [] false [NavigateToPath (js "/Documents")]
  ∧ output (cd at_root [js "notes.txt"]) = js "cd: notes.txt: no such directory"
  ∧ effects (cd at_root [js "notes.txt"]) = [].
Proof.
  split; [reflexivity|].
  assert (Hne : js "notes.txt" ≠ js "..") by done.
  destruct (cd_goes_only_to_directories at_root (js "notes.txt") [] Hne)
    as [_ Herr].
  apply Herr. reflexivity.
Defined.

Definition two_commands : History := mkHistory (-1) [js "ls"; js "pwd"] (js "typed").

Lemma history_keys_stay_in_range_witness :
  arrow_up at_root two_commands = mkHistory 0 [js "ls"; js "pwd"] (js "pwd")
  ∧ arrow_up at_root (arrow_up at_root two_commands)
    = mkHistory 1 [js "ls"; js "pwd"] (js "ls")
  ∧ index_in_range (arrow_up at_root (arrow_up at_root (arrow_up at_root two_commands))).
Proof.
  split; [reflexivity|]. split; [reflexivity|].
  assert (H0 : index_in_range two_commands) by (unfold index_in_range; simpl; lia).
  pose proof (history_keys_stay_in_range at_root _ H0) as (H1 & _).
  pose proof (history_keys_stay_in_range at_root _ H1) as (H2 & _).
  pose proof (history_keys_stay_in_range at_root _ H2) as (H3 & _).
  exact H3.
Defined.

(** *** Completion *)

Section Completion.
Variable toLowerCase : jsstring → jsstring.

(** The commands whose last argument is completed to a file name. *)
Definition file_commands : list jsstring :=
  js <$> ["cd"; "cat"; "rm"; "edit"; "vim"]%string.

(** [autoComplete(input)]: [None] when [parseCommand] throws; otherwise the
    command line it returns, with the line of matches that it adds to the
    command history when there are several. *)
Definition autoComplete (env : Env) (input : jsstring)
  : option (jsstring * option jsstring) :=
  if ends_with (js " ") input then Some (input, None)
  else
    match parseCommand toLowerCase input with
    | None => None
    | Some (cmd, args) =>
        if negb (includes 32%N input) then
          let matches :=
            List.filter (λ availableCmd, starts_with cmd availableCmd)
              AVAILABLE_COMMANDS in
          match matches with
          | [only] => Some (only, None)
          | _ :: _ :: _ => Some (input, Some (join (js "  ") matches))
          | [] => Some (input, None)
          end
        else if bool_decide (cmd ∈ file_commands) then
          let lastArg := default [] (last args) in
          let matches :=
            name <$>
              List.filter
                (λ file, starts_with (toLowerCase lastArg)
                           (toLowerCase (name file)))
                (files env) in
          match matches with
          | [matchedName] =>
              let needsQuotes := includes 32%N matchedName in
              let commandParts := slice_init (split 32%N input) in
              let completed :=
                if needsQuotes && negb (starts_with [dquote] lastArg)
                   && negb (starts_with [squote] lastArg)
                then [dquote] ++ matchedName ++ [dquote]
                else matchedName in
              Some (join (js " ") (commandParts ++ [completed]), None)
          | _ :: _ :: _ => Some (input, Some (join (js "  ") matches))
          | [] => Some (input, None)
          end
        else Some (input, None)
    end.

(** [autoComplete] throws only where [parseCommand] does. *)
Lemma autoComplete_throws env input :
  autoComplete env input = None → parseCommand toLowerCase input = None.
Proof.
  unfold autoComplete. destruct (ends_with (js " ") input); [done|].
  destruct (parseCommand toLowerCase input) as [[cmd args]|]; [|done].
  destruct (negb (includes 32%N input)).
  - by destruct (List.filter _ AVAILABLE_COMMANDS) as [|? [|? ?]].
  - destruct (bool_decide (cmd ∈ file_commands)); [|done].
    by destruct (name <$> List.filter _ (files env)) as [|? [|? ?]].
Qed.

End Completion.

End Terminal.

(** ** The vim mode of the terminal (handleKeyDown and its helpers) *)

Module Vim.
Import JS.

Inductive VimMode := ModeNormal | ModeCommand | ModeInsert.

Record VimFile := mkVimFile { name : jsstring; content : jsstring }.

(** The state the key handler reads and writes.  The clipboard is [None]
    when it holds [undefined]; the two refs remember the last [d] or [y] and
    the last [g]; the command line and the history index and commands are
    those of the terminal, which the keys that the vim mode does not take
    work on. *)
Record State := mkState {
  isInVimMode : bool;
  vimFile : option VimFile;
  vimPosition : nat;
  vimCursorLine : nat;
  vimCursorColumn : nat;
  vimMode : VimMode;
  vimClipboard : option jsstring;
  lastKeyPressRef : jsstring * Z;
  lastGPressTimeRef : Z;
  currentCommand : jsstring;
  historyIndex : Z;
  historyCommands : list jsstring
}.

Definition setIsInVimMode (v : bool) (s : State) : State :=
  mkState v (vimFile s) (vimPosition s) (vimCursorLine s) (vimCursorColumn s)
    (vimMode s) (vimClipboard s) (lastKeyPressRef s) (lastGPressTimeRef s)
    (currentCommand s) (historyIndex s) (historyCommands s).
Definition setVimFile (v : option VimFile) (s : State) : State :=
  mkState (isInVimMode s) v (vimPosition s) (vimCursorLine s)
    (vimCursorColumn s) (vimMode s) (vimClipboard s) (lastKeyPressRef s)
    (lastGPressTimeRef s) (currentCommand s) (historyIndex s) (historyCommands s).
Definition setVimPosition (v : nat) (s : State) : State :=
  mkState (isInVimMode s) (vimFile s) v (vimCursorLine s) (vimCursorColumn s)
    (vimMode s) (vimClipboard s) (lastKeyPressRef s) (lastGPressTimeRef s)
    (currentCommand s) (historyIndex s) (historyCommands s).
Definition setVimCursorLine (v : nat) (s : State) : State :=
  mkState (isInVimMode s) (vimFile s) (vimPosition s) v (vimCursorColumn s)
    (vimMode s) (vimClipboard s) (lastKeyPressRef s) (lastGPressTimeRef s)
    (currentCommand s) (historyIndex s) (historyCommands s).
Definition setVimCursorColumn (v : nat) (s : State) : State :=
  mkState (isInVimMode s) (vimFile s) (vimPosition s) (vimCursorLine s) v
    (vimMode s) (vimClipboard s) (lastKeyPressRef s) (lastGPressTimeRef s)
    (currentCommand s) (historyIndex s) (historyCommands s).
Definition setVimMode (v : VimMode) (s : State) : State :=
  mkState (isInVimMode s) (vimFile s) (vimPosition s) (vimCursorLine s)
    (vimCursorColumn s) v (vimClipboard s) (lastKeyPressRef s)
    (lastGPressTimeRef s) (currentCommand s) (historyIndex s) (historyCommands s).
Definition setVimClipboard (v : option jsstring) (s : State) : State :=
  mkState (isInVimMode s) (vimFile s) (vimPosition s) (vimCursorLine s)
    (vimCursorColumn s) (vimMode s) v (lastKeyPressRef s)
    (lastGPressTimeRef s) (currentCommand s) (historyIndex s) (historyCommands s).
Definition setLastKeyPress (v : jsstring * Z) (s : State) : State :=
  mkState (isInVimMode s) (vimFile s) (vimPosition s) (vimCursorLine s)
    (vimCursorColumn s) (vimMode s) (vimClipboard s) v
    (lastGPressTimeRef s) (currentCommand s) (historyIndex s) (historyCommands s).
Definition setLastGPressTime (v : Z) (s : State) : State :=
  mkState (isInVimMode s) (vimFile s) (vimPosition s) (vimCursorLine s)
    (vimCursorColumn s) (vimMode s) (vimClipboard s) (lastKeyPressRef s)
    v (currentCommand s) (historyIndex s) (historyCommands s).
Definition setCurrentCommand (v : jsstring) (s : State) : State :=
  mkState (isInVimMode s) (vimFile s) (vimPosition s) (vimCursorLine s)
    (vimCursorColumn s) (vimMode s) (vimClipboard s) (lastKeyPressRef s)
    (lastGPressTimeRef s) v (historyIndex s) (historyCommands s).

Definition setHistoryIndex (v : Z) (s : State) : State :=
  mkState (isInVimMode s) (vimFile s) (vimPosition s) (vimCursorLine s)
    (vimCursorColumn s) (vimMode s) (vimClipboard s) (lastKeyPressRef s)
    (lastGPressTimeRef s) (currentCommand s) v (historyCommands s).

(** [setVimFile({ ...vimFile, content: newLines.join("\n") })]. *)
Definition setLines (f : VimFile) (newLines : list jsstring) (s : State) : State :=
  setVimFile (Some (mkVimFile (name f) (join [nl] newLines))) s.

(** A key event, with the value [Date.now()] has when it is handled. *)
Record KeyboardEvent := mkKey { key : jsstring; ctrlKey : bool; now : Z }.

(** A handler returns, or throws after the updates it has made. *)
Inductive Outcome := Done (s : State) | Threw (s : State).

Definition state_of (o : Outcome) : State :=
  match o with Done s | Threw s => s end.

Definition key_is (k : string) (e : KeyboardEvent) : bool := key e =j js k.

(** [lines[i] || ""] and [lines[i]?.length || 0]. *)
Definition line_at (lines : list jsstring) (i : nat) : jsstring :=
  default [] (lines !! i).
Definition length_at (lines : list jsstring) (i : nat) : nat :=
  length (line_at lines i).

Definition maxVisibleLines : nat := 20.
Definition lowerThreshold : Z := 8.
Definition upperThreshold : Z := 12.
Definition halfScreen : nat := 10.

(** [Math.max(0, lines.length - maxVisibleLines)]. *)
Definition maxPosition (lines : list jsstring) : nat :=
  (length lines - maxVisibleLines)%nat.

(** The auto-scroll after the cursor went down to [line], or up to it. *)
Definition scroll_down (line maxPos : nat) (s : State) : State :=
  if (upperThreshold <? Z.of_nat line - Z.of_nat (vimPosition s))
     && (vimPosition s <? maxPos)%nat
  then setVimPosition (Nat.min (vimPosition s + 1) maxPos) s else s.

Definition scroll_up (line : Z) (s : State) : State :=
  if (line - Z.of_nat (vimPosition s) <? lowerThreshold)
     && (0 <? vimPosition s)%nat
  then setVimPosition (Nat.max (vimPosition s - 1) 0) s else s.

(** The cursor goes one line down, or up; reading the length of a line that
    is not there throws. *)
Definition cursor_down (lines : list jsstring) (s : State) : Outcome :=
  let newCursorLine := (vimCursorLine s + 1)%nat in
  let s1 := setVimCursorLine newCursorLine s in
  match lines !! newCursorLine with
  | None => Threw s1
  | Some l =>
      let newLineLength := length l in
      let s2 :=
        if (newLineLength <? vimCursorColumn s)%nat
        then setVimCursorColumn (Nat.max 0 newLineLength) s1 else s1 in
      Done (scroll_down newCursorLine (maxPosition lines) s2)
  end.

Definition cursor_up (lines : list jsstring) (s : State) : Outcome :=
  let newCursorLine := (vimCursorLine s - 1)%nat in
  let s1 := setVimCursorLine newCursorLine s in
  match lines !! newCursorLine with
  | None => Threw s1
  | Some l =>
      let newLineLength := length l in
      let s2 :=
        if (newLineLength <? vimCursorColumn s)%nat
        then setVimCursorColumn (Nat.max 0 newLineLength) s1 else s1 in
      Done (scroll_up (Z.of_nat newCursorLine) s2)
  end.

Definition cursor_right (lines : list jsstring) (s : State) : State :=
  if (vimCursorColumn s <? length_at lines (vimCursorLine s))%nat
  then setVimCursorColumn (vimCursorColumn s + 1) s else s.

(** *** Insert mode *)

Definition insert_backspace (f : VimFile) (s : State) : Outcome :=
  let lines := split nl (content f) in
  let line := vimCursorLine s in
  let col := vimCursorColumn s in
  if (col =? 0)%nat && (0 <? line)%nat then
    match lines !! (line - 1)%nat with
    | None => Threw s
    | Some previousLine =>
        let currentLine :=
          match lines !! line with Some l => l | None => js "undefined" end in
        let lines1 := array_set lines (line - 1) (previousLine ++ currentLine) in
        let lines2 := splice lines1 (Z.of_nat line) 1 [] in
        Done (scroll_up (Z.of_nat line - 1)
                (setVimCursorColumn (length previousLine)
                   (setVimCursorLine (line - 1) (setLines f lines2 s))))
    end
  else if (0 <? col)%nat then
    let currentLine := line_at lines line in
    let newLine :=
      substring currentLine 0 (col - 1) ++ substring_from currentLine col in
    Done (setVimCursorColumn (Nat.max 0 (col - 1))
            (setLines f (array_set lines line newLine) s))
  else Done s.

Definition insert_enter (f : VimFile) (s : State) : Outcome :=
  let lines := split nl (content f) in
  let line := vimCursorLine s in
  let col := vimCursorColumn s in
  let currentLine := line_at lines line in
  let beforeCursor := substring currentLine 0 col in
  let afterCursor := substring_from currentLine col in
  let lines1 := array_set lines line beforeCursor in
  let lines2 := splice lines1 (Z.of_nat line + 1) 0 [afterCursor] in
  Done (scroll_down (line + 1) (maxPosition lines2)
          (setVimCursorColumn 0
             (setVimCursorLine (line + 1) (setLines f lines2 s)))).

Definition insert_tab (f : VimFile) (s : State) : Outcome :=
  let lines := split nl (content f) in
  let line := vimCursorLine s in
  let col := vimCursorColumn s in
  let currentLine := line_at lines line in
  let newLine :=
    substring currentLine 0 col ++ js "  " ++ substring_from currentLine col in
  Done (setVimCursorColumn (col + 2)
          (setLines f (array_set lines line newLine) s)).

Definition insert_delete (f : VimFile) (s : State) : Outcome :=
  let lines := split nl (content f) in
  let line := vimCursorLine s in
  let col := vimCursorColumn s in
  let currentLine := line_at lines line in
  if (col =? length currentLine)%nat && (line + 1 <? length lines)%nat then
    let nextLine := line_at lines (line + 1) in
    let lines1 := array_set lines line (currentLine ++ nextLine) in
    let lines2 := splice lines1 (Z.of_nat line + 1) 1 [] in
    Done (setLines f lines2 s)
  else if (col <? length currentLine)%nat then
    let newLine :=
      substring currentLine 0 col ++ substring_from currentLine (col + 1) in
    Done (setLines f (array_set lines line newLine) s)
  else Done s.

Definition insert_arrows (f : VimFile) (e : KeyboardEvent) (s : State) : Outcome :=
  let lines := split nl (content f) in
  if key_is "ArrowDown" e && (vimCursorLine s + 1 <? length lines)%nat
  then cursor_down lines s
  else if key_is "ArrowUp" e && (0 <? vimCursorLine s)%nat
  then cursor_up lines s
  else if key_is "ArrowLeft" e && (0 <? vimCursorColumn s)%nat
  then Done (setVimCursorColumn (vimCursorColumn s - 1) s)
  else if key_is "ArrowRight" e then Done (cursor_right lines s)
  else Done s.

(** The insert-mode branch of [handleKeyDown]. *)
Definition insert_key (e : KeyboardEvent) (s : State) : Outcome :=
  let with_file (h : VimFile → State → Outcome) :=
    match vimFile s with Some f => h f s | None => Done s end in
  if key_is "Escape" e then Done (setVimMode ModeNormal s)
  else if key_is "Backspace" e then with_file insert_backspace
  else if key_is "Enter" e then with_file insert_enter
  else if key_is "Tab" e then with_file insert_tab
  else if key_is "Delete" e then with_file insert_delete
  else if key_is "Home" e then Done (setVimCursorColumn 0 s)
  else if key_is "End" e then
    with_file (λ f s,
      Done (setVimCursorColumn
              (length (line_at (split nl (content f)) (vimCursorLine s))) s))
  else if key_is "ArrowUp" e || key_is "ArrowDown" e || key_is "ArrowLeft" e
          || key_is "ArrowRight" e
  then with_file (λ f s, insert_arrows f e s)
  else Done s.

(** *** Normal mode *)

(** The class [\w]. *)
Definition is_word (c : N) : bool :=
  ((48 <=? c) && (c <=? 57) || (65 <=? c) && (c <=? 90)
   || (97 <=? c) && (c <=? 122) || (c =? 95))%N.

(** A match of [/\b\w/] at index [i]: a word character with no word
    character before it. *)
Definition word_start (line : jsstring) (i : nat) : bool :=
  match line !! i with
  | Some c =>
      is_word c
      && match i with
         | O => true
         | S j => match line !! j with Some d => negb (is_word d) | None => true end
         end
  | None => false
  end.

(** [wordRegex.exec(currentLine)] with [lastIndex] set: the index of the
    first match at or behind it. *)
Definition next_word (line : jsstring) (lastIndex : nat) : option nat :=
  head (List.filter (word_start line) (seq lastIndex (length line - lastIndex))).

(** [/\w/.test(line[i])] and [/\W/.test(line[i])]; behind the end they test
    the text of [undefined]. *)
Definition test_w (line : jsstring) (i : nat) : bool :=
  match line !! i with Some c => is_word c | None => true end.
Definition test_W (line : jsstring) (i : nat) : bool :=
  match line !! i with Some c => negb (is_word c) | None => false end.

(** The [while (position > 0)] loop of the [b] motion. *)
Fixpoint prev_word (line : jsstring) (position : nat) : option nat :=
  match position with
  | O => None
  | S p =>
      if test_w line position && test_W line p then Some position
      else prev_word line p
  end.

Definition motion_w (lines : list jsstring) (s : State) : Outcome :=
  let currentLine := line_at lines (vimCursorLine s) in
  match next_word currentLine (vimCursorColumn s + 1) with
  | Some index => Done (setVimCursorColumn index s)
  | None =>
      if (vimCursorLine s + 1 <? length lines)%nat then
        Done (scroll_down (vimCursorLine s + 1) (maxPosition lines)
                (setVimCursorColumn 0 (setVimCursorLine (vimCursorLine s + 1) s)))
      else Done s
  end.

Definition motion_b (lines : list jsstring) (s : State) : Outcome :=
  let currentLine := line_at lines (vimCursorLine s) in
  if (vimCursorColumn s =? 0)%nat && (0 <? vimCursorLine s)%nat then
    let prevLineLength := length_at lines (vimCursorLine s - 1) in
    Done (scroll_up (Z.of_nat (vimCursorLine s) - 1)
            (setVimCursorColumn prevLineLength
               (setVimCursorLine (vimCursorLine s - 1) s)))
  else
    match (if (vimCursorColumn s =? 0)%nat then None
           else prev_word currentLine (vimCursorColumn s - 1)) with
    | Some position => Done (setVimCursorColumn position s)
    | None => Done (setVimCursorColumn 0 s)
    end.

Definition adjust_column (lines : list jsstring) (newCursorLine : nat)
    (s : State) : State :=
  let newLineLength := length_at lines newCursorLine in
  if (newLineLength <? vimCursorColumn s)%nat
  then setVimCursorColumn (Nat.max 0 newLineLength) s else s.

(** [dd]: the second [d] within half a second of the first. *)
Definition key_d (f : VimFile) (lines : list jsstring) (e : KeyboardEvent)
    (s : State) : Outcome :=
  let lastKey := lastKeyPressRef s in
  let s := setLastKeyPress (js "d", now e) s in
  if (lastKey.1 =j js "d") && (now e - lastKey.2 <? 500) then
    let s :=
      if (1 <? length lines)%nat then
        let s := setVimClipboard (lines !! vimCursorLine s) s in
        let newLines := splice lines (Z.of_nat (vimCursorLine s)) 1 [] in
        let s := setLines f newLines s in
        let s :=
          if (length newLines <=? vimCursorLine s)%nat
          then setVimCursorLine (Nat.max 0 (length newLines - 1)) s else s in
        setVimCursorColumn 0 s
      else
        let s := setVimClipboard (lines !! 0%nat) s in
        let newLines := [[]] in
        setVimCursorColumn 0 (setLines f newLines s) in
    Done (setLastKeyPress ([], 0) s)
  else Done s.

(** [yy]. *)
Definition key_y (lines : list jsstring) (e : KeyboardEvent) (s : State)
  : Outcome :=
  let lastKey := lastKeyPressRef s in
  let s := setLastKeyPress (js "y", now e) s in
  if (lastKey.1 =j js "y") && (now e - lastKey.2 <? 500) then
    Done (setLastKeyPress ([], 0)
            (setVimClipboard (lines !! vimCursorLine s) s))
  else Done s.

Definition key_p (f : VimFile) (lines : list jsstring) (s : State) : Outcome :=
  match vimClipboard s with
  | Some clip =>
      if truthy clip then
        let newLines := splice lines (Z.of_nat (vimCursorLine s) + 1) 0 [clip] in
        Done (scroll_down (vimCursorLine s + 1) (maxPosition lines)
                (setVimCursorColumn 0
                   (setVimCursorLine (vimCursorLine s + 1)
                      (setLines f newLines s))))
      else Done s
  | None => Done s
  end.

(** The keys that the normal-mode branch takes. *)
Definition is_vim_key (e : KeyboardEvent) : bool :=
  existsb (λ k, key_is k e)
    ["j"; "k"; "ArrowUp"; "ArrowDown"; "ArrowLeft"; "ArrowRight"; "h"; "l";
     "0"; "$"; "w"; "b"; "g"; "G"; "a"; "o"; "O"; "d"; "y"; "p"]%string
  || (key_is "d" e && ctrlKey e) || (key_is "u" e && ctrlKey e).

(** The branch for these keys, outside insert mode. *)
Definition normal_key (f : VimFile) (e : KeyboardEvent) (s : State) : Outcome :=
  let lines := split nl (content f) in
  let line := vimCursorLine s in
  let col := vimCursorColumn s in
  if (key_is "j" e || key_is "ArrowDown" e) && (line + 1 <? length lines)%nat
  then cursor_down lines s
  else if (key_is "k" e || key_is "ArrowUp" e) && (0 <? line)%nat
  then cursor_up lines s
  else if (key_is "ArrowLeft" e || key_is "h" e) && (0 <? col)%nat
  then Done (setVimCursorColumn (col - 1) s)
  else if key_is "ArrowRight" e || key_is "l" e then Done (cursor_right lines s)
  else if key_is "0" e then Done (setVimCursorColumn 0 s)
  else if key_is "$" e
  then Done (setVimCursorColumn (Nat.max 0 (length_at lines line)) s)
  else if key_is "w" e then motion_w lines s
  else if key_is "b" e then motion_b lines s
  else if key_is "g" e then
    let lastGPress := lastGPressTimeRef s in
    let s := setLastGPressTime (now e) s in
    if now e - lastGPress <? 500 then
      Done (setLastGPressTime 0
              (setVimPosition 0 (setVimCursorColumn 0 (setVimCursorLine 0 s))))
    else Done s
  else if key_is "G" e then
    Done (setVimPosition (maxPosition lines)
            (setVimCursorColumn 0
               (setVimCursorLine (Nat.max 0 (length lines - 1)) s)))
  else if key_is "d" e && ctrlKey e then
    let newPosition := Nat.min (vimPosition s + halfScreen) (maxPosition lines) in
    (* Math.min(vimCursorLine + halfScreen, lines.length - 1) *)
    let newCursorLine := Z.to_nat (Z.min (Z.of_nat (line + halfScreen))
                                         (Z.of_nat (length lines) - 1)) in
    Done (adjust_column lines newCursorLine
            (setVimCursorLine newCursorLine (setVimPosition newPosition s)))
  else if key_is "u" e && ctrlKey e then
    let newPosition := Nat.max (vimPosition s - halfScreen) 0 in
    let newCursorLine := Nat.max (line - halfScreen) 0 in
    Done (adjust_column lines newCursorLine
            (setVimCursorLine newCursorLine (setVimPosition newPosition s)))
  else if key_is "a" e then
    Done (cursor_right lines (setVimMode ModeInsert s))
  else if key_is "o" e then
    let newLines := splice lines (Z.of_nat line + 1) 0 [[]] in
    Done (scroll_down (line + 1) (maxPosition lines)
            (setVimMode ModeInsert
               (setVimCursorColumn 0
                  (setVimCursorLine (line + 1) (setLines f newLines s)))))
  else if key_is "O" e then
    let newLines := splice lines (Z.of_nat line) 0 [[]] in
    Done (setVimMode ModeInsert (setVimCursorColumn 0 (setLines f newLines s)))
  else if key_is "d" e then key_d f lines e s
  else if key_is "y" e then key_y lines e s
  else if key_is "p" e then key_p f lines s
  else Done s.

(** *** Commands and typed text *)

(** [handleVimInput(input)], on the vim state. *)
Definition handleVimInput (input : jsstring) (s : State) : State :=
  if starts_with (js ":") input then
    setCurrentCommand []
      (if (input =j js ":q") || (input =j js ":q!") || (input =j js ":wq")
       then setVimMode ModeNormal
              (setVimPosition 0 (setVimFile None (setIsInVimMode false s)))
       else s)
  else if (input =j js "j") || (input =j js "k") then
    match vimFile s with
    | None => s
    | Some f =>
        let lines := split nl (content f) in
        setCurrentCommand []
          (if (input =j js "j") && (vimPosition s <? maxPosition lines)%nat
           then setVimPosition (vimPosition s + 1) s
           else if (input =j js "k") && (0 <? vimPosition s)%nat
           then setVimPosition (vimPosition s - 1) s
           else s)
    end
  else setCurrentCommand [] s.

(** [handleVimTextInput(e)], where [inputText] is [e.target.value]. *)
Definition handleVimTextInput (inputText : jsstring) (s : State) : State :=
  match vimFile s, vimMode s with
  | Some f, ModeInsert =>
      if isInVimMode s then
        let lastChar := drop (length inputText - 1) inputText in
        let lines := split nl (content f) in
        let currentLine := line_at lines (vimCursorLine s) in
        let newLine :=
          substring currentLine 0 (vimCursorColumn s) ++ lastChar
          ++ substring_from currentLine (vimCursorColumn s) in
        setCurrentCommand []
          (setVimCursorColumn (vimCursorColumn s + 1)
             (setLines f (array_set lines (vimCursorLine s) newLine) s))
      else s
  | _, _ => s
  end.

(** The array of lines of the buffer, when a file is open. *)
Definition buffer (s : State) : option (list jsstring) :=
  (λ f, split nl (content f)) <$> vimFile s.

(** *** The cursor stays in the buffer *)

(** The cursor line is a line of the buffer. *)
Definition cursor_in_buffer (s : State) : Prop :=
  match buffer s with
  | Some lines => (vimCursorLine s < length lines)%nat
  | None => True
  end.

(** A handler returns, with the cursor on a line of the buffer. *)
Definition stays_in_buffer (o : Outcome) : Prop :=
  ∃ s', o = Done s' ∧ cursor_in_buffer s'.

Lemma scroll_down_file l m s : vimFile (scroll_down l m s) = vimFile s.
Proof. unfold scroll_down. by destruct (_ && _). Qed.
Lemma scroll_down_line l m s : vimCursorLine (scroll_down l m s) = vimCursorLine s.
Proof. unfold scroll_down. by destruct (_ && _). Qed.
Lemma scroll_up_file l s : vimFile (scroll_up l s) = vimFile s.
Proof. unfold scroll_up. by destruct (_ && _). Qed.
Lemma scroll_up_line l s : vimCursorLine (scroll_up l s) = vimCursorLine s.
Proof. unfold scroll_up. by destruct (_ && _). Qed.
Lemma cursor_right_file ls s : vimFile (cursor_right ls s) = vimFile s.
Proof. unfold cursor_right. by destruct (_ <? _)%nat. Qed.
Lemma cursor_right_line ls s : vimCursorLine (cursor_right ls s) = vimCursorLine s.
Proof. unfold cursor_right. by destruct (_ <? _)%nat. Qed.
Lemma adjust_column_file ls n s : vimFile (adjust_column ls n s) = vimFile s.
Proof. unfold adjust_column. by destruct (_ <? _)%nat. Qed.
Lemma adjust_column_line ls n s : vimCursorLine (adjust_column ls n s) = vimCursorLine s.
Proof. unfold adjust_column. by destruct (_ <? _)%nat. Qed.

Lemma in_buffer_same s s' :
  vimFile s' = vimFile s → vimCursorLine s' = vimCursorLine s →
  cursor_in_buffer s → cursor_in_buffer s'.
Proof. unfold cursor_in_buffer, buffer. by intros -> ->. Qed.

Lemma in_buffer_moved f s s' :
  vimFile s = Some f → vimFile s' = Some f →
  (vimCursorLine s' < length (split nl (content f)))%nat →
  cursor_in_buffer s'.
Proof. unfold cursor_in_buffer, buffer. intros _ -> H. done. Qed.

Lemma in_buffer_edited f newLines s' :
  vimFile s' = Some (mkVimFile (name f) (join [nl] newLines)) →
  (vimCursorLine s' < length newLines)%nat →
  cursor_in_buffer s'.
Proof.
  unfold cursor_in_buffer, buffer. intros -> H. simpl.
  pose proof (length_split_join nl newLines). lia.
Qed.

Lemma in_buffer_lt f s :
  vimFile s = Some f → cursor_in_buffer s →
  (vimCursorLine s < length (split nl (content f)))%nat.
Proof. unfold cursor_in_buffer, buffer. by intros ->. Qed.

Ltac projections :=
  rewrite ?scroll_down_file, ?scroll_down_line, ?scroll_up_file,
    ?scroll_up_line, ?cursor_right_file, ?cursor_right_line,
    ?adjust_column_file, ?adjust_column_line;
  cbn [vimFile vimCursorLine setVimFile setVimPosition setVimCursorLine
       setVimCursorColumn setVimMode setVimClipboard setLastKeyPress
       setLastGPressTime setCurrentCommand setIsInVimMode setLines].

Ltac same :=
  eexists; split; [reflexivity|];
  eapply in_buffer_same; [| |eassumption]; projections; reflexivity.

Lemma cursor_down_stays f s :
  vimFile s = Some f → cursor_in_buffer s →
  (vimCursorLine s + 1 <? length (split nl (content f)))%nat = true →
  stays_in_buffer (cursor_down (split nl (content f)) s).
Proof.
  intros Hf Hin Hlt%Nat.ltb_lt. unfold cursor_down.
  destruct (split nl (content f) !! (vimCursorLine s + 1)%nat) as [l|] eqn:Hl.
  - eexists. split; [reflexivity|].
    apply (in_buffer_moved f s); [done| |];
      destruct (_ <? _)%nat; projections; (done || lia).
  - apply lookup_ge_None in Hl. exfalso. lia.
Qed.

Lemma cursor_up_stays f s :
  vimFile s = Some f → cursor_in_buffer s →
  stays_in_buffer (cursor_up (split nl (content f)) s).
Proof.
  intros Hf Hin. pose proof (in_buffer_lt f s Hf Hin) as Hlt.
  unfold cursor_up.
  destruct (split nl (content f) !! (vimCursorLine s - 1)%nat) as [l|] eqn:Hl.
  - eexists. split; [reflexivity|].
    apply (in_buffer_moved f s); [done| |];
      destruct (_ <? _)%nat; projections; (done || lia).
  - apply lookup_ge_None in Hl. exfalso. lia.
Qed.

Lemma array_set_lt a i v : (i < length (array_set a i v))%nat.
Proof. rewrite length_array_set. lia. Qed.

Lemma insert_key_stays e s :
  cursor_in_buffer s → stays_in_buffer (insert_key e s).
Proof.
  intros Hin. unfold insert_key.
  destruct (key_is "Escape" e); [same|].
  destruct (key_is "Backspace" e).
  { destruct (vimFile s) as [f|] eqn:Hf; [|same].
    pose proof (in_buffer_lt f s Hf Hin) as Hlt.
    unfold insert_backspace.
    destruct ((vimCursorColumn s =? 0)%nat && (0 <? vimCursorLine s)%nat) eqn:C.
    - apply andb_true_iff in C as [_ Hpos%Nat.ltb_lt].
      destruct (split nl (content f) !! (vimCursorLine s - 1)%nat) as [prev|] eqn:Hp.
      + eexists. split; [reflexivity|].
        eapply (in_buffer_edited f); [projections; reflexivity|].
        projections. rewrite length_splice_one; rewrite length_array_set; lia.
      + apply lookup_ge_None in Hp. exfalso. lia.
    - destruct (0 <? vimCursorColumn s)%nat; [|same].
      eexists. split; [reflexivity|].
      eapply (in_buffer_edited f); [projections; reflexivity|].
      projections. apply array_set_lt. }
  destruct (key_is "Enter" e).
  { destruct (vimFile s) as [f|] eqn:Hf; [|same].
    pose proof (in_buffer_lt f s Hf Hin) as Hlt.
    unfold insert_enter. eexists. split; [reflexivity|].
    eapply (in_buffer_edited f); [projections; reflexivity|].
    projections. rewrite splice_length_zero, length_array_set. simpl. lia. }
  destruct (key_is "Tab" e).
  { destruct (vimFile s) as [f|] eqn:Hf; [|same].
    unfold insert_tab. eexists. split; [reflexivity|].
    eapply (in_buffer_edited f); [projections; reflexivity|].
    projections. apply array_set_lt. }
  destruct (key_is "Delete" e).
  { destruct (vimFile s) as [f|] eqn:Hf; [|same].
    pose proof (in_buffer_lt f s Hf Hin) as Hlt.
    unfold insert_delete.
    destruct ((vimCursorColumn s =? _)%nat && (vimCursorLine s + 1 <? _)%nat) eqn:C.
    - apply andb_true_iff in C as [_ Hnext%Nat.ltb_lt].
      eexists. split; [reflexivity|].
      eapply (in_buffer_edited f); [projections; reflexivity|].
      projections.
      replace (Z.of_nat (vimCursorLine s) + 1) with (Z.of_nat (vimCursorLine s + 1)) by lia.
      rewrite length_splice_one; rewrite length_array_set; lia.
    - destruct (vimCursorColumn s <? _)%nat; [|same].
      eexists. split; [reflexivity|].
      eapply (in_buffer_edited f); [projections; reflexivity|].
      projections. apply array_set_lt. }
  destruct (key_is "Home" e); [same|].
  destruct (key_is "End" e).
  { destruct (vimFile s) as [f|] eqn:Hf; same. }
  destruct (_ || _); [|same].
  destruct (vimFile s) as [f|] eqn:Hf; [|same].
  unfold insert_arrows.
  destruct (key_is "ArrowDown" e && _) eqn:C1.
  { apply andb_true_iff in C1 as [_ C1]. by apply cursor_down_stays. }
  destruct (key_is "ArrowUp" e && _); [by apply cursor_up_stays|].
  destruct (key_is "ArrowLeft" e && _); [same|].
  destruct (key_is "ArrowRight" e); same.
Qed.

Ltac moved f s :=
  eexists; split; [reflexivity|];
  apply (in_buffer_moved f s); [done|projections; done|projections].
Ltac edited f :=
  eexists; split; [reflexivity|];
  eapply (in_buffer_edited f); [projections; reflexivity|projections].

Lemma normal_key_stays f e s :
  vimFile s = Some f → cursor_in_buffer s →
  stays_in_buffer (normal_key f e s).
Proof.
  intros Hf Hin. pose proof (in_buffer_lt f s Hf Hin) as Hlt.
  pose proof (split_length_pos nl (content f)) as Hpos.
  unfold normal_key.
  destruct ((key_is "j" e || key_is "ArrowDown" e) && _) eqn:C1.
  { apply andb_true_iff in C1 as [_ C1]. by apply cursor_down_stays. }
  destruct ((key_is "k" e || key_is "ArrowUp" e) && _); [by apply cursor_up_stays|].
  destruct ((key_is "ArrowLeft" e || key_is "h" e) && _); [same|].
  destruct (key_is "ArrowRight" e || key_is "l" e); [same|].
  destruct (key_is "0" e); [same|].
  destruct (key_is "$" e); [same|].
  destruct (key_is "w" e).
  { unfold motion_w. destruct (next_word _ _); [same|].
    destruct (vimCursorLine s + 1 <? _)%nat eqn:C; [|same].
    apply Nat.ltb_lt in C. moved f s. done. }
  destruct (key_is "b" e).
  { unfold motion_b.
    destruct ((vimCursorColumn s =? 0)%nat && (0 <? vimCursorLine s)%nat).
    - moved f s. lia.
    - destruct (if (vimCursorColumn s =? 0)%nat then None else _); same. }
  destruct (key_is "g" e).
  { destruct (now e - lastGPressTimeRef s <? 500); [|same]. moved f s. lia. }
  destruct (key_is "G" e); [moved f s; lia|].
  destruct (key_is "d" e && ctrlKey e).
  { moved f s. unfold halfScreen. lia. }
  destruct (key_is "u" e && ctrlKey e); [moved f s; lia|].
  destruct (key_is "a" e); [same|].
  destruct (key_is "o" e).
  { edited f. rewrite splice_length_zero. simpl. lia. }
  destruct (key_is "O" e).
  { edited f. rewrite splice_length_zero. simpl. lia. }
  destruct (key_is "d" e).
  { unfold key_d.
    destruct (((lastKeyPressRef s).1 =j js "d") && _); [|same].
    projections.
    destruct (1 <? length (split nl (content f)))%nat eqn:C.
    - apply Nat.ltb_lt in C.
      pose proof (length_splice_one (split nl (content f)) (vimCursorLine s) Hlt) as Hlen.
      destruct (length (splice (split nl (content f))
                         (Z.of_nat (vimCursorLine s)) 1 []) <=? vimCursorLine s)%nat eqn:C2.
      + edited f. lia.
      + apply Nat.leb_gt in C2. edited f. lia.
    - apply Nat.ltb_ge in C. edited f. simpl. lia. }
  destruct (key_is "y" e).
  { unfold key_y. destruct (((lastKeyPressRef s).1 =j js "y") && _); same. }
  destruct (key_is "p" e); [|same].
  unfold key_p. destruct (vimClipboard s) as [clip|]; [|same].
  destruct (truthy clip); [|same].
  edited f. rewrite splice_length_zero. simpl. lia.
Qed.

Lemma handleVimInput_stays input s :
  cursor_in_buffer s → cursor_in_buffer (handleVimInput input s).
Proof.
  intros Hin. unfold handleVimInput.
  destruct (starts_with (js ":") input).
  - destruct (_ || _); [done|].
    eapply in_buffer_same; [| |exact Hin]; done.
  - destruct (_ || _).
    + destruct (vimFile s) as [f|] eqn:Hf; [|done].
      destruct (_ && _).
      * eapply in_buffer_same; [| |exact Hin]; done.
      * destruct (_ && _); eapply in_buffer_same; [| |exact Hin| | |exact Hin]; done.
    + eapply in_buffer_same; [| |exact Hin]; done.
Qed.

Lemma handleVimTextInput_stays inputText s :
  cursor_in_buffer s → cursor_in_buffer (handleVimTextInput inputText s).
Proof.
  intros Hin. unfold handleVimTextInput.
  destruct (vimFile s) as [f|] eqn:Hf; [|done].
  destruct (vimMode s); try done.
  destruct (isInVimMode s); [|done].
  eapply (in_buffer_edited f); [projections; reflexivity|].
  projections. apply array_set_lt.
Qed.

Definition is_command (m : VimMode) : bool :=
  match m with ModeCommand => true | _ => false end.

Section Handler.

Variable toLowerCase : jsstring → jsstring.

(** What the history and completion keys read of the terminal: the files,
    the saved commands and the assistant mode. *)
Variable env : Terminal.Env.

Definition history_of (s : State) : Terminal.History :=
  Terminal.mkHistory (historyIndex s) (historyCommands s) (currentCommand s).

(** [setHistoryIndex(...)] and [setCurrentCommand(...)]. *)
Definition set_history (h : Terminal.History) (s : State) : State :=
  setCurrentCommand (Terminal.currentCommand h)
    (setHistoryIndex (Terminal.historyIndex h) s).

(** The history and completion keys of the terminal, which the keys that
    the vim mode does not take fall through to.  [Tab] completes the
    command line, and throws where [parseCommand] throws on it. *)
Definition terminal_keys (e : KeyboardEvent) (s : State) : Outcome :=
  if key_is "ArrowUp" e
  then Done (set_history (Terminal.arrow_up env (history_of s)) s)
  else if key_is "ArrowDown" e
  then Done (set_history (Terminal.arrow_down env (history_of s)) s)
  else if key_is "Tab" e then
    match Terminal.autoComplete toLowerCase env (currentCommand s) with
    | Some (completedCommand, _) => Done (setCurrentCommand completedCommand s)
    | None => Threw s
    end
  else Done s.

(** [handleKeyDown(e)], on the vim state. *)
Definition handleKeyDown (e : KeyboardEvent) (s : State) : Outcome :=
  if isInVimMode s then
    match vimMode s with
    | ModeInsert => insert_key e s
    | mode =>
        if is_vim_key e then
          match vimFile s with
          | Some f => normal_key f e s
          | None => Done s
          end
        else if key_is "i" e then Done (setVimMode ModeInsert s)
        else if key_is ":" e
        then Done (setCurrentCommand [] (setVimMode ModeCommand s))
        else if key_is "Escape" e && is_command mode
        then Done (setCurrentCommand [] (setVimMode ModeNormal s))
        else if key_is "Enter" e && is_command mode
        then Done (handleVimInput (js ":" ++ currentCommand s) s)
        else terminal_keys e s
    end
  else terminal_keys e s.

Lemma terminal_keys_fields e s :
  vimFile (state_of (terminal_keys e s)) = vimFile s
  ∧ vimCursorLine (state_of (terminal_keys e s)) = vimCursorLine s.
Proof.
  unfold terminal_keys.
  destruct (key_is "ArrowUp" e); [done|].
  destruct (key_is "ArrowDown" e); [done|].
  destruct (key_is "Tab" e); [|done].
  by destruct (Terminal.autoComplete _ _ _) as [[c shown]|].
Qed.

(** The terminal keys throw only for [Tab] on a command line on which
    [parseCommand] throws, before any update. *)
Lemma terminal_keys_throw e s s' :
  terminal_keys e s = Threw s' →
  s' = s ∧ key_is "Tab" e = true
  ∧ Terminal.parseCommand toLowerCase (currentCommand s) = None.
Proof.
  unfold terminal_keys.
  destruct (key_is "ArrowUp" e); [done|].
  destruct (key_is "ArrowDown" e); [done|].
  destruct (key_is "Tab" e); [|done].
  destruct (Terminal.autoComplete _ _ _) as [[c shown]|] eqn:E; [done|].
  intros [= <-]. split_and!; [done..|].
  by eapply Terminal.autoComplete_throws.
Qed.

(** A handler returns with the cursor on a line of the buffer, or it is
    the terminal keys that end it. *)
Definition stays_or_falls (e : KeyboardEvent) (s : State) (o : Outcome) : Prop :=
  stays_in_buffer o ∨ o = terminal_keys e s.

Lemma handleKeyDown_cases e s :
  cursor_in_buffer s → stays_or_falls e s (handleKeyDown e s).
Proof.
  intros Hin. unfold handleKeyDown, stays_or_falls.
  destruct (isInVimMode s); [|by right].
  assert (Hother : stays_or_falls e s
    (if is_vim_key e
     then match vimFile s with Some f => normal_key f e s | None => Done s end
     else if key_is "i" e then Done (setVimMode ModeInsert s)
     else if key_is ":" e then Done (setCurrentCommand [] (setVimMode ModeCommand s))
     else if key_is "Escape" e && is_command (vimMode s)
     then Done (setCurrentCommand [] (setVimMode ModeNormal s))
     else if key_is "Enter" e && is_command (vimMode s)
     then Done (handleVimInput (js ":" ++ currentCommand s) s)
     else terminal_keys e s)).
  { unfold stays_or_falls. destruct (is_vim_key e).
    - left. destruct (vimFile s) as [f|] eqn:Hf; [by apply normal_key_stays|same].
    - destruct (key_is "i" e); [left; same|].
      destruct (key_is ":" e); [left; same|].
      destruct (key_is "Escape" e && _); [left; same|].
      destruct (key_is "Enter" e && _); [|by right].
      left. eexists. split; [reflexivity|]. by apply handleVimInput_stays. }
  destruct (vimMode s); [exact Hother|exact Hother|].
  left. by apply insert_key_stays.
Qed.

(** No key takes the cursor off the buffer. *)
Lemma handleKeyDown_stays e s :
  cursor_in_buffer s → cursor_in_buffer (state_of (handleKeyDown e s)).
Proof.
  intros Hin. destruct (handleKeyDown_cases e s Hin) as [(s' & -> & Hs')| ->].
  - done.
  - destruct (terminal_keys_fields e s) as [Hf Hl].
    by apply (in_buffer_same s).
Qed.

(** The handler throws only in the terminal keys. *)
Lemma handleKeyDown_throws e s s' :
  cursor_in_buffer s → handleKeyDown e s = Threw s' →
  s' = s ∧ key_is "Tab" e = true
  ∧ Terminal.parseCommand toLowerCase (currentCommand s) = None
  ∧ (isInVimMode s = true → vimMode s ≠ ModeInsert).
Proof.
  intros Hin Hthrew.
  destruct (handleKeyDown_cases e s Hin) as [(s1 & Hdone & _)|Hfall].
  - congruence.
  - rewrite Hfall in Hthrew.
    destruct (terminal_keys_throw e s s' Hthrew) as (-> & Htab & Hparse).
    split_and!; [done..|].
    intros Hvim Hmode. unfold handleKeyDown in Hfall.
    rewrite Hvim, Hmode in Hfall. rewrite <- Hfall in Hthrew.
    destruct (insert_key_stays e s Hin) as (s1 & Hdone & _). congruence.
Qed.

(** *** Properties of the vim mode *)

Definition has_line (s : State) : Prop :=
  match buffer s with
  | Some lines => (1 <= length lines)%nat
  | None => True
  end.

(** A press of [d], without modifier, handled at time [t]. *)
Definition press_d (t : Z) : KeyboardEvent := mkKey (js "d") false t.

(** The state after [d] was pressed at [t1] and again at [t2]. *)
Definition dd (t1 t2 : Z) (s : State) : State :=
  state_of (handleKeyDown (press_d t2) (state_of (handleKeyDown (press_d t1) s))).

(** The first [d] does not itself end a [dd]. *)
Definition starts_dd (t1 : Z) (s : State) : Prop :=
  (lastKeyPressRef s).1 ≠ js "d" ∨ 500 <= t1 - (lastKeyPressRef s).2.

Ltac eval_keys :=
  repeat match goal with
  | |- context [key_is ?k (press_d ?t)] =>
      let b := eval vm_compute in (key_is k (press_d t)) in
      change (key_is k (press_d t)) with b
  end.

Lemma has_line_any s : has_line s.
Proof.
  unfold has_line, buffer. destruct (vimFile s); simpl; [|done].
  apply split_length_pos.
Qed.

Lemma normal_key_d f t s :
  normal_key f (press_d t) s = key_d f (split nl (content f)) (press_d t) s.
Proof. unfold normal_key. eval_keys. reflexivity. Qed.

Lemma handleKeyDown_d f t s :
  isInVimMode s = true → vimMode s = ModeNormal → vimFile s = Some f →
  handleKeyDown (press_d t) s = key_d f (split nl (content f)) (press_d t) s.
Proof.
  intros Hin Hmode Hfile. unfold handleKeyDown. rewrite Hin, Hmode, Hfile.
  change (is_vim_key (press_d t)) with true. cbn iota. apply normal_key_d.
Qed.

(** The first [d] of a [dd] only records the key and its time. *)
Lemma first_d f t1 s :
  isInVimMode s = true → vimMode s = ModeNormal → vimFile s = Some f →
  starts_dd t1 s →
  handleKeyDown (press_d t1) s = Done (setLastKeyPress (js "d", t1) s).
Proof.
  intros Hin Hmode Hfile Hstart. rewrite (handleKeyDown_d f) by done.
  unfold key_d. cbn [now press_d].
  destruct Hstart as [Hk|Ht].
  - unfold jseqb. by rewrite bool_decide_eq_false_2.
  - replace (t1 - (lastKeyPressRef s).2 <? 500) with false
      by (symmetry; apply Z.ltb_ge; lia).
    by rewrite andb_false_r.
Qed.

(** The second [d], within half a second. *)
Lemma second_d f t1 t2 s :
  isInVimMode s = true → vimMode s = ModeNormal → vimFile s = Some f →
  lastKeyPressRef s = (js "d", t1) → t2 - t1 < 500 →
  let lines := split nl (content f) in
  handleKeyDown (press_d t2) s
  = Done (setLastKeyPress ([], 0)
      (if (1 <? length lines)%nat then
         let newLines := splice lines (Z.of_nat (vimCursorLine s)) 1 [] in
         setVimCursorColumn 0
           ((if (length newLines <=? vimCursorLine s)%nat
             then setVimCursorLine (Nat.max 0 (length newLines - 1))
             else λ s, s)
              (setLines f newLines
                 (setVimClipboard (lines !! vimCursorLine s)
                    (setLastKeyPress (js "d", t2) s))))
       else
         setVimCursorColumn 0
           (setLines f [[]]
              (setVimClipboard (lines !! 0%nat)
                 (setLastKeyPress (js "d", t2) s))))).
Proof.
  intros Hin Hmode Hfile Hlast Ht lines.
  rewrite (handleKeyDown_d f) by done.
  unfold key_d. rewrite Hlast. cbn [now press_d fst snd].
  replace (t2 - t1 <? 500) with true by (symmetry; apply Z.ltb_lt; lia).
  change (js "d" =j js "d") with true. cbn [andb].
  fold lines. destruct (1 <? length lines)%nat; [|done].
  cbn [vimCursorLine setLastKeyPress setVimClipboard setLines setVimFile].
  by destruct (length (splice lines (Z.of_nat (vimCursorLine s)) 1 [])
               <=? vimCursorLine s)%nat.
Qed.

Lemma buffer_setLines f newLines s :
  newLines ≠ [] → Forall (λ l, nl ∉ l) newLines →
  buffer (setLines f newLines s) = Some newLines.
Proof.
  intros Hne Hall. unfold buffer, setLines. simpl. by rewrite split_join.
Qed.

(** C1, as the code has it.  In normal mode, [d] pressed twice within half
    a second on a buffer of more than one line deletes the line of the
    cursor from the array of lines and copies it into the clipboard, for
    every such buffer and every cursor line in it; on a buffer of one line
    the line is not deleted but emptied, and its old content is copied. *)
Theorem dd_deletes_cursor_line
    (f : VimFile) (t1 t2 : Z) (s : State) :
  isInVimMode s = true → vimMode s = ModeNormal → vimFile s = Some f →
  (vimCursorLine s < length (split nl (content f)))%nat →
  starts_dd t1 s → t2 - t1 < 500 →
  let lines := split nl (content f) in
  ((1 < length lines)%nat →
     buffer (dd t1 t2 s) = Some (delete (vimCursorLine s) lines)
     ∧ vimClipboard (dd t1 t2 s) = lines !! vimCursorLine s
     ∧ is_Some (lines !! vimCursorLine s))
  ∧ (length lines = 1%nat →
     buffer (dd t1 t2 s) = Some [[]]
     ∧ vimClipboard (dd t1 t2 s) = lines !! 0%nat
     ∧ is_Some (lines !! 0%nat)).
Proof.
  intros Hin Hmode Hfile Hcur Hstart Ht lines. fold lines in Hcur.
  unfold dd. rewrite (first_d f t1 s) by done. cbn [state_of].
  rewrite (second_d f t1 t2) by done || reflexivity. cbn [state_of]. fold lines.
  assert (Hnl : Forall (λ l, nl ∉ l) lines) by apply split_no_sep.
  split.
  - intros Hlen. apply Nat.ltb_lt in Hlen as Hb. rewrite Hb.
    cbn [vimCursorLine setLastKeyPress].
    rewrite splice_delete_one by done.
    assert (Hdel : delete (vimCursorLine s) lines ≠ []).
    { intros Hd. apply (f_equal length) in Hd.
      rewrite length_delete in Hd by by apply lookup_lt_is_Some_2.
      simpl in Hd. lia. }
    split_and!.
    + destruct (length (delete (vimCursorLine s) lines) <=? vimCursorLine s)%nat;
        unfold buffer; simpl; by rewrite split_join by auto using Forall_delete.
    + by destruct (length (delete (vimCursorLine s) lines) <=? vimCursorLine s)%nat.
    + by apply lookup_lt_is_Some_2.
  - intros Hlen. rewrite Hlen. cbn [Nat.ltb Nat.leb].
    split_and!; [done..|].
    apply lookup_lt_is_Some_2. lia.
Qed.

(** C8. The buffer of the vim mode has at least one line after every key,
    every typed text and every command; [dd] on a buffer of one line keeps
    the line and makes it empty, and copies what it held; and the array
    that [dd] writes back has a line of its own accord, before it is
    joined. *)
Theorem buffer_keeps_a_line :
  (∀ e s, has_line (state_of (handleKeyDown e s))) ∧
  (∀ inputText s, has_line (handleVimTextInput inputText s)) ∧
  (∀ input s, has_line (handleVimInput input s)) ∧
  (∀ (lines : list jsstring) (cursor : nat),
     (1 < length lines)%nat → splice lines (Z.of_nat cursor) 1 [] ≠ []) ∧
  (∀ f old t1 t2 s,
     isInVimMode s = true → vimMode s = ModeNormal → vimFile s = Some f →
     split nl (content f) = [old] →
     starts_dd t1 s → t2 - t1 < 500 →
     buffer (dd t1 t2 s) = Some [[]]
     ∧ content <$> vimFile (dd t1 t2 s) = Some []
     ∧ vimClipboard (dd t1 t2 s) = Some old).
Proof.
  split_and!; try (intros; apply has_line_any).
  - intros lines cursor Hlen Hnil. apply (f_equal length) in Hnil.
    unfold splice in Hnil. simpl in Hnil.
    rewrite length_app, length_take, length_drop in Hnil.
    destruct (Z.of_nat cursor <? 0); lia.
  - intros f old t1 t2 s Hin Hmode Hfile Hone Hstart Ht.
    unfold dd. rewrite (first_d f t1 s) by done. cbn [state_of].
    rewrite (second_d f t1 t2) by done || reflexivity. cbn [state_of].
    rewrite Hone. done.
Qed.

End Handler.

(** *** Concrete runs *)

Definition editing (text : jsstring) (cursorLine : nat) : State :=
  mkState true (Some (mkVimFile (js "a.txt") text)) 0 cursorLine 0 ModeNormal
    (Some []) ([], 0) 0 [] (-1) [].

Definition one_line : State := editing (js "hello") 0.
Definition three_lines : State :=
  editing (js "one" ++ [nl] ++ js "two" ++ [nl] ++ js "three") 1.

(** The reading of C1 without a bound on the buffer: [dd] takes the line of
    the cursor out of the array of lines, whatever the buffer. *)
Definition dd_deletes_in_every_buffer : Prop :=
  ∀ (f : VimFile) (t1 t2 : Z) (s : State),
    isInVimMode s = true → vimMode s = ModeNormal → vimFile s = Some f →
    (vimCursorLine s < length (split nl (content f)))%nat →
    starts_dd t1 s → t2 - t1 < 500 →
    buffer (dd Terminal.lower Terminal.at_root t1 t2 s)
    = Some (delete (vimCursorLine s) (split nl (content f))).

(** On a buffer of one line [dd] leaves an array of one (empty) line, not
    the empty array. *)
Lemma dd_keeps_single_line :
  buffer (dd Terminal.lower Terminal.at_root 1000 1100 one_line) = Some [[]]
  ∧ ¬ dd_deletes_in_every_buffer.
Proof.
  split; [reflexivity|].
  intros Hall.
  specialize (Hall (mkVimFile (js "a.txt") (js "hello")) 1000 1100 one_line).
  assert (Hrun : buffer (dd Terminal.lower Terminal.at_root 1000 1100 one_line) = Some [[]])
    by reflexivity.
  rewrite Hrun in Hall.
  assert (Hbad : Some [[]] = Some (delete 0%nat [js "hello"])).
  { apply Hall;
      first [reflexivity | left; vm_compute; done | vm_compute; lia]. }
  vm_compute in Hbad. discriminate Hbad.
Qed.

Lemma dd_deletes_cursor_line_witness :
  buffer (dd Terminal.lower Terminal.at_root 1000 1100 three_lines) = Some [js "one"; js "three"]
  ∧ vimClipboard (dd Terminal.lower Terminal.at_root 1000 1100 three_lines) = Some (js "two").
Proof.
  pose proof (dd_deletes_cursor_line Terminal.lower Terminal.at_root
                (mkVimFile (js "a.txt")
                   (js "one" ++ [nl] ++ js "two" ++ [nl] ++ js "three"))
                1000 1100 three_lines eq_refl eq_refl eq_refl) as H.
  assert (Hcur : (vimCursorLine three_lines < 3)%nat) by (vm_compute; lia).
  assert (Hstart : starts_dd 1000 three_lines) by (left; vm_compute; done).
  assert (Ht : 1100 - 1000 < 500) by lia.
  destruct (H Hcur Hstart Ht) as [Hmany _].
  destruct Hmany as (Hb & Hc & _); [vm_compute; lia|].
  split; [exact Hb|exact Hc].
Defined.

Lemma buffer_keeps_a_line_witness :
  buffer (dd Terminal.lower Terminal.at_root 1000 1100 one_line) = Some [[]]
  ∧ vimClipboard (dd Terminal.lower Terminal.at_root 1000 1100 one_line) = Some (js "hello").
Proof.
  destruct (buffer_keeps_a_line Terminal.lower Terminal.at_root) as (_ & _ & _ & _ & Hone).
  assert (Hstart : starts_dd 1000 one_line) by (left; vm_compute; done).
  assert (Ht : 1100 - 1000 < 500) by lia.
  destruct (Hone (mkVimFile (js "a.txt") (js "hello")) (js "hello")
              1000 1100 one_line eq_refl eq_refl eq_refl eq_refl Hstart Ht)
    as (Hb & _ & Hc).
  split; [exact Hb|exact Hc].
Defined.

(** *** More of the vim mode *)

(** A key pressed without modifier, handled at time [t]. *)
Definition press (k : string) (t : Z) : KeyboardEvent := mkKey (js k) false t.

Ltac eval_press :=
  repeat match goal with
  | |- context [key_is ?k (press ?k' ?t)] =>
      let b := eval vm_compute in (key_is k (press k' t)) in
      change (key_is k (press k' t)) with b
  end.

Section MoreHandler.
Variable toLowerCase : jsstring → jsstring.
Variable env : Terminal.Env.

Abbreviation keyDown := (handleKeyDown toLowerCase env).

(** The state after the keys [es], pressed in order. *)
Definition after_keys (es : list KeyboardEvent) (s : State) : State :=
  foldl (λ s e, state_of (keyDown e s)) s es.

(** X7. The cursor stays on a line of the buffer: from a state where it is
    on one, every key leaves it on one, and so do typed text and commands.
    The key handler returns for every key but [Tab]; [Tab] outside the
    insert mode completes the command line, and the handler throws there,
    before any update, only when [parseCommand] throws on the command
    line. *)
Theorem cursor_stays_in_buffer (s : State) :
  cursor_in_buffer s →
  (∀ e, cursor_in_buffer (state_of (keyDown e s))) ∧
  (∀ e s', keyDown e s = Threw s' →
     s' = s ∧ key e = js "Tab"
     ∧ Terminal.parseCommand toLowerCase (currentCommand s) = None
     ∧ (isInVimMode s = true → vimMode s ≠ ModeInsert)) ∧
  (∀ inputText, cursor_in_buffer (handleVimTextInput inputText s)) ∧
  (∀ input, cursor_in_buffer (handleVimInput input s)).
Proof.
  intros Hin. split_and!.
  - intros e. by apply handleKeyDown_stays.
  - intros e s' Hthrew.
    destruct (handleKeyDown_throws toLowerCase env e s s' Hin Hthrew)
      as (Hs & Htab & Hparse & Hmode).
    split_and!; try done.
    unfold key_is, jseqb in Htab. by apply bool_decide_eq_true in Htab.
  - intros inputText. by apply handleVimTextInput_stays.
  - intros input. by apply handleVimInput_stays.
Qed.

Lemma keyDown_normal f k t s :
  isInVimMode s = true → vimMode s = ModeNormal → vimFile s = Some f →
  is_vim_key (press k t) = true →
  keyDown (press k t) s = normal_key f (press k t) s.
Proof.
  intros Hin Hmode Hfile Hk. unfold handleKeyDown.
  by rewrite Hin, Hmode, Hk, Hfile.
Qed.

Lemma keyDown_insert e s :
  isInVimMode s = true → vimMode s = ModeInsert →
  keyDown e s = insert_key e s.
Proof. intros Hin Hmode. unfold handleKeyDown. by rewrite Hin, Hmode. Qed.

Lemma normal_key_y f t s :
  normal_key f (press "y" t) s = key_y (split nl (content f)) (press "y" t) s.
Proof. unfold normal_key. eval_press. reflexivity. Qed.

Lemma normal_key_p f t s :
  normal_key f (press "p" t) s = key_p f (split nl (content f)) s.
Proof. unfold normal_key. eval_press. reflexivity. Qed.

(** The first [y] does not itself end a [yy]. *)
Definition starts_yy (t1 : Z) (s : State) : Prop :=
  (lastKeyPressRef s).1 ≠ js "y" ∨ 500 <= t1 - (lastKeyPressRef s).2.

Lemma splice_insert_one {A} (a : list A) (i : nat) (x : A) :
  (i <= length a)%nat →
  splice a (Z.of_nat i) 0 [x] = take i a ++ x :: drop i a.
Proof.
  intros Hi. unfold splice.
  destruct (Z.of_nat i <? 0) eqn:E; [lia|].
  replace (Z.min (Z.of_nat i) (Z.of_nat (length a))) with (Z.of_nat i) by lia.
  replace (Z.min (Z.max 0 0) (Z.of_nat (length a) - Z.of_nat i)) with 0 by lia.
  by rewrite Z.add_0_r, Nat2Z.id.
Qed.

Lemma lines_no_nl (text : jsstring) (i : nat) (l : jsstring) :
  split nl text !! i = Some l → nl ∉ l.
Proof.
  intros Hl. pose proof (split_no_sep nl text) as Hall.
  rewrite Forall_forall in Hall. apply Hall.
  apply list_elem_of_lookup. eauto.
Qed.

Lemma scroll_down_clipboard l m s :
  vimClipboard (scroll_down l m s) = vimClipboard s.
Proof. unfold scroll_down. by destruct (_ && _). Qed.

(** The state after [yy]: the line is in the clipboard. *)
Lemma yy_state (f : VimFile) (t1 t2 : Z) (s : State) :
  isInVimMode s = true → vimMode s = ModeNormal → vimFile s = Some f →
  starts_yy t1 s → t2 - t1 < 500 →
  after_keys [press "y" t1; press "y" t2] s
  = setLastKeyPress ([], 0)
      (setVimClipboard (split nl (content f) !! vimCursorLine s)
         (setLastKeyPress (js "y", t2) (setLastKeyPress (js "y", t1) s))).
Proof.
  intros Hin Hmode Hfile Hstart Ht. unfold after_keys. cbn [foldl].
  rewrite (keyDown_normal f "y" t1 s) by done.
  rewrite normal_key_y. unfold key_y at 1. cbn [now press].
  assert (H1 : ((lastKeyPressRef s).1 =j js "y")
               && (t1 - (lastKeyPressRef s).2 <? 500) = false).
  { destruct Hstart as [Hk|Hk].
    - unfold jseqb. by rewrite bool_decide_eq_false_2.
    - apply andb_false_iff. right. apply Z.ltb_ge. lia. }
  rewrite H1. cbn [state_of].
  rewrite (keyDown_normal f "y" t2) by done.
  rewrite normal_key_y. unfold key_y.
  cbn [now press lastKeyPressRef setLastKeyPress fst snd].
  replace (t2 - t1 <? 500) with true by (symmetry; apply Z.ltb_lt; lia).
  reflexivity.
Qed.

(** X8. [yy] and then [p] duplicate the line of the cursor: the copy is put
    below it and the cursor goes to the copy.  On an empty line the
    clipboard is empty and [p] pastes nothing. *)
Theorem yy_p_duplicates_line
    (f : VimFile) (t1 t2 t3 : Z) (s : State) (l : jsstring) :
  isInVimMode s = true → vimMode s = ModeNormal → vimFile s = Some f →
  split nl (content f) !! vimCursorLine s = Some l →
  starts_yy t1 s → t2 - t1 < 500 →
  let lines := split nl (content f) in
  let c := vimCursorLine s in
  let s' := after_keys [press "y" t1; press "y" t2; press "p" t3] s in
  vimClipboard s' = Some l ∧
  (l ≠ [] →
   buffer s' = Some (take (c + 1) lines ++ l :: drop (c + 1) lines)
   ∧ vimCursorLine s' = (c + 1)%nat) ∧
  (l = [] → buffer s' = Some lines ∧ vimCursorLine s' = c).
Proof.
  intros Hin Hmode Hfile Hl Hstart Ht lines c s'.
  assert (Hlt : (c < length lines)%nat) by (by eapply lookup_lt_Some).
  assert (Hs' : s' = state_of (keyDown (press "p" t3)
                       (after_keys [press "y" t1; press "y" t2] s)))
    by reflexivity.
  rewrite (yy_state f) in Hs' by done. rewrite Hl in Hs'.
  rewrite (keyDown_normal f "p" t3) in Hs' by done.
  rewrite normal_key_p in Hs'. unfold key_p in Hs'.
  cbn [vimClipboard setLastKeyPress setVimClipboard] in Hs'.
  destruct l as [|ch l]; cbn [truthy state_of] in Hs'; rewrite Hs'.
  - split; [done|]. split; [done|]. intros _.
    unfold buffer. cbn. by rewrite Hfile.
  - split; [by rewrite scroll_down_clipboard|].
    split; [|done]. intros _. unfold buffer.
    rewrite scroll_down_file, scroll_down_line. cbn.
    replace (Z.of_nat (vimCursorLine s) + 1) with (Z.of_nat (c + 1))
      by (unfold c; lia).
    rewrite splice_insert_one by (fold lines; lia). fold lines c.
    rewrite split_join; [done| |].
    + by destruct (take (c + 1) lines).
    + pose proof (split_no_sep nl (content f)) as Hall. fold lines in Hall.
      apply Forall_app. split; [by apply Forall_take|].
      constructor; [by eapply (lines_no_nl (content f))|by apply Forall_drop].
Qed.

(** *** Round trips in insert mode *)

Lemma array_set_middle (pre post : list jsstring) (x v : jsstring) :
  array_set (pre ++ x :: post) (length pre) v = pre ++ v :: post.
Proof.
  unfold array_set. rewrite length_app. simpl.
  replace (length pre <? length pre + S (length post))%nat with true
    by (symmetry; apply Nat.ltb_lt; lia).
  rewrite insert_app_r_alt by lia. by rewrite Nat.sub_diag.
Qed.

Lemma splice_after {A} (a b : list A) (n : nat) (items : list A) :
  (n <= length b)%nat →
  splice (a ++ b) (Z.of_nat (length a)) (Z.of_nat n) items
  = a ++ items ++ drop n b.
Proof.
  intros Hn. unfold splice. cbv zeta. rewrite length_app.
  replace (Z.of_nat (length a) <? 0) with false by (symmetry; apply Z.ltb_ge; lia).
  replace (Z.min (Z.of_nat (length a)) (Z.of_nat (length a + length b)))
    with (Z.of_nat (length a)) by lia.
  replace (Z.min (Z.max (Z.of_nat n) 0)
             (Z.of_nat (length a + length b) - Z.of_nat (length a)))
    with (Z.of_nat n) by lia.
  rewrite Nat2Z.id. rewrite take_app_length.
  replace (Z.to_nat (Z.of_nat (length a) + Z.of_nat n)) with (length a + n)%nat
    by lia.
  by rewrite drop_app_add.
Qed.

(** The lines around the cursor. *)
Lemma lines_around (lines : list jsstring) (c : nat) (l : jsstring) :
  lines !! c = Some l →
  lines = take c lines ++ l :: drop (S c) lines ∧ length (take c lines) = c.
Proof.
  intros Hl. split; [by rewrite take_drop_middle|].
  rewrite length_take. apply lookup_lt_Some in Hl. lia.
Qed.

Lemma keyDown_enter f t s :
  isInVimMode s = true → vimMode s = ModeInsert → vimFile s = Some f →
  keyDown (press "Enter" t) s = insert_enter f s.
Proof.
  intros Hin Hmode Hfile. rewrite keyDown_insert by done.
  unfold insert_key. eval_press. cbn iota. by rewrite Hfile.
Qed.

Lemma keyDown_backspace f t s :
  isInVimMode s = true → vimMode s = ModeInsert → vimFile s = Some f →
  keyDown (press "Backspace" t) s = insert_backspace f s.
Proof.
  intros Hin Hmode Hfile. rewrite keyDown_insert by done.
  unfold insert_key. eval_press. cbn iota. by rewrite Hfile.
Qed.

Lemma scroll_down_fields l m s :
  vimFile (scroll_down l m s) = vimFile s
  ∧ vimCursorLine (scroll_down l m s) = vimCursorLine s
  ∧ vimCursorColumn (scroll_down l m s) = vimCursorColumn s
  ∧ vimMode (scroll_down l m s) = vimMode s
  ∧ isInVimMode (scroll_down l m s) = isInVimMode s.
Proof. unfold scroll_down. by destruct (_ && _). Qed.

Lemma scroll_up_fields l s :
  vimFile (scroll_up l s) = vimFile s
  ∧ vimCursorLine (scroll_up l s) = vimCursorLine s
  ∧ vimCursorColumn (scroll_up l s) = vimCursorColumn s
  ∧ vimMode (scroll_up l s) = vimMode s
  ∧ isInVimMode (scroll_up l s) = isInVimMode s.
Proof. unfold scroll_up. by destruct (_ && _). Qed.

(** X9. In insert mode [Enter] splits the line of the cursor at the cursor
    and goes to the start of the second part; [Backspace] pressed next
    joins the parts again: the file, the cursor line and the cursor column
    are what they were. *)
Theorem enter_backspace_round_trip
    (f : VimFile) (t1 t2 : Z) (s : State) (l : jsstring) :
  isInVimMode s = true → vimMode s = ModeInsert → vimFile s = Some f →
  split nl (content f) !! vimCursorLine s = Some l →
  (vimCursorColumn s <= length l)%nat →
  let lines := split nl (content f) in
  let c := vimCursorLine s in
  let k := vimCursorColumn s in
  let s1 := after_keys [press "Enter" t1] s in
  let s2 := after_keys [press "Enter" t1; press "Backspace" t2] s in
  (buffer s1 = Some (take c lines ++ take k l :: drop k l :: drop (S c) lines)
   ∧ vimCursorLine s1 = (c + 1)%nat ∧ vimCursorColumn s1 = 0%nat) ∧
  (vimFile s2 = Some f ∧ vimCursorLine s2 = c ∧ vimCursorColumn s2 = k).
Proof.
  intros Hin Hmode Hfile Hl Hk lines c k s1 s2.
  change (lines !! c = Some l) in Hl. change (k <= length l)%nat in Hk.
  destruct (lines_around lines c l Hl) as [Hsplit Hc].
  set (pre := take c lines) in *. set (post := drop (S c) lines) in *.
  assert (Hnl : Forall (λ x, nl ∉ x) lines) by apply split_no_sep.
  assert (Hpre : Forall (λ x, nl ∉ x) pre) by (by apply Forall_take).
  assert (Hpost : Forall (λ x, nl ∉ x) post) by (by apply Forall_drop).
  assert (Hlnl : nl ∉ l) by (by eapply (lines_no_nl (content f))).
  assert (Hjoin : join [nl] lines = content f) by apply join_split.
  assert (Hs1 : s1 = state_of (insert_enter f s)).
  { unfold s1, after_keys. cbn [foldl]. by rewrite (keyDown_enter f). }
  assert (Hs2 : s2 = state_of (keyDown (press "Backspace" t2) s1)) by done.
  unfold insert_enter in Hs1. fold lines c k in Hs1.
  clearbody s1 s2 pre post lines.
  assert (Htake : nl ∉ take k l).
  { intros H. apply Hlnl. by eapply subseteq_take. }
  assert (Hdrop : nl ∉ drop k l).
  { intros H. apply Hlnl. by eapply subseteq_drop. }
  (* the array after Enter *)
  assert (Harr : splice (array_set lines c (substring (line_at lines c) 0 k))
                   (Z.of_nat c + 1) 0 [substring_from (line_at lines c) k]
                 = pre ++ take k l :: drop k l :: post).
  { unfold line_at. rewrite Hl. cbn [default].
    unfold substring, substring_from. cbn [Nat.min Nat.max].
    unfold id. rewrite Nat.sub_0_r, drop_0.
    rewrite Hsplit at 1. rewrite <- Hc at 1. rewrite array_set_middle.
    replace (pre ++ take k l :: post) with ((pre ++ [take k l]) ++ post)
      by (by rewrite <- app_assoc).
    replace (Z.of_nat c + 1) with (Z.of_nat (length (pre ++ [take k l])))
      by (rewrite length_app; simpl; lia).
    rewrite (splice_after _ post 0) by lia.
    by rewrite <- app_assoc. }
  rewrite Harr in Hs1.
  cbn [state_of] in Hs1.
  destruct (scroll_down_fields (c + 1)
              (maxPosition (pre ++ take k l :: drop k l :: post))
              (setVimCursorColumn 0 (setVimCursorLine (c + 1)
                 (setLines f (pre ++ take k l :: drop k l :: post) s))))
    as (F1 & L1 & C1 & M1 & I1).
  rewrite <- Hs1 in F1, L1, C1, M1, I1.
  cbn in F1, L1, C1, M1, I1.
  assert (Hb1 : buffer s1 = Some (pre ++ take k l :: drop k l :: post)).
  { unfold buffer. rewrite F1. cbn. rewrite split_join; [done| |].
    - by destruct pre.
    - apply Forall_app. split; [done|]. by repeat constructor. }
  split; [by rewrite L1, C1|].
  (* Backspace *)
  rewrite (keyDown_backspace
             (mkVimFile (name f)
                (join [nl] (pre ++ take k l :: drop k l :: post))) t2 s1)
    in Hs2; [|by rewrite I1|by rewrite M1|done].
  unfold insert_backspace in Hs2. cbn [content] in Hs2.
  rewrite split_join in Hs2;
    [|by destruct pre|apply Forall_app; split; [done|by repeat constructor]].
  rewrite L1, C1 in Hs2. cbn [Nat.eqb andb] in Hs2.
  replace (0 <? c + 1)%nat with true in Hs2 by (symmetry; apply Nat.ltb_lt; lia).
  replace (c + 1 - 1)%nat with c in Hs2 by lia.
  assert (Hprev : (pre ++ take k l :: drop k l :: post) !! c = Some (take k l)).
  { rewrite <- Hc. by rewrite list_lookup_middle. }
  assert (Hcur : (pre ++ take k l :: drop k l :: post) !! (c + 1)%nat
                 = Some (drop k l)).
  { replace (pre ++ take k l :: drop k l :: post)
      with ((pre ++ [take k l]) ++ drop k l :: post) by (by rewrite <- app_assoc).
    apply list_lookup_middle. rewrite length_app. simpl. lia. }
  rewrite Hprev, Hcur in Hs2. rewrite take_drop in Hs2.
  assert (Harr2 : splice (array_set (pre ++ take k l :: drop k l :: post) c l)
                    (Z.of_nat (c + 1)) 1 [] = lines).
  { rewrite <- Hc at 1. rewrite array_set_middle.
    replace (pre ++ l :: drop k l :: post)
      with ((pre ++ [l]) ++ drop k l :: post) by (by rewrite <- app_assoc).
    replace (Z.of_nat (c + 1)) with (Z.of_nat (length (pre ++ [l])))
      by (rewrite length_app; simpl; lia).
    rewrite (splice_after _ _ 1) by (simpl; lia).
    simpl. rewrite <- app_assoc, drop_0. simpl. by rewrite <- Hsplit. }
  rewrite Harr2 in Hs2. cbn [state_of] in Hs2.
  destruct (scroll_up_fields (Z.of_nat (c + 1) - 1)
              (setVimCursorColumn (length (take k l))
                 (setVimCursorLine c
                    (setLines (mkVimFile (name f)
                       (join [nl] (pre ++ take k l :: drop k l :: post)))
                       lines s1))))
    as (F2 & L2 & C2 & _ & _).
  rewrite <- Hs2 in F2, L2, C2. cbn in F2, L2, C2.
  split_and!.
  - rewrite F2, Hjoin. by destruct f.
  - done.
  - rewrite C2, length_take. lia.
Qed.

(** X10. In insert mode a typed character other than a line break goes into
    the line of the cursor at the cursor column, and the column moves on by
    one; [Backspace] pressed next takes the character out again: the file,
    the cursor line and the cursor column are what they were. *)
Theorem type_backspace_round_trip
    (f : VimFile) (t : Z) (s : State) (l text : jsstring) (ch : N) :
  isInVimMode s = true → vimMode s = ModeInsert → vimFile s = Some f →
  split nl (content f) !! vimCursorLine s = Some l →
  (vimCursorColumn s <= length l)%nat →
  ch ≠ nl →
  let lines := split nl (content f) in
  let c := vimCursorLine s in
  let k := vimCursorColumn s in
  let s1 := handleVimTextInput (text ++ [ch]) s in
  let s2 := after_keys [press "Backspace" t] s1 in
  (buffer s1 = Some (take c lines ++ (take k l ++ ch :: drop k l) :: drop (S c) lines)
   ∧ vimCursorLine s1 = c ∧ vimCursorColumn s1 = (k + 1)%nat) ∧
  (vimFile s2 = Some f ∧ vimCursorLine s2 = c ∧ vimCursorColumn s2 = k).
Proof.
  intros Hin Hmode Hfile Hl Hk Hch lines c k s1 s2.
  change (lines !! c = Some l) in Hl. change (k <= length l)%nat in Hk.
  destruct (lines_around lines c l Hl) as [Hsplit Hc].
  set (pre := take c lines) in *. set (post := drop (S c) lines) in *.
  assert (Hnl : Forall (λ x, nl ∉ x) lines) by apply split_no_sep.
  assert (Hpre : Forall (λ x, nl ∉ x) pre) by (by apply Forall_take).
  assert (Hpost : Forall (λ x, nl ∉ x) post) by (by apply Forall_drop).
  assert (Hlnl : nl ∉ l) by (by eapply (lines_no_nl (content f))).
  assert (Hjoin : join [nl] lines = content f) by apply join_split.
  assert (Hs2 : s2 = state_of (keyDown (press "Backspace" t) s1)) by done.
  assert (Hs1 : s1 = handleVimTextInput (text ++ [ch]) s) by done.
  unfold handleVimTextInput in Hs1. rewrite Hfile, Hmode, Hin in Hs1.
  fold lines c k in Hs1.
  clearbody s1 s2 pre post lines.
  set (new := take k l ++ ch :: drop k l).
  assert (Hnew : nl ∉ new).
  { unfold new. intros [H|H]%elem_of_app.
    - apply Hlnl. by eapply subseteq_take.
    - apply elem_of_cons in H as [H|H]; [done|].
      apply Hlnl. by eapply subseteq_drop. }
  assert (Harr : array_set lines c
                   (substring (line_at lines c) 0 k
                    ++ drop (length (text ++ [ch]) - 1) (text ++ [ch])
                    ++ substring_from (line_at lines c) k)
                 = pre ++ new :: post).
  { unfold line_at. rewrite Hl. cbn [default].
    unfold substring, substring_from. cbn [Nat.min Nat.max].
    unfold id. rewrite Nat.sub_0_r, drop_0.
    rewrite length_app. cbn [length].
    replace (length text + 1 - 1)%nat with (length text) by lia.
    rewrite drop_app_length.
    rewrite Hsplit at 1. rewrite <- Hc at 1. by rewrite array_set_middle. }
  rewrite Harr in Hs1.
  assert (F1 : vimFile s1 = Some (mkVimFile (name f) (join [nl] (pre ++ new :: post))))
    by (by rewrite Hs1).
  assert (L1 : vimCursorLine s1 = c) by (by rewrite Hs1).
  assert (C1 : vimCursorColumn s1 = (k + 1)%nat) by (by rewrite Hs1).
  assert (M1 : vimMode s1 = ModeInsert) by (by rewrite Hs1).
  assert (I1 : isInVimMode s1 = true) by (by rewrite Hs1).
  assert (Hsj : split nl (join [nl] (pre ++ new :: post)) = pre ++ new :: post).
  { rewrite split_join; [done|by destruct pre|].
    apply Forall_app. split; [done|]. by constructor. }
  split.
  { unfold buffer. rewrite F1. cbn [fmap option_fmap option_map content].
    by rewrite Hsj. }
  rewrite (keyDown_backspace
             (mkVimFile (name f) (join [nl] (pre ++ new :: post))) t s1)
    in Hs2; [|done..].
  unfold insert_backspace in Hs2. cbn [content] in Hs2.
  rewrite Hsj, L1, C1 in Hs2.
  replace ((k + 1 =? 0)%nat) with false in Hs2
    by (symmetry; apply Nat.eqb_neq; lia).
  replace (0 <? k + 1)%nat with true in Hs2 by (symmetry; apply Nat.ltb_lt; lia).
  cbn [andb] in Hs2.
  assert (Harr2 : array_set (pre ++ new :: post) c
                    (substring (line_at (pre ++ new :: post) c) 0 (k + 1 - 1)
                     ++ substring_from (line_at (pre ++ new :: post) c) (k + 1))
                  = lines).
  { unfold line_at. rewrite <- Hc at 2 3. rewrite list_lookup_middle by done.
    cbn [default]. unfold id, substring, substring_from. cbn [Nat.min Nat.max].
    rewrite Nat.sub_0_r, drop_0.
    replace (k + 1 - 1)%nat with k by lia.
    assert (Hlen : length (take k l) = k) by (rewrite length_take; lia).
    unfold new.
    replace (take k (take k l ++ ch :: drop k l)) with (take k l)
      by (rewrite <- Hlen at 2; by rewrite take_app_length).
    replace (drop (k + 1) (take k l ++ ch :: drop k l)) with (drop k l).
    2:{ replace (take k l ++ ch :: drop k l)
          with ((take k l ++ [ch]) ++ drop k l) by (by rewrite <- app_assoc).
        rewrite drop_app_length'; [done|]. rewrite length_app. simpl. lia. }
    rewrite take_drop. rewrite <- Hc at 1. rewrite array_set_middle.
    by rewrite <- Hsplit. }
  rewrite Harr2 in Hs2. cbn [state_of] in Hs2.
  rewrite Hs2. cbn. rewrite Hjoin. split_and!; [by destruct f|done|lia].
Qed.

End MoreHandler.

(** The editor in normal mode with a lone quote on the command line. *)
Definition quote_typed : State :=
  mkState true (Some (mkVimFile (js "a.txt") (js "one"))) 0 0 0 ModeNormal
    None ([], 0) 0 [Terminal.dquote] (-1) [].

Lemma cursor_stays_in_buffer_witness :
  cursor_in_buffer quote_typed
  ∧ handleKeyDown Terminal.lower Terminal.at_root (press "Tab" 1000) quote_typed
    = Threw quote_typed
  ∧ (∀ e, cursor_in_buffer
            (state_of (handleKeyDown Terminal.lower Terminal.at_root e
                         quote_typed))).
Proof.
  assert (Hin : cursor_in_buffer quote_typed) by (vm_compute; lia).
  split_and!; [exact Hin|vm_compute; reflexivity|].
  exact (proj1 (cursor_stays_in_buffer Terminal.lower Terminal.at_root
                  quote_typed Hin)).
Defined.

Lemma yy_p_duplicates_line_witness :
  buffer (after_keys Terminal.lower Terminal.at_root [press "y" 1000; press "y" 1100; press "p" 1200]
            three_lines)
  = Some [js "one"; js "two"; js "two"; js "three"].
Proof.
  pose proof (yy_p_duplicates_line Terminal.lower Terminal.at_root
                (mkVimFile (js "a.txt")
                   (js "one" ++ [nl] ++ js "two" ++ [nl] ++ js "three"))
                1000 1100 1200 three_lines (js "two")
                eq_refl eq_refl eq_refl eq_refl) as H.
  assert (Hstart : starts_yy 1000 three_lines) by (left; vm_compute; done).
  assert (Ht : 1100 - 1000 < 500) by lia.
  destruct (H Hstart Ht) as (_ & Hput & _).
  destruct Hput as [Hb _]; [vm_compute; done|].
  exact Hb.
Defined.

(** The editor in insert mode, the cursor on [cursorLine] at [column]. *)
Definition inserting (text : jsstring) (cursorLine column : nat) : State :=
  mkState true (Some (mkVimFile (js "a.txt") text)) 0 cursorLine column
    ModeInsert None ([], 0) 0 [] (-1) [].

Definition in_two : State :=
  inserting (js "one" ++ [nl] ++ js "two" ++ [nl] ++ js "three") 1 1.

Lemma enter_backspace_round_trip_witness :
  buffer (after_keys Terminal.lower Terminal.at_root [press "Enter" 1000] in_two)
  = Some [js "one"; js "t"; js "wo"; js "three"]
  ∧ vimFile (after_keys Terminal.lower Terminal.at_root [press "Enter" 1000; press "Backspace" 1100]
               in_two)
    = vimFile in_two.
Proof.
  pose proof (enter_backspace_round_trip Terminal.lower Terminal.at_root
                (mkVimFile (js "a.txt")
                   (js "one" ++ [nl] ++ js "two" ++ [nl] ++ js "three"))
                1000 1100 in_two (js "two")
                eq_refl eq_refl eq_refl eq_refl) as H.
  assert (Hk : (vimCursorColumn in_two <= length (js "two"))%nat)
    by (vm_compute; lia).
  destruct (H Hk) as [(Hb & _) (Hf & _)].
  split; [exact Hb|exact Hf].
Defined.

Lemma type_backspace_round_trip_witness :
  buffer (handleVimTextInput (js "x") in_two)
  = Some [js "one"; js "txwo"; js "three"]
  ∧ vimFile (after_keys Terminal.lower Terminal.at_root [press "Backspace" 1000]
               (handleVimTextInput (js "x") in_two))
    = vimFile in_two.
Proof.
  pose proof (type_backspace_round_trip Terminal.lower Terminal.at_root
                (mkVimFile (js "a.txt")
                   (js "one" ++ [nl] ++ js "two" ++ [nl] ++ js "three"))
                1000 in_two (js "two") [] 120%N
                eq_refl eq_refl eq_refl eq_refl) as H.
  assert (Hk : (vimCursorColumn in_two <= length (js "two"))%nat)
    by (vm_compute; lia).
  assert (Hch : 120%N ≠ nl) by (vm_compute; done).
  destruct (H Hk Hch) as [(Hb & _) (Hf & _)].
  split; [exact Hb|exact Hf].
Defined.

End Vim.

(** ** File names in the chat (chats/utils/helpers.ts) *)

Module Helpers.
Import JS.

Definition dot : N := 46%N.

(** [s.lastIndexOf(c)] for a string [c] of one code unit: the index of its
    last occurrence, or -1. *)
Fixpoint lastIndexOf (c : N) (s : jsstring) : Z :=
  match s with
  | [] => -1
  | x :: s' =>
      let r := lastIndexOf c s' in
      if r =? -1 then (if N.eqb x c then 0 else -1) else r + 1
  end.

(** An index argument of [slice], brought into the string: a negative one
    counts from the end. *)
Definition slice_index (len i : Z) : Z :=
  if i <? 0 then Z.max (len + i) 0 else Z.min i len.

(** [s.slice(start, end)] and [s.slice(start)]. *)
Definition slice (s : jsstring) (start end_ : Z) : jsstring :=
  let len := Z.of_nat (length s) in
  let from := slice_index len start in
  let to := slice_index len end_ in
  take (Z.to_nat (to - from)) (drop (Z.to_nat from) s).

Definition slice_from (s : jsstring) (start : Z) : jsstring :=
  slice s start (Z.of_nat (length s)).

(** [truncateFilename(filename, maxLength)]; [maxLength] is 20 when the
    argument is left out. *)
Definition truncateFilename (filename : jsstring) (maxLength : Z) : jsstring :=
  if Z.of_nat (length filename) <=? maxLength then filename
  else
    let lastDotIndex := lastIndexOf dot filename in
    let extension :=
      if negb (lastDotIndex =? -1) then slice_from filename lastDotIndex
      else [] in
    let nameLength := maxLength - Z.of_nat (length extension) - 3 in
    if nameLength <=? 0 then slice filename 0 (maxLength - 3) ++ js "..."
    else
      let namePart :=
        slice filename 0
          (if negb (lastDotIndex =? -1) then lastDotIndex
           else Z.of_nat (length filename)) in
      slice namePart 0 nameLength ++ js "..." ++ extension.

(** *** Properties *)

Lemma lastIndexOf_range c s : -1 <= lastIndexOf c s < Z.of_nat (length s).
Proof.
  induction s as [|x s IH]; cbn [lastIndexOf length]; [lia|].
  destruct (lastIndexOf c s =? -1) eqn:E.
  - destruct (N.eqb x c); lia.
  - apply Z.eqb_neq in E. lia.
Qed.

Lemma lastIndexOf_found c s i :
  lastIndexOf c s = Z.of_nat i → s !! i = Some c ∧ c ∉ drop (S i) s.
Proof.
  revert i. induction s as [|x s IH]; intros i; cbn [lastIndexOf]; [lia|].
  destruct (lastIndexOf c s =? -1) eqn:E.
  - apply Z.eqb_eq in E. destruct (N.eqb x c) eqn:Ex; [|lia].
    apply N.eqb_eq in Ex. subst x. intros Hi.
    assert (i = 0%nat) as -> by lia. split; [done|].
    cbn [drop]. rewrite drop_0. clear IH.
    induction s as [|y s IHs]; [by intros ?%elem_of_nil|].
    cbn [lastIndexOf] in E.
    destruct (lastIndexOf c s =? -1) eqn:E'.
    + apply Z.eqb_eq in E'. destruct (N.eqb y c) eqn:Ey; [lia|].
      apply N.eqb_neq in Ey. intros [->|Hin]%elem_of_cons; [done|].
      by apply IHs.
    + pose proof (lastIndexOf_range c s). apply Z.eqb_neq in E'. lia.
  - apply Z.eqb_neq in E. pose proof (lastIndexOf_range c s).
    intros Hi. destruct i as [|i]; [lia|].
    apply (IH i). lia.
Qed.

(** A prefix and a suffix, by [slice]. *)
Lemma slice_prefix s n :
  0 <= n → slice s 0 n = take (Z.to_nat n) s.
Proof.
  intros Hn. unfold slice, slice_index. cbv zeta.
  replace (n <? 0) with false by (symmetry; apply Z.ltb_ge; lia).
  change (0 <? 0) with false. cbn iota.
  replace (Z.min 0 (Z.of_nat (length s))) with 0 by lia.
  rewrite Z.sub_0_r. cbn [Z.to_nat drop]. rewrite drop_0.
  destruct (decide (n <= Z.of_nat (length s))).
  - by replace (Z.min n (Z.of_nat (length s))) with n by lia.
  - replace (Z.min n (Z.of_nat (length s))) with (Z.of_nat (length s)) by lia.
    rewrite Nat2Z.id. by rewrite !take_ge by lia.
Qed.

Lemma slice_suffix s i :
  0 <= i → slice_from s i = drop (Z.to_nat i) s.
Proof.
  intros Hi. unfold slice_from, slice, slice_index. cbv zeta.
  replace (i <? 0) with false by (symmetry; apply Z.ltb_ge; lia).
  replace (Z.of_nat (length s) <? 0) with false by (symmetry; apply Z.ltb_ge; lia).
  rewrite Z.min_id.
  destruct (decide (i <= Z.of_nat (length s))).
  - replace (Z.min i (Z.of_nat (length s))) with i by lia.
    rewrite take_ge; [done|]. rewrite length_drop. lia.
  - replace (Z.min i (Z.of_nat (length s))) with (Z.of_nat (length s)) by lia.
    rewrite Z.sub_diag. change (Z.to_nat 0) with 0%nat. rewrite take_0.
    symmetry. apply drop_ge. lia.
Qed.

(** The extension that [truncateFilename] keeps: the text from the last
    dot on, or nothing without a dot. *)
Definition extension_of (filename : jsstring) : jsstring :=
  if negb (lastIndexOf dot filename =? -1)
  then slice_from filename (lastIndexOf dot filename)
  else [].

Lemma extension_of_drop filename :
  ∃ i, extension_of filename = drop i filename ∧ (i <= length filename)%nat
       ∧ (if negb (lastIndexOf dot filename =? -1)
          then lastIndexOf dot filename else Z.of_nat (length filename))
         = Z.of_nat i.
Proof.
  unfold extension_of. pose proof (lastIndexOf_range dot filename) as Hr.
  destruct (lastIndexOf dot filename =? -1) eqn:E; cbn [negb].
  - exists (length filename). by rewrite drop_all.
  - apply Z.eqb_neq in E. exists (Z.to_nat (lastIndexOf dot filename)).
    rewrite slice_suffix by lia. split_and!; [done|lia|lia].
Qed.

(** The result of a truncation, by cases. *)
Lemma truncateFilename_cases filename maxLength :
  3 <= maxLength → maxLength < Z.of_nat (length filename) →
  let ext := extension_of filename in
  let room := maxLength - Z.of_nat (length ext) - 3 in
  truncateFilename filename maxLength
  = if room <=? 0 then take (Z.to_nat (maxLength - 3)) filename ++ js "..."
    else take (Z.to_nat room) filename ++ js "..." ++ ext.
Proof.
  intros Hmax Hlong ext room. unfold truncateFilename.
  replace (Z.of_nat (length filename) <=? maxLength) with false
    by (symmetry; apply Z.leb_gt; lia).
  cbv zeta. fold (extension_of filename). fold ext. fold room.
  destruct (room <=? 0) eqn:Eroom.
  - by rewrite slice_prefix by lia.
  - apply Z.leb_gt in Eroom.
    destruct (extension_of_drop filename) as (i & Hext & Hi & ->).
    fold ext in Hext.
    rewrite (slice_prefix filename) by lia. rewrite Nat2Z.id.
    rewrite slice_prefix by lia.
    assert (Hlen : length ext = (length filename - i)%nat)
      by (by rewrite Hext, length_drop).
    rewrite take_take. do 2 f_equal. lia.
Qed.

(** X19. For a limit of at least 3 the truncated name is never longer than
    the limit: a name within the limit is returned as it is, a longer one
    gives a name of exactly the limit; so truncating twice is truncating
    once. *)
Theorem truncateFilename_fits (filename : jsstring) (maxLength : Z) :
  3 <= maxLength →
  Z.of_nat (length (truncateFilename filename maxLength))
  = Z.min (Z.of_nat (length filename)) maxLength
  ∧ truncateFilename (truncateFilename filename maxLength) maxLength
    = truncateFilename filename maxLength.
Proof.
  intros Hmax.
  assert (Hlen : Z.of_nat (length (truncateFilename filename maxLength))
                 = Z.min (Z.of_nat (length filename)) maxLength).
  { destruct (decide (Z.of_nat (length filename) <= maxLength)) as [Hfit|Hlong].
    - unfold truncateFilename.
      replace (Z.of_nat (length filename) <=? maxLength) with true
        by (symmetry; apply Z.leb_le; lia).
      lia.
    - rewrite truncateFilename_cases by lia. cbv zeta.
      destruct (extension_of_drop filename) as (i & Hext & Hi & _).
      assert (length (extension_of filename) = (length filename - i)%nat) as Hl
        by (by rewrite Hext, length_drop).
      destruct (_ <=? 0) eqn:Eroom.
      + rewrite length_app, length_take. cbn [length js fmap list_fmap
          String.list_ascii_of_string]. lia.
      + apply Z.leb_gt in Eroom.
        rewrite !length_app, length_take. cbn [length js fmap list_fmap
          String.list_ascii_of_string]. lia. }
  split; [exact Hlen|].
  unfold truncateFilename at 1.
  replace (_ <=? maxLength) with true; [done|].
  symmetry. apply Z.leb_le. lia.
Qed.

(** X20. A truncation keeps the extension when there is room for it: when
    the name is longer than the limit and the extension (the text from the
    last dot on) with the three dots is shorter than the limit, the result
    is the start of the name, three dots and the extension; otherwise it is
    the start of the name and three dots. *)
Theorem truncateFilename_keeps_extension
    (filename : jsstring) (maxLength : Z) :
  3 <= maxLength → maxLength < Z.of_nat (length filename) →
  let ext := extension_of filename in
  (Z.of_nat (length ext) + 3 < maxLength →
     truncateFilename filename maxLength
     = take (Z.to_nat (maxLength - Z.of_nat (length ext) - 3)) filename
       ++ js "..." ++ ext
     ∧ (ext = [] ∨ (head ext = Some dot ∧ dot ∉ tail ext))) ∧
  (maxLength <= Z.of_nat (length ext) + 3 →
     truncateFilename filename maxLength
     = take (Z.to_nat (maxLength - 3)) filename ++ js "...").
Proof.
  intros Hmax Hlong ext. rewrite truncateFilename_cases by lia. cbv zeta.
  fold ext. split.
  - intros Hroom.
    replace (_ <=? 0) with false by (symmetry; apply Z.leb_gt; lia).
    split; [done|].
    unfold ext, extension_of.
    pose proof (lastIndexOf_range dot filename) as Hr.
    destruct (lastIndexOf dot filename =? -1) eqn:E; cbn [negb]; [by left|].
    right. apply Z.eqb_neq in E.
    destruct (lastIndexOf_found dot filename
                (Z.to_nat (lastIndexOf dot filename))) as [Hat Hno]; [lia|].
    rewrite slice_suffix by lia.
    rewrite (drop_S _ _ _ Hat). by cbn [head tail].
  - intros Hroom.
    by replace (_ <=? 0) with true by (symmetry; apply Z.leb_le; lia).
Qed.

Lemma truncateFilename_fits_witness :
  3 <= 12 ∧
  Z.of_nat (length (truncateFilename (js "holiday-pictures.jpeg") 12)) = 12.
Proof.
  assert (Hmax : 3 <= 12) by lia.
  split; [exact Hmax|].
  exact (proj1 (truncateFilename_fits (js "holiday-pictures.jpeg") 12 Hmax)).
Defined.

Lemma truncateFilename_keeps_extension_witness :
  truncateFilename (js "holiday-pictures.jpeg") 12
  = take 4 (js "holiday-pictures.jpeg") ++ js "..." ++ js ".jpeg".
Proof.
  pose proof (truncateFilename_keeps_extension (js "holiday-pictures.jpeg") 12)
    as H.
  destruct H as [H _]; [lia|by vm_compute|].
  destruct H as [H _]; [by vm_compute|]. exact H.
Defined.

End Helpers.

(** ** The mailbox state of the email app (email/components/EmailAppComponent.tsx) *)

Module Mail.
Import JS.

Record Email := mkEmail {
  email_id : jsstring;
  email_threadId : jsstring;
  email_from : jsstring;
  email_to : jsstring;
  email_subject : jsstring;
  email_body : jsstring;
  email_date : jsstring;
  email_read : bool;
  email_starred : bool;
  email_labels : list jsstring
}.

Record Thread := mkThread {
  thread_id : jsstring;
  thread_subject : jsstring;
  participants : list jsstring;
  lastMessageDate : jsstring;
  messageIds : list jsstring;
  unread : bool;
  thread_starred : bool;
  thread_labels : list jsstring
}.

#[global] Instance email_eq_dec : EqDecision Email.
Proof. solve_decision. Defined.

#[global] Instance thread_eq_dec : EqDecision Thread.
Proof. solve_decision. Defined.

Record Label := mkLabel {
  label_id : jsstring; label_name : jsstring; color : jsstring
}.

Record User := mkUser {
  user_email : jsstring; user_name : jsstring; signature : jsstring
}.

Record EmailData := mkData {
  emails : list Email;
  threads : list Thread;
  labels : list Label;
  user : User
}.

Inductive ViewMode := ViewInbox | ViewThread | ViewCompose | ViewData.

(** The state of the component that the handlers below read and write. *)
Record State := mkState {
  emailData : option EmailData;
  viewMode : ViewMode;
  selectedThreadId : option jsstring;
  selectedLabelId : option jsstring;
  searchQuery : jsstring;
  replyToEmail : option Email;
  dataChanged : bool
}.

Definition setEmailData (d : EmailData) (s : State) : State :=
  mkState (Some d) (viewMode s) (selectedThreadId s) (selectedLabelId s)
    (searchQuery s) (replyToEmail s) (dataChanged s).
Definition setViewMode (m : ViewMode) (s : State) : State :=
  mkState (emailData s) m (selectedThreadId s) (selectedLabelId s)
    (searchQuery s) (replyToEmail s) (dataChanged s).
Definition setSelectedThreadId (t : option jsstring) (s : State) : State :=
  mkState (emailData s) (viewMode s) t (selectedLabelId s)
    (searchQuery s) (replyToEmail s) (dataChanged s).
Definition setDataChanged (b : bool) (s : State) : State :=
  mkState (emailData s) (viewMode s) (selectedThreadId s) (selectedLabelId s)
    (searchQuery s) (replyToEmail s) b.

(** [{ ...emailData, threads }] and [{ ...emailData, emails, threads }]. *)
Definition with_threads (d : EmailData) (ts : list Thread) : EmailData :=
  mkData (emails d) ts (labels d) (user d).
Definition with_emails_threads (d : EmailData) (es : list Email)
    (ts : list Thread) : EmailData :=
  mkData es ts (labels d) (user d).

(** [{ ...thread, unread: false }], [{ ...thread, starred }],
    [{ ...thread, lastMessageDate, messageIds }], [{ ...email, read: true }]. *)
Definition mark_thread_read (t : Thread) : Thread :=
  mkThread (thread_id t) (thread_subject t) (participants t)
    (lastMessageDate t) (messageIds t) false (thread_starred t)
    (thread_labels t).
Definition with_message (t : Thread) (d : jsstring) (ids : list jsstring)
  : Thread :=
  mkThread (thread_id t) (thread_subject t) (participants t) d ids
    (unread t) (thread_starred t) (thread_labels t).
Definition mark_email_read (e : Email) : Email :=
  mkEmail (email_id e) (email_threadId e) (email_from e) (email_to e)
    (email_subject e) (email_body e) (email_date e) true (email_starred e)
    (email_labels e).

(** [ids.includes(i)]. *)
Definition includes (ids : list jsstring) (i : jsstring) : bool :=
  bool_decide (i ∈ ids).

(** [threads.find((t) => t.id === i)]; [list_find] gives the index of
    [findIndex] with it. *)
Definition find_thread (i : jsstring) (ts : list Thread) : option Thread :=
  snd <$> list_find (λ t, thread_id t = i) ts.

(** [thread?.messageIds.includes(i)], as a condition. *)
Definition in_thread (thread : option Thread) (i : jsstring) : bool :=
  match thread with
  | Some t => includes (messageIds t) i
  | None => false
  end.

(** [handleThreadSelect(threadId)]. *)
Definition handleThreadSelect (threadId : jsstring) (s : State) : State :=
  let s1 := setViewMode ViewThread (setSelectedThreadId (Some threadId) s) in
  match emailData s with
  | Some d =>
      let updatedThreads :=
        (λ thread, if thread_id thread =j threadId
                   then mark_thread_read thread else thread) <$> threads d in
      let thread := find_thread threadId (threads d) in
      let updatedEmails :=
        (λ email, if in_thread thread (email_id email)
                  then mark_email_read email else email) <$> emails d in
      setDataChanged true
        (setEmailData (with_emails_threads d updatedEmails updatedThreads) s1)
  | None => s1
  end.

(** [handleSendEmail(email)].  [nowId] is the text of the first [Date.now()],
    [isoDate] the text of [new Date().toISOString()] and [nowThread] the
    text of the second [Date.now()].  The new email is one object: the
    thread id written to it after it was put in the array shows in the
    array.  [list_find] gives [threadIndex] and [updatedThreads[threadIndex]]
    together. *)
Definition handleSendEmail (nowId isoDate nowThread : jsstring)
    (email : Email) (s : State) : State :=
  match emailData s with
  | None => s
  | Some d =>
      let newEmail :=
        mkEmail nowId (email_threadId email) (email_from email)
          (email_to email) (email_subject email) (email_body email) isoDate
          true (email_starred email) (email_labels email) in
      let '(newEmail, updatedThreads) :=
        match replyToEmail s with
        | Some reply =>
            match list_find (λ t, thread_id t = email_threadId reply)
                    (threads d) with
            | Some (threadIndex, thread) =>
                (newEmail,
                 <[threadIndex :=
                     with_message thread (email_date newEmail)
                       (messageIds thread ++ [email_id newEmail])]>
                   (threads d))
            | None => (newEmail, threads d)
            end
        | None =>
            let newThread :=
              mkThread (js "thread" ++ nowThread) (email_subject email)
                [email_from email; email_to email] (email_date newEmail)
                [email_id newEmail] false false (email_labels email) in
            (mkEmail (email_id newEmail) (thread_id newThread)
               (email_from newEmail) (email_to newEmail)
               (email_subject newEmail) (email_body newEmail)
               (email_date newEmail) (email_read newEmail)
               (email_starred newEmail) (email_labels newEmail),
             threads d ++ [newThread])
        end in
      setViewMode ViewInbox
        (setDataChanged true
           (setEmailData
              (with_emails_threads d (emails d ++ [newEmail]) updatedThreads)
              s))
  end.


(** [handleUpdateEmailData(newData)], the [onSave] of the data editor. *)
Definition handleUpdateEmailData (newData : EmailData) (s : State) : State :=
  setViewMode ViewInbox (setDataChanged true (setEmailData newData s)).

(** [hay.includes(needle)] on strings. *)
Fixpoint string_includes (hay needle : jsstring) : bool :=
  starts_with needle hay ||
  match hay with
  | [] => false
  | _ :: hay' => string_includes hay' needle
  end.

Section Views.

(** [new Date(s).getTime()]: the time value of the date, or NaN when the
    string is no date; and [s.toLowerCase()]. *)
Variable Date_getTime : jsstring → jsnumber.
Variable toLowerCase : jsstring → jsstring.

(** What the implementation's [sort] makes of threads and of emails that
    have a date that does not parse among them (see [sort_number]). *)
Variable engine_threads : list Thread → list Thread.
Variable engine_emails : list Email → list Email.

(** The comparators of the two sorts. *)
Definition newest_first (a b : Thread) : jsnumber :=
  minus (Date_getTime (lastMessageDate b)) (Date_getTime (lastMessageDate a)).
Definition oldest_first (a b : Email) : jsnumber :=
  minus (Date_getTime (email_date a)) (Date_getTime (email_date b)).

(** The search filter of [getFilteredThreads]. *)
Definition matches (d : EmailData) (query : jsstring) (thread : Thread) : bool :=
  if string_includes (toLowerCase (thread_subject thread)) query then true
  else
    let threadEmails :=
      filter (λ email, includes (messageIds thread) (email_id email) = true)
        (emails d) in
    existsb (λ email,
               string_includes (toLowerCase (email_body email)) query
               || string_includes (toLowerCase (email_from email)) query
               || string_includes (toLowerCase (email_to email)) query)
      threadEmails.

(** [getFilteredThreads()]: the array returned, and the state after the
    call.  [sort] sorts the array it is called on: a filter gives an array
    of its own, but without a label and a query that array is the one in
    the state. *)
Definition getFilteredThreads (s : State) : list Thread * State :=
  match emailData s with
  | None => ([], s)
  | Some d =>
      let '(filteredThreads, own) :=
        match selectedLabelId s with
        | Some l =>
            if truthy l
            then (filter (λ thread, includes (thread_labels thread) l = true)
                    (threads d), true)
            else (threads d, false)
        | None => (threads d, false)
        end in
      let '(filteredThreads, own) :=
        if truthy (searchQuery s) then
          let query := toLowerCase (searchQuery s) in
          (filter (λ thread, matches d query thread = true) filteredThreads,
           true)
        else (filteredThreads, own) in
      let sorted := sort_number engine_threads newest_first filteredThreads in
      (sorted, if own then s else setEmailData (with_threads d sorted) s)
  end.

(** [getThreadEmails()]. *)
Definition getThreadEmails (s : State) : list Email :=
  match emailData s, selectedThreadId s with
  | Some d, Some selected =>
      if truthy selected then
        match find_thread selected (threads d) with
        | Some thread =>
            sort_number engine_emails oldest_first
              (filter (λ email, includes (messageIds thread) (email_id email)
                                = true) (emails d))
        | None => []
        end
      else []
  | _, _ => []
  end.

(** *** Properties *)

Lemma find_thread_cons i t ts :
  find_thread i (t :: ts)
  = if decide (thread_id t = i) then Some t else find_thread i ts.
Proof.
  unfold find_thread. cbn [list_find].
  destruct (decide (thread_id t = i)); [done|].
  by destruct (list_find _ ts) as [[j x]|].
Qed.

Lemma find_thread_fmap (f : Thread → Thread) i ts :
  (∀ t, thread_id (f t) = thread_id t) →
  find_thread i (f <$> ts) = f <$> find_thread i ts.
Proof.
  intros Hf. induction ts as [|x ts IH]; [done|].
  rewrite fmap_cons, !find_thread_cons, Hf.
  by destruct (decide (thread_id x = i)).
Qed.

Lemma find_thread_fresh i ts t :
  i ∉ thread_id <$> ts → thread_id t = i → find_thread i (ts ++ [t]) = Some t.
Proof.
  intros Hfresh Hid. induction ts as [|x ts IH].
  - cbn [app]. rewrite find_thread_cons. by rewrite decide_True.
  - cbn [app]. rewrite find_thread_cons.
    rewrite fmap_cons in Hfresh. apply not_elem_of_cons in Hfresh as [Hx Hts].
    rewrite decide_False by done. by apply IH.
Qed.

Lemma includes_true ids i : includes ids i = true ↔ i ∈ ids.
Proof. unfold includes. apply bool_decide_eq_true. Qed.




Lemma filter_listed_fresh (f : Email → Email) (ids : list jsstring)
    (es : list Email) :
  (∀ e, email_id (f e) = email_id e) →
  (∀ i, i ∈ ids → i ∉ email_id <$> es) →
  filter (λ e, includes ids (email_id e) = true) (f <$> es) = [].
Proof.
  intros Hf Hfresh. induction es as [|e es IH]; [done|].
  rewrite fmap_cons, filter_cons_False.
  - apply IH. intros i Hi Hin. apply (Hfresh i Hi). rewrite fmap_cons. by right.
  - rewrite Hf. intros Hin%includes_true.
    apply (Hfresh _ Hin). rewrite fmap_cons. by left.
Qed.

Lemma oldest_first_perm (es : list Email) :
  sort_number engine_emails oldest_first es ≡ₚ es.
Proof. apply sort_number_perm. Qed.

(** In the order of the dates, oldest first; a date that does not parse is
    in order with nothing. *)
Definition older_or_same (a b : Email) : Prop :=
  num_le (Date_getTime (email_date a)) (Date_getTime (email_date b)).

Lemma oldest_first_sorted (es : list Email) :
  Forall (λ e, Date_getTime (email_date e) ≠ NaN) es →
  StronglySorted older_or_same (sort_number engine_emails oldest_first es).
Proof.
  apply (sort_number_ascending engine_emails
           (λ e, Date_getTime (email_date e))).
Qed.

(** X23. A sent message can be opened.  [handleSendEmail] without a reply
    in progress adds the email and a thread of its own; when the id of the
    email and the id of the thread are new to the mailbox, opening that
    thread shows the sent email and nothing else. *)
Theorem sent_message_opens_in_its_thread
    (nowId isoDate nowThread : jsstring) (email : Email) (s : State)
    (d : EmailData) :
  emailData s = Some d → replyToEmail s = None →
  nowId ∉ email_id <$> emails d →
  js "thread" ++ nowThread ∉ thread_id <$> threads d →
  let s1 := handleSendEmail nowId isoDate nowThread email s in
  let s2 := handleThreadSelect (js "thread" ++ nowThread) s1 in
  ∃ e t,
    (∃ d1, emailData s1 = Some d1 ∧ emails d1 = emails d ++ [e]
           ∧ threads d1 = threads d ++ [t]) ∧
    viewMode s1 = ViewInbox ∧
    email_id e = nowId ∧ email_threadId e = thread_id t ∧
    email_date e = isoDate ∧ email_read e = true ∧
    email_body e = email_body email ∧
    thread_id t = js "thread" ++ nowThread ∧ messageIds t = [nowId] ∧
    getThreadEmails s2 = [e].
Proof.
  intros Hd Hreply He Ht s1 s2.
  set (tid := js "thread" ++ nowThread) in *.
  set (e := mkEmail nowId tid (email_from email) (email_to email)
              (email_subject email) (email_body email) isoDate true
              (email_starred email) (email_labels email)).
  set (t := mkThread tid (email_subject email)
              [email_from email; email_to email] isoDate [nowId] false false
              (email_labels email)).
  assert (Hs1 : s1 = setViewMode ViewInbox
                       (setDataChanged true
                          (setEmailData
                             (with_emails_threads d (emails d ++ [e])
                                (threads d ++ [t])) s))).
  { unfold s1, handleSendEmail. by rewrite Hd, Hreply. }
  exists e, t. split_and!; try done.
  - eexists. by rewrite Hs1.
  - by rewrite Hs1.
  - assert (Hfind : find_thread tid (threads d ++ [t]) = Some t)
      by (by apply find_thread_fresh).
    unfold s2, handleThreadSelect. rewrite Hs1.
    cbn [emailData setViewMode setDataChanged setEmailData
         with_emails_threads emails threads].
    rewrite Hfind. unfold getThreadEmails.
    cbn [emailData selectedThreadId setViewMode setDataChanged setEmailData
         setSelectedThreadId with_emails_threads emails threads].
    change (truthy tid) with true. cbn iota.
    rewrite find_thread_fmap
      by (intros x; by destruct (thread_id x =j tid)).
    rewrite Hfind. cbn [fmap option_fmap option_map].
    assert (Hg : (if thread_id t =j tid then mark_thread_read t else t) = t).
    { unfold jseqb. by rewrite bool_decide_eq_true_2. }
    rewrite Hg. cbn [messageIds t].
    rewrite fmap_app, filter_app.
    rewrite filter_listed_fresh.
    + cbn [fmap list_fmap app in_thread messageIds t].
      assert (Hinc : includes [nowId] (email_id e) = true)
        by (apply includes_true; by left).
      rewrite Hinc. rewrite filter_cons_True by done.
      rewrite filter_nil. apply Permutation_singleton_r, oldest_first_perm.
    + intros x. by destruct (in_thread (Some t) (email_id x)).
    + intros i [->|[]%elem_of_nil]%elem_of_cons. done.
Qed.

Lemma list_find_insert_same (i : jsstring) (ts : list Thread) (k : nat)
    (t t' : Thread) :
  list_find (λ x, thread_id x = i) ts = Some (k, t) →
  thread_id t' = i →
  list_find (λ x, thread_id x = i) (<[k:=t']> ts) = Some (k, t').
Proof.
  revert k. induction ts as [|x ts IH]; intros k; [done|].
  cbn [list_find]. destruct (decide (thread_id x = i)) as [Hx|Hx].
  - intros [= <- <-] Ht'. cbn. by rewrite decide_True.
  - destruct (list_find _ ts) as [[j y]|] eqn:E; [|done].
    simpl. intros [= <- <-] Ht'. simpl. rewrite decide_False by done.
    specialize (IH j eq_refl Ht'). simpl in IH. by rewrite IH.
Qed.

(** X24. A reply goes to the thread replied to.  With a reply in progress
    [handleSendEmail] adds the email and no thread; when a thread has the
    id of the email replied to (an id that is not the empty string),
    opening that thread shows the new email; when no thread has that id the
    threads stay as they are, so that no thread lists the new email. *)
Theorem reply_goes_to_replied_thread
    (nowId isoDate nowThread : jsstring) (email reply : Email) (s : State)
    (d : EmailData) :
  emailData s = Some d → replyToEmail s = Some reply →
  let s1 := handleSendEmail nowId isoDate nowThread email s in
  let s2 := handleThreadSelect (email_threadId reply) s1 in
  ∃ e d1,
    emailData s1 = Some d1 ∧ emails d1 = emails d ++ [e] ∧
    length (threads d1) = length (threads d) ∧
    email_id e = nowId ∧ email_threadId e = email_threadId email ∧
    email_body e = email_body email ∧
    email_read e = true ∧
    (email_threadId reply ≠ [] →
     email_threadId reply ∈ thread_id <$> threads d →
     e ∈ getThreadEmails s2) ∧
    (email_threadId reply ∉ thread_id <$> threads d → threads d1 = threads d).
Proof.
  intros Hd Hreply s1 s2.
  set (tid := email_threadId reply) in *.
  set (e := mkEmail nowId (email_threadId email) (email_from email)
              (email_to email) (email_subject email) (email_body email)
              isoDate true (email_starred email) (email_labels email)).
  assert (Hs1 : ∃ ts, s1 = setViewMode ViewInbox
                       (setDataChanged true
                          (setEmailData
                             (with_emails_threads d (emails d ++ [e]) ts) s))
                ∧ match list_find (λ x, thread_id x = tid) (threads d) with
                  | Some (k, t) =>
                      ts = <[k := with_message t isoDate (messageIds t ++ [nowId])]>
                             (threads d)
                  | None => ts = threads d
                  end).
  { unfold s1, handleSendEmail. rewrite Hd, Hreply. fold tid.
    destruct (list_find _ (threads d)) as [[k t]|]; by eexists. }
  destruct Hs1 as (ts & Hs1 & Hts).
  exists e, (with_emails_threads d (emails d ++ [e]) ts).
  split_and!; try done.
  - by rewrite Hs1.
  - cbn. destruct (list_find _ (threads d)) as [[k t]|]; subst ts; [|done].
    by rewrite length_insert.
  - intros Hne Hin.
    destruct (list_find (λ x, thread_id x = tid) (threads d)) as [[k t]|] eqn:Ef.
    2:{ apply list_find_None in Ef. rewrite Forall_forall in Ef.
        apply list_elem_of_fmap in Hin as (x & Hx & Hxin).
        by destruct (Ef x Hxin). }
    pose proof Ef as Hfound. apply list_find_Some in Hfound as (Hk & Hid & _).
    set (t' := with_message t isoDate (messageIds t ++ [nowId])) in *.
    assert (Hfind : find_thread tid ts = Some t').
    { unfold find_thread. subst ts.
      by rewrite (list_find_insert_same tid (threads d) k t t'). }
    change (mark_email_read e ∈ getThreadEmails s2).
    unfold s2, handleThreadSelect. rewrite Hs1.
    cbn [emailData setViewMode setDataChanged setEmailData
         with_emails_threads emails threads].
    rewrite Hfind. unfold getThreadEmails.
    cbn [emailData selectedThreadId setViewMode setDataChanged setEmailData
         setSelectedThreadId with_emails_threads emails threads].
    replace (truthy tid) with true by (by destruct tid).
    rewrite find_thread_fmap
      by (intros x; by destruct (thread_id x =j tid)).
    rewrite Hfind. cbn [fmap option_fmap option_map].
    assert (Hids : messageIds (if thread_id t' =j tid
                               then mark_thread_read t' else t')
                   = messageIds t ++ [nowId])
      by (by destruct (thread_id t' =j tid)).
    rewrite Hids. rewrite oldest_first_perm.
    assert (Hinc : includes (messageIds t ++ [nowId]) nowId = true).
    { apply includes_true, elem_of_app. right. by left. }
    apply list_elem_of_filter. split.
    + done.
    + rewrite fmap_app. apply elem_of_app. right.
      cbn [fmap list_fmap in_thread messageIds t' with_message email_id e].
      rewrite Hinc. by left.
  - intros Hout.
    destruct (list_find (λ x, thread_id x = tid) (threads d)) as [[k t]|] eqn:Ef;
      [|done].
    apply list_find_Some in Ef as (Hk & Hid & _).
    destruct Hout. apply list_elem_of_fmap. exists t. split; [done|].
    apply list_elem_of_lookup. eauto.
Qed.

(** X25. The emails shown for the selected thread are the emails of the
    mailbox that the first thread with the selected id lists; nothing is
    shown without data, without a selection, for the empty string as
    selection or when no thread has the selected id.  They are shown oldest
    first when the dates of all of them parse. *)
Theorem thread_emails_are_listed_oldest_first (s : State) :
  (∀ e, e ∈ getThreadEmails s ↔
        ∃ d selected t,
          emailData s = Some d ∧ selectedThreadId s = Some selected ∧
          selected ≠ [] ∧ find_thread selected (threads d) = Some t ∧
          e ∈ emails d ∧ email_id e ∈ messageIds t) ∧
  ((∀ e, e ∈ getThreadEmails s → Date_getTime (email_date e) ≠ NaN) →
   StronglySorted older_or_same (getThreadEmails s)).
Proof.
  unfold getThreadEmails.
  destruct (emailData s) as [d|]; [|split; [|constructor]].
  2:{ intros e. split; [by intros ?%elem_of_nil|]. by intros (?&?&?&?&_). }
  destruct (selectedThreadId s) as [selected|]; [|split; [|constructor]].
  2:{ intros e. split; [by intros ?%elem_of_nil|]. by intros (?&?&?&_&?&_). }
  destruct selected as [|c selected]; cbn [truthy]; [split; [|constructor]|].
  { intros e. split; [by intros ?%elem_of_nil|].
    by intros (?&?&?&_&[= <-]&?&_). }
  destruct (find_thread (c :: selected) (threads d)) as [t|] eqn:Ef;
    [|split; [|constructor]].
  2:{ intros e. split; [by intros ?%elem_of_nil|].
      intros (?&?&?&[= <-]&[= <-]&_&?&_). congruence. }
  split.
  - intros e. rewrite oldest_first_perm, list_elem_of_filter, includes_true.
    split.
    + intros [Hin He]. by exists d, (c :: selected), t.
    + intros (?&?&?&[= <-]&[= <-]&_&Hf&?&?). rewrite Ef in Hf.
      by injection Hf as <-.
  - intros Hdates. apply oldest_first_sorted. apply Forall_forall.
    intros e He. apply Hdates. by rewrite oldest_first_perm.
Qed.

(** In the order of the dates, newest first. *)
Definition newer_or_same (a b : Thread) : Prop :=
  num_le (Date_getTime (lastMessageDate b)) (Date_getTime (lastMessageDate a)).

Lemma newest_first_perm (ts : list Thread) :
  sort_number engine_threads newest_first ts ≡ₚ ts.
Proof. apply sort_number_perm. Qed.

Lemma newest_first_sorted (ts : list Thread) :
  Forall (λ t, Date_getTime (lastMessageDate t) ≠ NaN) ts →
  StronglySorted newer_or_same (sort_number engine_threads newest_first ts).
Proof.
  apply (sort_number_descending engine_threads
           (λ t, Date_getTime (lastMessageDate t))).
Qed.

(** The filters that are on: a label that is not the empty string, or a
    query that is not. *)
Definition filtering (s : State) : Prop :=
  (∃ l, selectedLabelId s = Some l ∧ l ≠ []) ∨ searchQuery s ≠ [].

(** X26. The thread list holds threads of the mailbox only, with the
    selected label when one is selected, and is shown newest first when the
    dates of all the threads shown parse.  The sort is done in place: with
    a label or a query on, the mailbox is left as it is, but without any
    the threads of the mailbox themselves are put in the order shown. *)
Theorem thread_list_is_newest_first (s : State) (d : EmailData) :
  emailData s = Some d →
  let shown := (getFilteredThreads s).1 in
  let after := (getFilteredThreads s).2 in
  ((∀ t, t ∈ shown → Date_getTime (lastMessageDate t) ≠ NaN) →
   StronglySorted newer_or_same shown) ∧
  (∀ t, t ∈ shown → t ∈ threads d) ∧
  (∀ l t, selectedLabelId s = Some l → l ≠ [] → t ∈ shown →
          l ∈ thread_labels t) ∧
  (filtering s → after = s) ∧
  (¬ filtering s →
     shown ≡ₚ threads d ∧ after = setEmailData (with_threads d shown) s).
Proof.
  intros Hd shown after. unfold shown, after, getFilteredThreads, filtering.
  rewrite Hd.
  destruct (selectedLabelId s) as [[|c l]|] eqn:El;
    destruct (searchQuery s) as [|c' q] eqn:Eq; cbn [truthy fst snd];
    (split_and!;
     [ intros Hdates; apply newest_first_sorted; apply Forall_forall;
       intros t Ht; apply Hdates; by rewrite newest_first_perm
     | intros t Ht; rewrite newest_first_perm in Ht;
       repeat (apply list_elem_of_filter in Ht as [_ Ht]); exact Ht
     | intros l0 t Hl Hne Ht; rewrite newest_first_perm in Ht;
       try (apply list_elem_of_filter in Ht as [Hq Ht];
            try apply list_elem_of_filter in Ht as [Hq' Ht]);
       first [ discriminate Hl | injection Hl as <- ]; try done;
       first [ by apply includes_true in Hq
             | by apply includes_true in Hq' ]
     | try done; intros [(l0 & [= <-] & Hne)|Hne]; done
     | try (intros _; split; [apply newest_first_perm|done]);
       intros Hf; destruct Hf; first [ by right | left; by eexists ] ]).
Qed.

End Views.

(** *** Concrete runs *)

(** [new Date(s).getTime()] on the strings of the runs below: the three ISO
    dates, one, two and three seconds after the epoch; the others are no
    dates. *)
Definition date_of (s : jsstring) : jsnumber :=
  if s =j js "1970-01-01T00:00:01.000Z" then Num 1000
  else if s =j js "1970-01-01T00:00:02.000Z" then Num 2000
  else if s =j js "1970-01-01T00:00:03.000Z" then Num 3000
  else NaN.

(** An implementation that leaves an array it cannot order as it is. *)
Definition as_it_is {A} (a : list A) : list A := a.
Definition same_case (s : jsstring) : jsstring := s.

Definition me : User := mkUser (js "me@ry.os") (js "Me") (js "-- me").
Definition mail1 : Email :=
  mkEmail (js "e1") (js "t1") (js "ada@ry.os") (js "me@ry.os") (js "Lunch")
    (js "Noon?") (js "1970-01-01T00:00:01.000Z") false false [].
Definition mail2 : Email :=
  mkEmail (js "e2") (js "t2") (js "bob@ry.os") (js "me@ry.os") (js "Notes")
    (js "Attached.") (js "1970-01-01T00:00:02.000Z") false false [].
Definition thread1 : Thread :=
  mkThread (js "t1") (js "Lunch") [js "ada@ry.os"; js "me@ry.os"]
    (js "1970-01-01T00:00:01.000Z") [js "e1"] true false [js "work"].
Definition thread2 : Thread :=
  mkThread (js "t2") (js "Notes") [js "bob@ry.os"; js "me@ry.os"]
    (js "1970-01-01T00:00:02.000Z") [js "e2"] true false [].
Definition box : EmailData := mkData [mail1; mail2] [thread1; thread2] [] me.
Definition inbox : State := mkState (Some box) ViewInbox None None [] None false.
Definition replying : State :=
  mkState (Some box) ViewCompose None None [] (Some mail1) false.
Definition draft : Email :=
  mkEmail [] [] (js "me@ry.os") (js "ada@ry.os") (js "Re: Lunch") (js "Yes.")
    [] false false [].



Lemma sent_message_opens_in_its_thread_witness :
  ∃ e, getThreadEmails date_of as_it_is
         (handleThreadSelect (js "thread77")
            (handleSendEmail (js "76") (js "1970-01-01T00:00:03.000Z") (js "77") draft inbox))
       = [e]
     ∧ email_id e = js "76".
Proof.
  assert (He : js "76" ∉ email_id <$> emails box).
  { apply (bool_decide_unpack _). vm_compute. exact I. }
  assert (Ht : js "thread" ++ js "77" ∉ thread_id <$> threads box).
  { apply (bool_decide_unpack _). vm_compute. exact I. }
  destruct (sent_message_opens_in_its_thread date_of as_it_is (js "76") (js "1970-01-01T00:00:03.000Z")
              (js "77") draft inbox box eq_refl eq_refl He Ht)
    as (e & t & _ & _ & Hid & _ & _ & _ & _ & _ & _ & Hshown).
  exists e. split; [exact Hshown|exact Hid].
Defined.

Lemma reply_goes_to_replied_thread_witness :
  ∃ e, e ∈ getThreadEmails date_of as_it_is
             (handleThreadSelect (js "t1")
                (handleSendEmail (js "76") (js "1970-01-01T00:00:03.000Z") (js "77") draft replying))
     ∧ email_id e = js "76".
Proof.
  destruct (reply_goes_to_replied_thread date_of as_it_is (js "76") (js "1970-01-01T00:00:03.000Z")
              (js "77") draft mail1 replying box eq_refl eq_refl)
    as (e & d1 & _ & _ & _ & Hid & _ & _ & _ & Hshown & _).
  exists e. split; [|exact Hid].
  apply Hshown; [done|].
  apply (bool_decide_unpack _). vm_compute. exact I.
Defined.

(** The mailbox with its second thread listing both emails, selected. *)
Definition both_listed : State :=
  mkState
    (Some (mkData [mail2; mail1]
             [thread1;
              mkThread (js "t2") (js "Notes") [js "bob@ry.os"; js "me@ry.os"]
                (js "1970-01-01T00:00:02.000Z") [js "e2"; js "e1"] true false []]
             [] me))
    ViewThread (Some (js "t2")) None [] None false.

Lemma thread_emails_are_listed_oldest_first_witness :
  getThreadEmails date_of as_it_is both_listed = [mail1; mail2]
  ∧ StronglySorted (older_or_same date_of)
      (getThreadEmails date_of as_it_is both_listed).
Proof.
  split; [vm_compute; reflexivity|].
  apply (thread_emails_are_listed_oldest_first date_of as_it_is both_listed).
  intros e He.
  assert (Hrun : getThreadEmails date_of as_it_is both_listed = [mail1; mail2])
    by (vm_compute; reflexivity).
  rewrite Hrun in He.
  apply elem_of_cons in He as [->|He]; [by vm_compute|].
  apply elem_of_cons in He as [->|He]; [by vm_compute|].
  by apply elem_of_nil in He.
Defined.

Lemma thread_list_is_newest_first_witness :
  (getFilteredThreads date_of same_case as_it_is inbox).1 = [thread2; thread1]
  ∧ StronglySorted (newer_or_same date_of)
      (getFilteredThreads date_of same_case as_it_is inbox).1
  ∧ (getFilteredThreads date_of same_case as_it_is inbox).2
    = setEmailData
        (with_threads box (getFilteredThreads date_of same_case as_it_is inbox).1) inbox.
Proof.
  assert (Hrun : (getFilteredThreads date_of same_case as_it_is inbox).1
                 = [thread2; thread1]) by (vm_compute; reflexivity).
  destruct (thread_list_is_newest_first date_of same_case as_it_is inbox box eq_refl)
    as (Hsorted & _ & _ & _ & Hplain).
  split_and!; [exact Hrun| |].
  - apply Hsorted. intros t Ht. rewrite Hrun in Ht.
    apply elem_of_cons in Ht as [->|Ht]; [by vm_compute|].
    apply elem_of_cons in Ht as [->|Ht]; [by vm_compute|].
    by apply elem_of_nil in Ht.
  - apply Hplain. intros [(l & Hl & _)|Hq]; [discriminate Hl|by apply Hq].
Defined.

End Mail.
